(** * A shallow embedding of the lock-coupled red-black tree of RedLockTree

    The C++ trees (include/lock_based_rb_tree.hpp, lock_based_rb_tree.cpp,
    race_free_rb_tree.cpp, epoch_based_rb_tree.cpp) are raw-pointer graphs.
    We model memory as a finite map from addresses to node records; the
    sentinel NIL is an ordinary allocated node whose address is a member of
    the tree object.  Every member function becomes a function on the tree
    object (explicit state passing).  The per-node reader/writer mutexes are
    identified with the address of the node that owns them; the lock
    operations a function performs are returned as an event trace.

    Keys and values are [int] ([Z]), the comparator is [std::less<int>]. *)

From Stdlib Require Import ZArith Lia Bool List.
From stdpp Require Import base gmap list sorting.

Import ListNotations.

(* ------------------------------------------------------------------ *)
(** ** Data model *)

(** [enum class Color : uint8_t { RED, BLACK }] *)
Inductive Color := RED | BLACK.

Definition color_eqb (a b : Color) : bool :=
  match a, b with
  | RED, RED | BLACK, BLACK => true
  | _, _ => false
  end.

(** Raw pointers are addresses ([N]), with [nullptr] the address 0. *)
Definition nullptr : N := 0%N.

(** [struct Node<K,V>]: key, val, color and the three links.  The member
    [rw] (the per-node [shared_mutex]) is the node address itself in the
    lock traces below.  The constructor leaves the links [nullptr]. *)
Record Node := mkNode {
  key : Z;
  val : Z;
  color : Color;
  parent : N;
  left : N;
  right : N
}.

(** [new NodeT(k, v, c)] *)
Definition new_Node (k v : Z) (c : Color) : Node :=
  mkNode k v c nullptr nullptr nullptr.

(** Field writes [n->f = x] on a node record. *)
Definition with_val (x : Z) (n : Node) : Node :=
  mkNode n.(key) x n.(color) n.(parent) n.(left) n.(right).
Definition with_color (x : Color) (n : Node) : Node :=
  mkNode n.(key) n.(val) x n.(parent) n.(left) n.(right).
Definition with_parent (x : N) (n : Node) : Node :=
  mkNode n.(key) n.(val) n.(color) x n.(left) n.(right).
Definition with_left (x : N) (n : Node) : Node :=
  mkNode n.(key) n.(val) n.(color) n.(parent) x n.(right).
Definition with_right (x : N) (n : Node) : Node :=
  mkNode n.(key) n.(val) n.(color) n.(parent) n.(left) x.

(** The tree object: the members [root] and [NIL], together with the
    memory they point into ([heap]) and the next fresh address handed out
    by [new] ([brk]). *)
Record RBTree := mkTree {
  root : N;
  NIL : N;
  heap : gmap N Node;
  brk : N
}.

(** Reading [*p].  Reading an address that holds no node is undefined
    behaviour in C++; the model returns an all-zero record there. *)
Definition null_node : Node := mkNode 0 0 BLACK nullptr nullptr nullptr.

Definition deref (t : RBTree) (p : N) : Node :=
  default null_node (t.(heap) !! p).

(** [*p = n] *)
Definition store (t : RBTree) (p : N) (n : Node) : RBTree :=
  mkTree t.(root) t.(NIL) (<[p := n]> t.(heap)) t.(brk).

Definition set_val (t : RBTree) (p : N) (x : Z) : RBTree :=
  store t p (with_val x (deref t p)).
Definition set_color (t : RBTree) (p : N) (x : Color) : RBTree :=
  store t p (with_color x (deref t p)).
Definition set_parent (t : RBTree) (p : N) (x : N) : RBTree :=
  store t p (with_parent x (deref t p)).
Definition set_left (t : RBTree) (p : N) (x : N) : RBTree :=
  store t p (with_left x (deref t p)).
Definition set_right (t : RBTree) (p : N) (x : N) : RBTree :=
  store t p (with_right x (deref t p)).

(** [root = p] *)
Definition set_root (t : RBTree) (p : N) : RBTree :=
  mkTree p t.(NIL) t.(heap) t.(brk).

(** [new NodeT(k, v, c)]: the node is placed at a fresh address. *)
Definition alloc (t : RBTree) (n : Node) : RBTree * N :=
  (mkTree t.(root) t.(NIL) (<[t.(brk) := n]> t.(heap)) (t.(brk) + 1)%N,
   t.(brk)).

(** [delete p] *)
Definition free (t : RBTree) (p : N) : RBTree :=
  mkTree t.(root) t.(NIL) (delete p t.(heap)) t.(brk).

(** Field reads [p->f]. *)
Definition key_of (t : RBTree) (p : N) : Z := (deref t p).(key).
Definition val_of (t : RBTree) (p : N) : Z := (deref t p).(val).
Definition color_of (t : RBTree) (p : N) : Color := (deref t p).(color).
Definition parent_of (t : RBTree) (p : N) : N := (deref t p).(parent).
Definition left_of (t : RBTree) (p : N) : N := (deref t p).(left).
Definition right_of (t : RBTree) (p : N) : N := (deref t p).(right).

Definition ptr_eqb (a b : N) : bool := N.eqb a b.

(** The comparator [std::less<int>]. *)
Definition comp (a b : Z) : bool := Z.ltb a b.

(** Every [while] loop of the code runs at most once per node of the tree
    (the loops descend or ascend a path of the tree).  The recursive
    functions below are given that many steps: the number of cells of the
    heap, plus one. *)
Definition fuel (t : RBTree) : nat := S (size t.(heap)).

(** [RBTree()]: [NIL = new NodeT(K{}, V{}, Color::BLACK); root = NIL;].
    The allocator starts at address 1. *)
Definition empty_tree : RBTree :=
  let '(t, sentinel) := alloc (mkTree nullptr nullptr ∅ 1%N) (new_Node 0 0 BLACK) in
  mkTree sentinel sentinel t.(heap) t.(brk).

(* ------------------------------------------------------------------ *)
(** ** Rotations, fix-ups, transplant, minimum, validation

    These private members are token-for-token identical in the four tree
    classes (include/lock_based_rb_tree.hpp, lock_based_rb_tree.cpp,
    race_free_rb_tree.cpp, epoch_based_rb_tree.cpp); they take no locks. *)

(** [left_rotate(x)] *)
Definition left_rotate (t : RBTree) (x : N) : RBTree :=
  let y := right_of t x in
  let t := set_right t x (left_of t y) in
  let t := if negb (ptr_eqb (left_of t y) t.(NIL))
           then set_parent t (left_of t y) x else t in
  let t := set_parent t y (parent_of t x) in
  let t := if ptr_eqb (parent_of t x) t.(NIL) then set_root t y
           else if ptr_eqb x (left_of t (parent_of t x))
           then set_left t (parent_of t x) y
           else set_right t (parent_of t x) y in
  let t := set_left t y x in
  set_parent t x y.

(** [right_rotate(y)] *)
Definition right_rotate (t : RBTree) (y : N) : RBTree :=
  let x := left_of t y in
  let t := set_left t y (right_of t x) in
  let t := if negb (ptr_eqb (right_of t x) t.(NIL))
           then set_parent t (right_of t x) y else t in
  let t := set_parent t x (parent_of t y) in
  let t := if ptr_eqb (parent_of t y) t.(NIL) then set_root t x
           else if ptr_eqb y (right_of t (parent_of t y))
           then set_right t (parent_of t y) x
           else set_left t (parent_of t y) x in
  let t := set_right t x y in
  set_parent t y x.

(** One iteration of the [while (z->parent->color == Color::RED)] loop of
    [insert_fixup]; returns the new tree and the new [z]. *)
Definition insert_fixup_body (t : RBTree) (z : N) : RBTree * N :=
  if ptr_eqb (parent_of t z) (left_of t (parent_of t (parent_of t z))) then
    let y := right_of t (parent_of t (parent_of t z)) in
    if color_eqb (color_of t y) RED then
      let t := set_color t (parent_of t z) BLACK in
      let t := set_color t y BLACK in
      let t := set_color t (parent_of t (parent_of t z)) RED in
      (t, parent_of t (parent_of t z))
    else
      let '(t, z) :=
        if ptr_eqb z (right_of t (parent_of t z)) then
          let z := parent_of t z in (left_rotate t z, z)
        else (t, z) in
      let t := set_color t (parent_of t z) BLACK in
      let t := set_color t (parent_of t (parent_of t z)) RED in
      (right_rotate t (parent_of t (parent_of t z)), z)
  else
    let y := left_of t (parent_of t (parent_of t z)) in
    if color_eqb (color_of t y) RED then
      let t := set_color t (parent_of t z) BLACK in
      let t := set_color t y BLACK in
      let t := set_color t (parent_of t (parent_of t z)) RED in
      (t, parent_of t (parent_of t z))
    else
      let '(t, z) :=
        if ptr_eqb z (left_of t (parent_of t z)) then
          let z := parent_of t z in (right_rotate t z, z)
        else (t, z) in
      let t := set_color t (parent_of t z) BLACK in
      let t := set_color t (parent_of t (parent_of t z)) RED in
      (left_rotate t (parent_of t (parent_of t z)), z).

Fixpoint insert_fixup_loop (n : nat) (t : RBTree) (z : N) : RBTree :=
  match n with
  | O => t
  | S n =>
      if color_eqb (color_of t (parent_of t z)) RED then
        let '(t, z) := insert_fixup_body t z in insert_fixup_loop n t z
      else t
  end.

(** [insert_fixup(z)] *)
Definition insert_fixup (t : RBTree) (z : N) : RBTree :=
  let t := insert_fixup_loop (fuel t) t z in
  set_color t t.(root) BLACK.

(** [transplant(u, v)] *)
Definition transplant (t : RBTree) (u v : N) : RBTree :=
  let t := if ptr_eqb (parent_of t u) t.(NIL) then set_root t v
           else if ptr_eqb u (left_of t (parent_of t u))
           then set_left t (parent_of t u) v
           else set_right t (parent_of t u) v in
  set_parent t v (parent_of t u).

(** [minimum(x)] *)
Fixpoint minimum_loop (n : nat) (t : RBTree) (x : N) : N :=
  match n with
  | O => x
  | S n => if negb (ptr_eqb (left_of t x) t.(NIL))
           then minimum_loop n t (left_of t x) else x
  end.

Definition minimum (t : RBTree) (x : N) : N := minimum_loop (fuel t) t x.

(** One iteration of the [while (x != root && x->color == Color::BLACK)]
    loop of [delete_fixup]. *)
Definition delete_fixup_body (t : RBTree) (x : N) : RBTree * N :=
  if ptr_eqb x (left_of t (parent_of t x)) then
    let w := right_of t (parent_of t x) in
    let '(t, w) :=
      if color_eqb (color_of t w) RED then
        let t := set_color t w BLACK in
        let t := set_color t (parent_of t x) RED in
        let t := left_rotate t (parent_of t x) in
        (t, right_of t (parent_of t x))
      else (t, w) in
    if color_eqb (color_of t (left_of t w)) BLACK &&
       color_eqb (color_of t (right_of t w)) BLACK then
      let t := set_color t w RED in
      (t, parent_of t x)
    else
      let '(t, w) :=
        if color_eqb (color_of t (right_of t w)) BLACK then
          let t := set_color t (left_of t w) BLACK in
          let t := set_color t w RED in
          let t := right_rotate t w in
          (t, right_of t (parent_of t x))
        else (t, w) in
      let t := set_color t w (color_of t (parent_of t x)) in
      let t := set_color t (parent_of t x) BLACK in
      let t := set_color t (right_of t w) BLACK in
      let t := left_rotate t (parent_of t x) in
      (t, t.(root))
  else
    let w := left_of t (parent_of t x) in
    let '(t, w) :=
      if color_eqb (color_of t w) RED then
        let t := set_color t w BLACK in
        let t := set_color t (parent_of t x) RED in
        let t := right_rotate t (parent_of t x) in
        (t, left_of t (parent_of t x))
      else (t, w) in
    if color_eqb (color_of t (right_of t w)) BLACK &&
       color_eqb (color_of t (left_of t w)) BLACK then
      let t := set_color t w RED in
      (t, parent_of t x)
    else
      let '(t, w) :=
        if color_eqb (color_of t (left_of t w)) BLACK then
          let t := set_color t (right_of t w) BLACK in
          let t := set_color t w RED in
          let t := left_rotate t w in
          (t, left_of t (parent_of t x))
        else (t, w) in
      let t := set_color t w (color_of t (parent_of t x)) in
      let t := set_color t (parent_of t x) BLACK in
      let t := set_color t (left_of t w) BLACK in
      let t := right_rotate t (parent_of t x) in
      (t, t.(root)).

Fixpoint delete_fixup_loop (n : nat) (t : RBTree) (x : N) : RBTree * N :=
  match n with
  | O => (t, x)
  | S n =>
      if negb (ptr_eqb x t.(root)) && color_eqb (color_of t x) BLACK then
        let '(t, x) := delete_fixup_body t x in delete_fixup_loop n t x
      else (t, x)
  end.

(** [delete_fixup(x)] *)
Definition delete_fixup (t : RBTree) (x : N) : RBTree :=
  let '(t, x) := delete_fixup_loop (fuel t) t x in
  set_color t x BLACK.

(** [validate_rec(n, blacks, target)]: [target] is an in/out parameter,
    returned with the result.  [&&] short-circuits. *)
Fixpoint validate_rec (f : nat) (t : RBTree) (n : N) (blacks target : Z)
    : bool * Z :=
  match f with
  | O => (false, target)
  | S f =>
      if ptr_eqb n t.(NIL) then
        let target := if Z.eqb target (-1) then blacks else target in
        (Z.eqb blacks target, target)
      else
        let blacks := if color_eqb (color_of t n) BLACK then (blacks + 1)%Z
                      else blacks in
        if color_eqb (color_of t n) RED &&
           (color_eqb (color_of t (left_of t n)) RED ||
            color_eqb (color_of t (right_of t n)) RED) then (false, target)
        else if negb (ptr_eqb (left_of t n) t.(NIL)) &&
                comp (key_of t n) (key_of t (left_of t n)) then (false, target)
        else if negb (ptr_eqb (right_of t n) t.(NIL)) &&
                comp (key_of t (right_of t n)) (key_of t n) then (false, target)
        else
          let '(b, target) := validate_rec f t (left_of t n) blacks target in
          if b then validate_rec f t (right_of t n) blacks target
          else (false, target)
  end.

(** [validate()] *)
Definition validate (t : RBTree) : bool :=
  fst (validate_rec (fuel t) t t.(root) 0 (-1)).

(* ------------------------------------------------------------------ *)
(** ** Lock events

    A thread's operations on the per-node [std::shared_mutex] of the node at
    an address ([n->rw]). *)
Inductive LockEv :=
| LockShared (m : N)
| UnlockShared (m : N)
| LockExcl (m : N)
| UnlockExcl (m : N).

(* ------------------------------------------------------------------ *)
(** ** include/lock_based_rb_tree.hpp: the lock-coupled tree *)

Module LockCoupled.

(** The loop of [lookup]: [n] is the node whose shared lock [lock_cur]
    holds.  Returning releases [lock_cur]. *)
Fixpoint lookup_loop (f : nat) (t : RBTree) (k : Z) (n : N)
    : option Z * list LockEv :=
  match f with
  | O => (None, [])
  | S f =>
      if ptr_eqb n t.(NIL) then (None, [UnlockShared n])
      else if comp k (key_of t n) then
        let child := left_of t n in
        let '(r, tr) := lookup_loop f t k child in
        (r, LockShared child :: UnlockShared n :: tr)
      else if comp (key_of t n) k then
        let child := right_of t n in
        let '(r, tr) := lookup_loop f t k child in
        (r, LockShared child :: UnlockShared n :: tr)
      else (Some (val_of t n), [UnlockShared n])
  end.

(** [lookup(k)]: the result and the lock events of the calling thread. *)
Definition lookup (t : RBTree) (k : Z) : option Z * list LockEv :=
  let '(r, tr) := lookup_loop (fuel t) t k t.(root) in
  (r, LockShared t.(root) :: tr).

(** [UpgradeLock::upgrade()]: [shared.unlock(); unique.lock();] on the
    mutex [m] the helper was built on. *)
Definition upgrade (m : N) : list LockEv := [UnlockShared m; LockExcl m].

(** The descent loop of [insert] (step 4).  [x] is the cursor whose
    [UpgradeLock] [lock_x] is held in shared mode, [y] the last visited
    node.  Returns the final [y], [x], whether [x] holds an equal key, and
    the lock events. *)
Fixpoint insert_descent (f : nat) (t : RBTree) (k : Z) (y x : N)
    : N * N * bool * list LockEv :=
  match f with
  | O => (y, x, false, [])
  | S f =>
      if ptr_eqb x t.(NIL) then (y, x, false, [])
      else
        let y := x in
        if comp k (key_of t x) then
          let next := left_of t x in
          let '(y', x', found, tr) := insert_descent f t k y next in
          (y', x', found, LockShared next :: UnlockShared x :: tr)
        else if comp (key_of t x) k then
          let next := right_of t x in
          let '(y', x', found, tr) := insert_descent f t k y next in
          (y', x', found, LockShared next :: UnlockShared x :: tr)
        else (y, x, true, [])
  end.

(** [insert(k, v)]: the new tree and the lock events of the writer on the
    node mutexes ([writers_mutex] is held throughout).  The [UpgradeLock]
    destructor releases the exclusive lock taken by [upgrade()]. *)
Definition insert (t : RBTree) (k v : Z) : RBTree * list LockEv :=
  let '(t, z) := alloc t (new_Node k v RED) in
  let t := set_parent t z t.(NIL) in
  let t := set_right t z t.(NIL) in
  let t := set_left t z t.(NIL) in
  let y := t.(NIL) in
  let x0 := t.(root) in
  let '(y, x, found, tr) := insert_descent (fuel t) t k y x0 in
  if found then
    let t := set_val t x v in
    let t := free t z in
    (t, LockShared x0 :: tr ++ upgrade x ++ [UnlockExcl x])
  else
    let t := set_parent t z y in
    let t := if ptr_eqb y t.(NIL) then set_root t z
             else if comp (key_of t z) (key_of t y) then set_left t y z
             else set_right t y z in
    let t' := insert_fixup t z in
    (t', LockShared x0 :: tr ++ upgrade x ++ [UnlockExcl x]).

End LockCoupled.

(* ------------------------------------------------------------------ *)
(** ** [erase]

    [erase] is the same in all tree classes apart from the type of the lock
    guarding it ([writers_mutex] or the tree-wide [global_rw_lock]); it
    takes no node locks. *)

(** Step 2 of [erase]: [while (z != NIL && k != z->key) z = ...]. *)
Fixpoint erase_search (f : nat) (t : RBTree) (k : Z) (z : N) : N :=
  match f with
  | O => z
  | S f =>
      if negb (ptr_eqb z t.(NIL)) && negb (Z.eqb k (key_of t z)) then
        erase_search f t k (if comp k (key_of t z) then left_of t z
                            else right_of t z)
      else z
  end.

(** Steps 4 and 5 of [erase]: [delete z], then the fix-up. *)
Definition erase_finish (t : RBTree) (z x : N) (y_original : Color) : RBTree :=
  let t := free t z in
  if color_eqb y_original BLACK then delete_fixup t x else t.

(** [erase(k)] *)
Definition erase (t : RBTree) (k : Z) : RBTree * bool :=
  let z := erase_search (fuel t) t k t.(root) in
  if ptr_eqb z t.(NIL) then (t, false)
  else
    let y := z in
    let y_original := color_of t y in
    if ptr_eqb (left_of t z) t.(NIL) then
      let x := right_of t z in
      let t := transplant t z (right_of t z) in
      (erase_finish t z x y_original, true)
    else if ptr_eqb (right_of t z) t.(NIL) then
      let x := left_of t z in
      let t := transplant t z (left_of t z) in
      (erase_finish t z x y_original, true)
    else
      let y := minimum t (right_of t z) in
      let y_original := color_of t y in
      let x := right_of t y in
      let t :=
        if ptr_eqb (parent_of t y) z then set_parent t x y
        else
          let t := transplant t y (right_of t y) in
          let t := set_right t y (right_of t z) in
          set_parent t (right_of t y) y in
      let t := transplant t z y in
      let t := set_left t y (left_of t z) in
      let t := set_parent t (left_of t y) y in
      let t := set_color t y (color_of t z) in
      (erase_finish t z x y_original, true).

(* ------------------------------------------------------------------ *)
(** ** lock_based_rb_tree.cpp: the deadlock-safe lookup *)

Module DeadlockSafe.

(** [Node::lock_id = reinterpret_cast<uintptr_t>(this)]. *)
Definition lock_id (p : N) : N := p.

(** [std::sort] by [lock_id], then [std::unique] (adjacent duplicates). *)
Definition sort_by_lock_id (l : list N) : list N :=
  merge_sort (fun a b => (lock_id a <= lock_id b)%N) l.

Fixpoint unique (l : list N) : list N :=
  match l with
  | x :: ((y :: _) as l') => if N.eqb x y then unique l' else x :: unique l'
  | l => l
  end.

(** The nodes whose locks [OrderedLockGuard(nodes)] acquires, in order. *)
Definition guard_nodes (nodes : list N) : list N :=
  unique (sort_by_lock_id nodes).

(** Constructor: [locks_.emplace_back(node->rw)] for each node. *)
Definition guard_acquire (nodes : list N) : list LockEv :=
  map LockShared (guard_nodes nodes).

(** Destructor of [locks_] at the end of the guard's scope. *)
Definition guard_release (nodes : list N) : list LockEv :=
  map UnlockShared (guard_nodes nodes).

(** One transition of [lookup] from [curr] (held by [curr_lock]) to its
    chosen child [next]. *)
Definition step (curr next : N) : list LockEv :=
  if N.ltb (lock_id curr) (lock_id next) then
    [LockShared next; UnlockShared curr]
  else
    guard_acquire [curr; next] ++ [UnlockShared curr; LockShared next]
    ++ guard_release [curr; next].

Fixpoint lookup_loop (f : nat) (t : RBTree) (k : Z) (curr : N)
    : option Z * list LockEv :=
  match f with
  | O => (None, [])
  | S f =>
      if ptr_eqb curr t.(NIL) then (None, [UnlockShared curr])
      else if comp k (key_of t curr) then
        let next := left_of t curr in
        if ptr_eqb next t.(NIL) then (None, [UnlockShared curr])
        else let '(r, tr) := lookup_loop f t k next in (r, step curr next ++ tr)
      else if comp (key_of t curr) k then
        let next := right_of t curr in
        if ptr_eqb next t.(NIL) then (None, [UnlockShared curr])
        else let '(r, tr) := lookup_loop f t k next in (r, step curr next ++ tr)
      else (Some (val_of t curr), [UnlockShared curr])
  end.

(** [lookup(k)] (LOOKUP STRATEGY 2). *)
Definition lookup (t : RBTree) (k : Z) : option Z * list LockEv :=
  if ptr_eqb t.(root) t.(NIL) then (None, [])
  else
    let '(r, tr) := lookup_loop (fuel t) t k t.(root) in
    (r, LockShared t.(root) :: tr).

End DeadlockSafe.

(* ------------------------------------------------------------------ *)
(** ** race_free_rb_tree.cpp: one tree-wide [shared_mutex] *)

Module RaceFree.

Fixpoint lookup_loop (f : nat) (t : RBTree) (k : Z) (n : N) : option Z :=
  match f with
  | O => None
  | S f =>
      if ptr_eqb n t.(NIL) then None
      else if comp k (key_of t n) then lookup_loop f t k (left_of t n)
      else if comp (key_of t n) k then lookup_loop f t k (right_of t n)
      else Some (val_of t n)
  end.

(** [lookup(k)] *)
Definition lookup (t : RBTree) (k : Z) : option Z :=
  lookup_loop (fuel t) t k t.(root).

(** The descent loop of [insert]: returns the final [y], [x] and whether
    [x] holds an equal key. *)
Fixpoint insert_descent (f : nat) (t : RBTree) (k : Z) (y x : N)
    : N * N * bool :=
  match f with
  | O => (y, x, false)
  | S f =>
      if ptr_eqb x t.(NIL) then (y, x, false)
      else
        let y := x in
        if comp k (key_of t x) then insert_descent f t k y (left_of t x)
        else if comp (key_of t x) k then insert_descent f t k y (right_of t x)
        else (y, x, true)
  end.

(** [insert(k, v)] *)
Definition insert (t : RBTree) (k v : Z) : RBTree :=
  let '(t, z) := alloc t (new_Node k v RED) in
  let t := set_parent t z t.(NIL) in
  let t := set_right t z t.(NIL) in
  let t := set_left t z t.(NIL) in
  let '(y, x, found) := insert_descent (fuel t) t k t.(NIL) t.(root) in
  if found then
    let t := set_val t x v in
    free t z
  else
    let t := set_parent t z y in
    let t := if ptr_eqb y t.(NIL) then set_root t z
             else if comp (key_of t z) (key_of t y) then set_left t y z
             else set_right t y z in
    insert_fixup t z.

End RaceFree.

(* ------------------------------------------------------------------ *)
(** ** epoch_based_rb_tree.cpp: [simple_rbt::SimpleConcurrentRBTree] *)

Module Epoch.

Fixpoint lookup_loop (f : nat) (t : RBTree) (k : Z) (n : N) : option Z :=
  match f with
  | O => None
  | S f =>
      if ptr_eqb n t.(NIL) then None
      else if comp k (key_of t n) then lookup_loop f t k (left_of t n)
      else if comp (key_of t n) k then lookup_loop f t k (right_of t n)
      else Some (val_of t n)
  end.

(** [lookup(k)] *)
Definition lookup (t : RBTree) (k : Z) : option Z :=
  lookup_loop (fuel t) t k t.(root).

Fixpoint insert_descent (f : nat) (t : RBTree) (k : Z) (y x : N)
    : N * N * bool :=
  match f with
  | O => (y, x, false)
  | S f =>
      if ptr_eqb x t.(NIL) then (y, x, false)
      else
        let y := x in
        if comp k (key_of t x) then insert_descent f t k y (left_of t x)
        else if comp (key_of t x) k then insert_descent f t k y (right_of t x)
        else (y, x, true)
  end.

(** [insert(k, v)] *)
Definition insert (t : RBTree) (k v : Z) : RBTree :=
  let '(t, z) := alloc t (new_Node k v RED) in
  let t := set_parent t z t.(NIL) in
  let t := set_right t z t.(NIL) in
  let t := set_left t z t.(NIL) in
  let '(y, x, found) := insert_descent (fuel t) t k t.(NIL) t.(root) in
  if found then
    let t := set_val t x v in
    free t z
  else
    let t := set_parent t z y in
    let t := if ptr_eqb y t.(NIL) then set_root t z
             else if comp (key_of t z) (key_of t y) then set_left t y z
             else set_right t y z in
    insert_fixup t z.

End Epoch.

(* ------------------------------------------------------------------ *)
(** ** lock_based_rb_tree.cpp: the other lookups and the writers *)

Module LockBased.

(** The [while (curr != NIL)] loop of [lookup_simple] and [lookup_hybrid]
    (the two loops are token-for-token identical). *)
Fixpoint search_loop (f : nat) (t : RBTree) (k : Z) (curr : N) : option Z :=
  match f with
  | O => None
  | S f =>
      if ptr_eqb curr t.(NIL) then None
      else if comp k (key_of t curr) then search_loop f t k (left_of t curr)
      else if comp (key_of t curr) k then search_loop f t k (right_of t curr)
      else Some (val_of t curr)
  end.

(** [lookup_simple(k)] (LOOKUP STRATEGY 1, under [writers_mutex]). *)
Definition lookup_simple (t : RBTree) (k : Z) : option Z :=
  search_loop (fuel t) t k t.(root).

(** [lookup_hybrid(k)] (LOOKUP STRATEGY 3, under [global_rw_lock]). *)
Definition lookup_hybrid (t : RBTree) (k : Z) : option Z :=
  search_loop (fuel t) t k t.(root).

(** The search phase of [insert] and [insert_hybrid]: [y] is the parent of
    the insertion point, [x] the cursor.  Returns the final [y], [x] and
    whether [x] holds an equal key. *)
Fixpoint insert_search (f : nat) (t : RBTree) (k : Z) (y x : N) : N * N * bool :=
  match f with
  | O => (y, x, false)
  | S f =>
      if ptr_eqb x t.(NIL) then (y, x, false)
      else
        let y := x in
        if comp k (key_of t x) then insert_search f t k y (left_of t x)
        else if comp (key_of t x) k then insert_search f t k y (right_of t x)
        else (y, x, true)
  end.

(** [insert(k, v)] (under [writers_mutex]), with its empty-tree case. *)
Definition insert (t : RBTree) (k v : Z) : RBTree :=
  let '(t, z) := alloc t (new_Node k v RED) in
  let t := set_parent t z t.(NIL) in
  let t := set_right t z t.(NIL) in
  let t := set_left t z t.(NIL) in
  if ptr_eqb t.(root) t.(NIL) then
    let t := set_root t z in
    set_color t z BLACK
  else
    let '(y, x, found) := insert_search (fuel t) t k t.(NIL) t.(root) in
    if found then
      let t := set_val t x v in
      free t z
    else
      let t := set_parent t z y in
      let t := if comp (key_of t z) (key_of t y) then set_left t y z
               else set_right t y z in
      insert_fixup t z.

(** [insert_hybrid(k, v)] (under [global_rw_lock]): the same statements. *)
Definition insert_hybrid (t : RBTree) (k v : Z) : RBTree :=
  let '(t, z) := alloc t (new_Node k v RED) in
  let t := set_parent t z t.(NIL) in
  let t := set_right t z t.(NIL) in
  let t := set_left t z t.(NIL) in
  if ptr_eqb t.(root) t.(NIL) then
    let t := set_root t z in
    set_color t z BLACK
  else
    let '(y, x, found) := insert_search (fuel t) t k t.(NIL) t.(root) in
    if found then
      let t := set_val t x v in
      free t z
    else
      let t := set_parent t z y in
      let t := if comp (key_of t z) (key_of t y) then set_left t y z
               else set_right t y z in
      insert_fixup t z.

End LockBased.

(* ------------------------------------------------------------------ *)
(** ** Destruction *)




(* ------------------------------------------------------------------ *)
(** ** Sequential use: operation sequences *)

Inductive Op := OpInsert (k v : Z) | OpErase (k : Z) | OpLookup (k : Z).

Inductive Res := RInsert | RErase (b : bool) | RLookup (r : option Z).

(** One public operation on the lock-coupled tree. *)
Definition apply_op (t : RBTree) (o : Op) : RBTree * Res :=
  match o with
  | OpInsert k v => (fst (LockCoupled.insert t k v), RInsert)
  | OpErase k => let '(t', b) := erase t k in (t', RErase b)
  | OpLookup k => (t, RLookup (fst (LockCoupled.lookup t k)))
  end.

(** The same on the coarse-grained tree of race_free_rb_tree.cpp. *)
Definition apply_op_rf (t : RBTree) (o : Op) : RBTree * Res :=
  match o with
  | OpInsert k v => (RaceFree.insert t k v, RInsert)
  | OpErase k => let '(t', b) := erase t k in (t', RErase b)
  | OpLookup k => (t, RLookup (RaceFree.lookup t k))
  end.

(** The same on [simple_rbt::SimpleConcurrentRBTree]. *)
Definition apply_op_ep (t : RBTree) (o : Op) : RBTree * Res :=
  match o with
  | OpInsert k v => (Epoch.insert t k v, RInsert)
  | OpErase k => let '(t', b) := erase t k in (t', RErase b)
  | OpLookup k => (t, RLookup (Epoch.lookup t k))
  end.

(** The trees after each operation of a sequence, and the results. *)
Fixpoint run_with (ap : RBTree -> Op -> RBTree * Res) (t : RBTree) (ops : list Op)
    : list (RBTree * Res) :=
  match ops with
  | [] => []
  | o :: ops => let '(t', r) := ap t o in (t', r) :: run_with ap t' ops
  end.

Definition run_from (t : RBTree) (ops : list Op) : list (RBTree * Res) :=
  run_with apply_op t ops.

Definition final_from (t : RBTree) (ops : list Op) : RBTree :=
  fold_left (fun t o => fst (apply_op t o)) ops t.

(* ------------------------------------------------------------------ *)
(** ** Abstract view of a tree-shaped heap

    [tree] is the shape of the node graph reachable from [root]: every real
    node carries its address, and the leaves [E] stand for the sentinel. *)

Inductive tree :=
| E
| T (c : Color) (l : tree) (p : N) (k v : Z) (r : tree).

(** The address a tree is reached through ([NIL] for a leaf). *)
Definition tptr (nil : N) (t : tree) : N :=
  match t with E => nil | T _ _ p _ _ _ => p end.

Definition tcolor (t : tree) : Color :=
  match t with E => BLACK | T c _ _ _ _ _ => c end.

Fixpoint ptrs (t : tree) : list N :=
  match t with E => [] | T _ l p _ _ r => p :: ptrs l ++ ptrs r end.

(** The in-order sequence of (key, value) pairs. *)
Fixpoint elements (t : tree) : list (Z * Z) :=
  match t with E => [] | T _ l _ k v r => elements l ++ [(k, v)] ++ elements r end.

(** [rep h nil par t]: the heap [h] holds the tree [t], whose root has
    parent link [par], with leaves pointing at [nil]. *)
Fixpoint rep (h : gmap N Node) (nil par : N) (t : tree) : Prop :=
  match t with
  | E => True
  | T c l p k v r =>
      h !! p = Some (mkNode k v c par (tptr nil l) (tptr nil r)) /\
      rep h nil p l /\ rep h nil p r
  end.

(** One step of a path from a node to the root: the hole is the left
    ([FL]) or right ([FR]) child of the node [p]. *)
Inductive frame :=
| FL (c : Color) (p : N) (k v : Z) (r : tree)
| FR (c : Color) (l : tree) (p : N) (k v : Z).

Definition fptr (f : frame) : N := match f with FL _ p _ _ _ | FR _ _ p _ _ => p end.
Definition fcolor (f : frame) : Color := match f with FL c _ _ _ _ | FR c _ _ _ _ => c end.
Definition fsib (f : frame) : tree := match f with FL _ _ _ _ r | FR _ r _ _ _ => r end.

Definition fill (f : frame) (t : tree) : tree :=
  match f with FL c p k v r => T c t p k v r | FR c l p k v => T c l p k v t end.

(** A path, innermost frame first. *)
Fixpoint plug (cx : list frame) (t : tree) : tree :=
  match cx with [] => t | f :: cx => plug cx (fill f t) end.

(** The parent link of the hole. *)
Definition cpar (top : N) (cx : list frame) : N :=
  match cx with [] => top | f :: _ => fptr f end.

Fixpoint cptrs (cx : list frame) : list N :=
  match cx with [] => [] | f :: cx => fptr f :: ptrs (fsib f) ++ cptrs cx end.

Definition frame_node (nil : N) (f : frame) (par hole : N) : Node :=
  match f with
  | FL c _ k v r => mkNode k v c par hole (tptr nil r)
  | FR c l _ k v => mkNode k v c par (tptr nil l) hole
  end.

(** [crep h nil top cx hole]: the heap holds the path [cx] whose hole is
    reached through the address [hole]. *)
Fixpoint crep (h : gmap N Node) (nil top : N) (cx : list frame) (hole : N) : Prop :=
  match cx with
  | [] => True
  | f :: cx =>
      h !! fptr f = Some (frame_node nil f (cpar top cx) hole) /\
      rep h nil (fptr f) (fsib f) /\ crep h nil top cx (fptr f)
  end.

(** The sentinel as the constructor built it; only its [parent] link is
    free. *)
Definition nil_node (par : N) : Node := mkNode 0 0 BLACK par nullptr nullptr.

(** A tree object whose heap is exactly the sentinel and the nodes of the
    tree [tr]. *)
Record good (s : RBTree) (tr : tree) : Prop := {
  good_rep : rep s.(heap) s.(NIL) s.(NIL) tr;
  good_root : s.(root) = tptr s.(NIL) tr;
  good_nodup : NoDup (s.(NIL) :: ptrs tr);
  good_nil : exists par, s.(heap) !! s.(NIL) = Some (nil_node par);
  good_dom : forall q, is_Some (s.(heap) !! q) <-> q = s.(NIL) \/ q ∈ ptrs tr;
  good_brk : forall q, is_Some (s.(heap) !! q) -> (0 < q < s.(brk))%N
}.

(** Red-black shape with black height [n] (the sentinel is BLACK and
    counts 0).  The root may be RED. *)
Inductive is_rb : tree -> nat -> Prop :=
| rb_E : is_rb E 0
| rb_R l p k v r n :
    is_rb l n -> is_rb r n -> tcolor l = BLACK -> tcolor r = BLACK ->
    is_rb (T RED l p k v r) n
| rb_B l p k v r n :
    is_rb l n -> is_rb r n -> is_rb (T BLACK l p k v r) (S n).

Definition bump (c : Color) : nat := match c with BLACK => 1 | RED => 0 end.

(** [ctx_ok cx n c]: the path [cx] accepts a red-black subtree of black
    height [n] and root colour [c] in its hole. *)
Fixpoint ctx_ok (cx : list frame) (n : nat) (c : Color) : Prop :=
  match cx with
  | [] => True
  | f :: cx =>
      is_rb (fsib f) n /\
      (fcolor f = RED -> c = BLACK /\ tcolor (fsib f) = BLACK) /\
      ctx_ok cx (n + bump (fcolor f)) (fcolor f)
  end.

(** The same, without the colour condition between the hole and its
    parent (the one place a fix-up loop may break rule 4). *)
Definition ctx_ok_top (cx : list frame) (n : nat) : Prop :=
  match cx with
  | [] => True
  | f :: cx =>
      is_rb (fsib f) n /\
      (fcolor f = RED -> tcolor (fsib f) = BLACK) /\
      ctx_ok cx (n + bump (fcolor f)) (fcolor f)
  end.

(** Keys in strictly increasing order. *)
Definition keys_sorted (t : tree) : Prop :=
  StronglySorted (fun a b : Z * Z => (a.1 < b.1)%Z) (elements t).

(** The invariant of every tree object reachable through the public
    operations: the heap holds a red-black tree with BLACK root, and its
    keys are ordered. *)
Definition rb_inv (s : RBTree) : Prop :=
  exists tr n, good s tr /\ is_rb tr n /\ tcolor tr = BLACK /\ keys_sorted tr.

(** What [validate_rec] checks, read on the abstract tree: no RED node has a
    RED child ... *)
Fixpoint no_red_red (t : tree) : Prop :=
  match t with
  | E => True
  | T c l _ _ _ r =>
      (c = RED -> tcolor l = BLACK /\ tcolor r = BLACK) /\ no_red_red l /\ no_red_red r
  end.

(** ... every path from a node to a leaf has the same number of BLACK
    nodes, [lbh t] (counted along the leftmost path) ... *)
Fixpoint lbh (t : tree) : nat :=
  match t with E => 0 | T c l _ _ _ _ => lbh l + bump c end.

Fixpoint black_balanced (t : tree) : Prop :=
  match t with
  | E => True
  | T _ l _ _ _ r => lbh l = lbh r /\ black_balanced l /\ black_balanced r
  end.

(** ... and no node's key is below its left child's key or above its right
    child's key. *)
Definition tkey_le (k : Z) (t : tree) : Prop :=
  match t with E => True | T _ _ _ k' _ _ => (k <= k')%Z end.
Definition tkey_ge (k : Z) (t : tree) : Prop :=
  match t with E => True | T _ _ _ k' _ _ => (k' <= k)%Z end.

Fixpoint locally_ordered (t : tree) : Prop :=
  match t with
  | E => True
  | T _ l _ k _ r => tkey_ge k l /\ tkey_le k r /\ locally_ordered l /\ locally_ordered r
  end.

(* ------------------------------------------------------------------ *)
(** ** Reading a lock trace *)

(** What the thread holds on one mutex. *)
Inductive Mode := Unlocked | SharedMode | ExclMode.

(** The thread's hold on the mutex [m] after the event [e]. *)
Definition ev_step (m : N) (md : Mode) (e : LockEv) : Mode :=
  match e with
  | LockShared m' => if N.eqb m m' then SharedMode else md
  | LockExcl m' => if N.eqb m m' then ExclMode else md
  | UnlockShared m' | UnlockExcl m' => if N.eqb m m' then Unlocked else md
  end.

(** The successive holds on [m] along a trace, starting from [md]. *)
Fixpoint modes (m : N) (md : Mode) (tr : list LockEv) : list Mode :=
  match tr with
  | [] => []
  | e :: tr => let md' := ev_step m md e in md' :: modes m md' tr
  end.

(** A [std::shared_mutex] shared by several threads: free, held in shared
    mode by [n] threads, or held exclusively by the thread [owner]. *)
Inductive MState := MFree | MShared (n : nat) | MExcl (owner : nat).

(** The operation [e] of thread [th], read on the mutex [m]: [None] when it
    cannot proceed ([lock()] or [lock_shared()] waits, or the thread
    releases a mode nobody holds); operations on other mutexes leave [m]
    as it is. *)
Definition mutex_step (m : N) (s : MState) (th : nat) (e : LockEv) : option MState :=
  match e with
  | LockShared m' =>
      if N.eqb m m' then
        match s with MFree => Some (MShared 1) | MShared n => Some (MShared (S n)) | MExcl _ => None end
      else Some s
  | UnlockShared m' =>
      if N.eqb m m' then
        match s with MShared 1 => Some MFree | MShared (S (S n)) => Some (MShared (S n)) | _ => None end
      else Some s
  | LockExcl m' =>
      if N.eqb m m' then match s with MFree => Some (MExcl th) | _ => None end
      else Some s
  | UnlockExcl m' =>
      if N.eqb m m' then
        match s with MExcl o => if Nat.eqb o th then Some MFree else None | _ => None end
      else Some s
  end.

(** A schedule of operations of several threads, run on the mutex [m]. *)
Fixpoint mutex_run (m : N) (s : MState) (sched : list (nat * LockEv)) : option MState :=
  match sched with
  | [] => Some s
  | (th, e) :: sched =>
      match mutex_step m s th e with Some s' => mutex_run m s' sched | None => None end
  end.

(** The locks held by the thread, as a multiset of mutexes. *)
Fixpoint remove_one (m : N) (l : list N) : list N :=
  match l with
  | [] => []
  | x :: l => if N.eqb x m then l else x :: remove_one m l
  end.

Definition held_step (h : list N) (e : LockEv) : list N :=
  match e with
  | LockShared m | LockExcl m => m :: h
  | UnlockShared m | UnlockExcl m => remove_one m h
  end.

(** The locks held after the events [tr], starting with [h]. *)
Definition held_after (h : list N) (tr : list LockEv) : list N :=
  fold_left held_step tr h.

(* ------------------------------------------------------------------ *)
(** ** Two tree objects that are not red-black trees *)

(** A single RED node (address 2, key 5) under the sentinel (address 1). *)
Definition red_root_tree : RBTree :=
  mkTree 2 1 (<[2%N := mkNode 5 0 RED 1 1 1]> (<[1%N := nil_node 0]> ∅)) 3.

(** BLACK 10 with BLACK children 5 and 15, and RED 12 as the right child of
    5: every parent/child pair is ordered, the in-order sequence
    5, 12, 10, 15 is not. *)
Definition unordered_tree : RBTree :=
  mkTree 2 1
    (<[5%N := mkNode 12 0 RED 3 1 1]>
     (<[4%N := mkNode 15 0 BLACK 2 1 1]>
      (<[3%N := mkNode 5 0 BLACK 2 1 5]>
       (<[2%N := mkNode 10 0 BLACK 1 3 4]>
        (<[1%N := nil_node 0]> ∅))))) 6.

(* ------------------------------------------------------------------ *)
(** ** Paths, search directions and in-order pieces, used by the proofs *)

Definition moves (s s' : RBTree) (tr tr' : tree) : Prop :=
  rep s'.(heap) s.(NIL) s.(NIL) tr' /\ s'.(root) = tptr s.(NIL) tr' /\
  s'.(NIL) = s.(NIL) /\ s'.(brk) = s.(brk) /\
  (forall q, q ∉ ptrs tr -> s'.(heap) !! q = s.(heap) !! q).

Definition frecolor (f : frame) (c : Color) : frame :=
  match f with FL _ p k v r => FL c p k v r | FR _ l p k v => FR c l p k v end.

Definition frame_dir_ok (k : Z) (f : frame) : Prop :=
  match f with FL _ _ kf _ _ => (k < kf)%Z | FR _ _ _ kf _ => (kf < k)%Z end.

Fixpoint lctx (cx : list frame) : list (Z * Z) :=
  match cx with
  | [] => []
  | FL _ _ _ _ _ :: cx => lctx cx
  | FR _ l _ k v :: cx => lctx cx ++ elements l ++ [(k, v)]
  end.

Fixpoint rctx (cx : list frame) : list (Z * Z) :=
  match cx with
  | [] => []
  | FL _ _ k v r :: cx => [(k, v)] ++ elements r ++ rctx cx
  | FR _ _ _ _ _ :: cx => rctx cx
  end.

Definition ltk (a b : Z * Z) : Prop := (a.1 < b.1)%Z.

Fixpoint find_key (k : Z) (l : list (Z * Z)) : option Z :=
  match l with
  | [] => None
  | (k', v) :: l => if Z.eqb k k' then Some v else find_key k l
  end.

Definition emoves (s s' : RBTree) (tr : tree) (cx : list frame) (tx : tree) : Prop :=
  rep s'.(heap) s.(NIL) s.(NIL) (plug cx tx) /\ s'.(root) = tptr s.(NIL) (plug cx tx) /\
  s'.(NIL) = s.(NIL) /\ s'.(brk) = s.(brk) /\
  (exists np, s'.(heap) !! s.(NIL) = Some (nil_node np) /\ (tx = E -> np = cpar s.(NIL) cx)) /\
  (forall q, q ∉ ptrs tr -> q <> s.(NIL) -> s'.(heap) !! q = s.(heap) !! q).

Definition is_FL (f : frame) : Prop := match f with FL _ _ _ _ _ => True | FR _ _ _ _ _ => False end.


(** A decision procedure for [good] on concrete tree objects. *)
Definition node_eqb (a b : Node) : bool :=
  Z.eqb a.(key) b.(key) && Z.eqb a.(val) b.(val) && color_eqb a.(color) b.(color) &&
  N.eqb a.(parent) b.(parent) && N.eqb a.(left) b.(left) && N.eqb a.(right) b.(right).

Fixpoint rep_check (h : gmap N Node) (nil par : N) (t : tree) : bool :=
  match t with
  | E => true
  | T c l p k v r =>
      match h !! p with
      | Some n => node_eqb n (mkNode k v c par (tptr nil l) (tptr nil r))
      | None => false
      end && rep_check h nil p l && rep_check h nil p r
  end.

Definition good_check (s : RBTree) (tr : tree) : bool :=
  rep_check s.(heap) s.(NIL) s.(NIL) tr &&
  N.eqb s.(root) (tptr s.(NIL) tr) &&
  bool_decide (NoDup (s.(NIL) :: ptrs tr)) &&
  match s.(heap) !! s.(NIL) with Some n => node_eqb n (nil_node n.(parent)) | None => false end &&
  forallb (fun q => match s.(heap) !! q with Some _ => true | None => false end) (ptrs tr) &&
  forallb (fun kv => bool_decide (kv.1 ∈ s.(NIL) :: ptrs tr) && N.ltb 0 kv.1 && N.ltb kv.1 s.(brk))
    (map_to_list s.(heap)).

(** Tree objects built by the public operations, for examples. *)
Definition tree_1_2 : RBTree :=
  fst (LockCoupled.insert (fst (LockCoupled.insert empty_tree 1 10)) 2 20).

Definition tree_2_1 : RBTree :=
  fst (LockCoupled.insert (fst (LockCoupled.insert empty_tree 2 20)) 1 10).

(** The state [insert(3, 30)] reaches on [tree_1_2] just before
    [insert_fixup(z)]: the new RED node 4 linked as the right child of the
    RED node 3. *)
Definition tree_1_2_3_linked : RBTree :=
  let '(t, z) := alloc tree_1_2 (new_Node 3 30 RED) in
  let t := set_parent t z t.(NIL) in
  let t := set_right t z t.(NIL) in
  let t := set_left t z t.(NIL) in
  let t := set_parent t z 3 in
  set_right t 3 z.

(** The abstract tree [tree_1_2] holds. *)
Definition tr_1_2 : tree := T BLACK E 2 1 10 (T RED E 3 2 20 E).

(* ------------------------------------------------------------------ *)
(** * Lock traces *)

(** C4: inserting 7 into the tree holding only 5 (node 2, sentinel 1):
    the descent ends on the sentinel, [lock_x.upgrade()] takes the
    sentinel's mutex exclusively, and the new node 3 is linked as the right
    child of node 2, whose mutex the writer no longer holds at that point. *)
Theorem insert_upgrades_sentinel :
  let t1 := fst (LockCoupled.insert empty_tree 5 50) in
  let '(t2, tr) := LockCoupled.insert t1 7 70 in
  t1.(root) = 2%N /\ t1.(NIL) = 1%N /\ right_of t2 2 = 3%N /\
  tr = [LockShared 2; LockShared 1; UnlockShared 2; UnlockShared 1;
        LockExcl 1; UnlockExcl 1] /\
  modes 2 Unlocked tr = [SharedMode; SharedMode; Unlocked; Unlocked; Unlocked; Unlocked].
Proof. vm_compute. repeat split. Qed.

(** C5 (counterexample): [validate()] returns true on a tree whose root is
    RED, and on a tree whose in-order key sequence is not ordered (12 sits
    in the left subtree of 10). *)
Lemma validate_accepts_non_rb :
  (validate red_root_tree = true /\ color_of red_root_tree red_root_tree.(root) = RED) /\
  (validate unordered_tree = true /\
   let r := unordered_tree.(root) in
   (key_of unordered_tree r < key_of unordered_tree (right_of unordered_tree (left_of unordered_tree r)))%Z).
Proof. vm_compute. repeat split. Qed.

Lemma held_after_app h a b : held_after h (a ++ b) = held_after (held_after h a) b.
Proof. unfold held_after. apply fold_left_app. Qed.

Lemma prefixes_app (P : list N -> Prop) h a b :
  (forall j, P (held_after h (firstn j a))) ->
  (forall j, P (held_after (held_after h a) (firstn j b))) ->
  forall j, P (held_after h (firstn j (a ++ b))).
Proof.
  intros Ha Hb j. rewrite firstn_app, held_after_app.
  destruct (Nat.le_gt_cases j (length a)) as [Hle|Hgt].
  - replace (j - length a) with 0 by lia. simpl. apply Ha.
  - rewrite firstn_all2 by lia. apply Hb.
Qed.

Lemma held_couple (x y : N) : held_after [x] [LockShared y; UnlockShared x] = [y].
Proof. unfold held_after; simpl. rewrite N.eqb_refl. destruct (N.eqb y x) eqn:E; [apply N.eqb_eq in E; subst|]; reflexivity. Qed.

Lemma held_couple_prefixes (x y : N) j :
  length (held_after [x] (firstn j [LockShared y; UnlockShared x])) <= 2.
Proof.
  destruct j as [|[|[|j]]]; unfold held_after; simpl; try lia.
  all: rewrite ?N.eqb_refl; destruct (N.eqb y x); simpl; lia.
Qed.

Lemma held_release_prefixes (x : N) j :
  length (held_after [x] (firstn j [UnlockShared x])) <= 2.
Proof. destruct j as [|[|j]]; unfold held_after; simpl; rewrite ?N.eqb_refl; simpl; lia. Qed.

Lemma lookup_loop_held f t k n j :
  length (held_after [n] (firstn j (snd (LockCoupled.lookup_loop f t k n)))) <= 2.
Proof.
  revert n j; induction f as [|f IH]; intros n j; simpl.
  - destruct j; simpl; lia.
  - destruct (ptr_eqb n (NIL t)).
    + apply held_release_prefixes.
    + destruct (comp k (key_of t n)); [|destruct (comp (key_of t n) k)].
      1,2: destruct (LockCoupled.lookup_loop f t k _) as [r tr] eqn:Hl; simpl;
        change (LockShared ?a :: UnlockShared ?b :: tr) with ([LockShared a; UnlockShared b] ++ tr);
        revert j; apply (prefixes_app (fun l => length l <= 2)); [apply held_couple_prefixes|];
        rewrite held_couple; intros j; match type of Hl with LockCoupled.lookup_loop _ _ _ ?c = _ => specialize (IH c j) end; rewrite Hl in IH; exact IH.
      apply held_release_prefixes.
Qed.

Lemma insert_descent_held f t k y x :
  let '(y', x', found, tr) := LockCoupled.insert_descent f t k y x in
  held_after [x] tr = [x'] /\ forall j, length (held_after [x] (firstn j tr)) <= 2.
Proof.
  revert y x; induction f as [|f IH]; intros y x; simpl.
  - split; [reflexivity|]. intros [|j]; simpl; lia.
  - destruct (ptr_eqb x (NIL t)).
    { split; [reflexivity|]. intros [|j]; simpl; lia. }
    destruct (comp k (key_of t x)); [|destruct (comp (key_of t x) k)].
    1,2: match goal with |- context [LockCoupled.insert_descent ?f' ?t' ?k' ?y0 ?c] =>
           specialize (IH y0 c); destruct (LockCoupled.insert_descent f' t' k' y0 c) as [[[y' x'] found] tr] eqn:Hd end;
      destruct IH as [IH1 IH2];
      change (LockShared ?a :: UnlockShared ?b :: tr) with ([LockShared a; UnlockShared b] ++ tr);
      split; [rewrite held_after_app, held_couple; exact IH1|];
      apply (prefixes_app (fun l => length l <= 2)); [apply held_couple_prefixes|]; rewrite held_couple; exact IH2.
    split; [reflexivity|]. intros [|j]; simpl; lia.
Qed.

Lemma held_after_cons2 x y l :
  held_after [x] (LockShared y :: UnlockShared x :: l) = held_after [y] l.
Proof. change (LockShared y :: UnlockShared x :: l) with ([LockShared y; UnlockShared x] ++ l).
  rewrite held_after_app, held_couple; reflexivity. Qed.

Lemma lookup_loop_coupled f t k n j :
  j < length (snd (LockCoupled.lookup_loop f t k n)) ->
  0 < length (held_after [n] (firstn j (snd (LockCoupled.lookup_loop f t k n)))).
Proof.
  revert n j; induction f as [|f IH]; intros n j; simpl.
  - lia.
  - destruct (ptr_eqb n (NIL t)); [|destruct (comp k (key_of t n)); [|destruct (comp (key_of t n) k)]].
    1,4: simpl; intros; destruct j; simpl; lia.
    all: match goal with |- context [LockCoupled.lookup_loop ?f' ?t' ?k' ?c] =>
           specialize (IH c); destruct (LockCoupled.lookup_loop f' t' k' c) as [r tr] eqn:Hl end;
      cbn [snd]; intros Hj; destruct j as [|[|j]]; try (unfold held_after; simpl; lia);
      cbn [firstn]; rewrite held_after_cons2; specialize (IH j); apply IH; simpl in *; lia.
Qed.

Lemma insert_descent_coupled f t k y x :
  let '(y', x', found, tr) := LockCoupled.insert_descent f t k y x in
  forall j, j <= length tr -> 0 < length (held_after [x] (firstn j tr)).
Proof.
  revert y x; induction f as [|f IH]; intros y x; simpl.
  - intros j Hj. destruct j; simpl in *; [unfold held_after; simpl; lia|lia].
  - destruct (ptr_eqb x (NIL t)); [|destruct (comp k (key_of t x)); [|destruct (comp (key_of t x) k)]].
    1,4: simpl; intros j Hj; destruct j; simpl in *; [unfold held_after; simpl; lia|lia].
    all: match goal with |- context [LockCoupled.insert_descent ?f' ?t' ?k' ?y0 ?c] =>
           specialize (IH y0 c); destruct (LockCoupled.insert_descent f' t' k' y0 c) as [[[y' x'] found] tr] eqn:Hd end;
      cbn [snd]; intros j Hj; destruct j as [|[|j]]; try (unfold held_after; simpl; lia);
      cbn [firstn]; rewrite held_after_cons2; apply IH; simpl in *; lia.
Qed.

Lemma insert_trace_shape t k v :
  exists x0 tr x,
    snd (LockCoupled.insert t k v) = LockShared x0 :: tr ++ LockCoupled.upgrade x ++ [UnlockExcl x] /\
    held_after [x0] tr = [x] /\
    (forall j, length (held_after [x0] (firstn j tr)) <= 2) /\
    (forall j, j <= length tr -> 0 < length (held_after [x0] (firstn j tr))).
Proof.
  unfold LockCoupled.insert. destruct (alloc t _) as [t1 z]. cbv zeta.
  match goal with |- context [LockCoupled.insert_descent ?f ?t' ?k' ?y ?x] =>
    pose proof (insert_descent_held f t' k' y x) as H1;
    pose proof (insert_descent_coupled f t' k' y x) as H2;
    destruct (LockCoupled.insert_descent f t' k' y x) as [[[y' x'] found] tr] end.
  destruct H1 as [H1 H3].
  destruct found; cbn [snd]; do 3 eexists; (split; [reflexivity|]); eauto.
Qed.

(** C3 (defect): the [UpgradeLock] [lock_x] of [insert] is upgraded with
    [shared.unlock(); unique.lock();].  On every run of [insert], between
    the two statements the writer holds no node lock at all (the cursor's
    shared lock was its only one), and another thread may take the cursor's
    mutex exclusively in that window, after which the writer's
    [unique.lock()] waits. *)
Theorem upgrade_unlocks_fully (t : RBTree) (k v : Z) :
  exists pre x u1 u2,
    snd (LockCoupled.insert t k v) = pre ++ LockCoupled.upgrade x ++ [UnlockExcl x] /\
    LockCoupled.upgrade x = [u1; u2] /\
    held_after [] pre = [x] /\
    held_after [] (pre ++ [u1]) = [] /\
    mutex_run x (MShared 1) [(0, u1); (1, LockExcl x)] = Some (MExcl 1) /\
    mutex_step x (MExcl 1) 0 u2 = None.
Proof.
  destruct (insert_trace_shape t k v) as (x0 & tr & x & Heq & H1 & _ & _).
  exists (LockShared x0 :: tr), x, (UnlockShared x), (LockExcl x).
  split; [exact Heq|]. split; [reflexivity|].
  assert (H0 : held_after [] (LockShared x0 :: tr) = [x]) by exact H1.
  split; [exact H0|].
  split.
  - unfold held_after in *. rewrite fold_left_app, H0. cbn. by rewrite N.eqb_refl.
  - cbn. rewrite N.eqb_refl. split; reflexivity.
Qed.

(** C7: along the lock events of [lookup] and of [insert] the thread never
    holds more than two node locks; in [lookup], and in the descent of
    [insert] (every event before the final upgrade), it holds at least one
    lock between the first and the last event: the child is locked before
    the current node is released. *)
Theorem lock_coupling_two_locks (t : RBTree) (k v : Z) :
  (forall j, length (held_after [] (firstn j (snd (LockCoupled.lookup t k)))) <= 2 /\
             (0 < j < length (snd (LockCoupled.lookup t k)) ->
              held_after [] (firstn j (snd (LockCoupled.lookup t k))) <> [])) /\
  (forall j, length (held_after [] (firstn j (snd (LockCoupled.insert t k v)))) <= 2) /\
  (exists d x, snd (LockCoupled.insert t k v) = d ++ LockCoupled.upgrade x ++ [UnlockExcl x] /\
     forall j, 0 < j <= length d -> held_after [] (firstn j d) <> []).
Proof.
  split; [|split].
  - intros j. unfold LockCoupled.lookup.
    pose proof (lookup_loop_held (fuel t) t k (root t)) as H1.
    pose proof (lookup_loop_coupled (fuel t) t k (root t)) as H2.
    destruct (LockCoupled.lookup_loop (fuel t) t k (root t)) as [r tr]; cbn [snd] in *.
    destruct j as [|j]; [unfold held_after; simpl; split; lia|].
    cbn [firstn]. change (held_after [] (LockShared (root t) :: firstn j tr))
      with (held_after [root t] (firstn j tr)).
    split; [apply H1|]. intros Hj Hnil. simpl in Hj. specialize (H2 j ltac:(lia)).
    rewrite Hnil in H2; simpl in H2; lia.
  - destruct (insert_trace_shape t k v) as (x0 & tr & x & Heq & H1 & H2 & H3).
    rewrite Heq. intros j. destruct j as [|j]; [unfold held_after; simpl; lia|].
    cbn [firstn]. change (held_after [] (LockShared x0 :: firstn j ?l))
      with (held_after [x0] (firstn j l)).
    revert j. apply (prefixes_app (fun l => length l <= 2)); [exact H2|]. rewrite H1.
    intros [|[|[|[|j]]]]; unfold held_after; simpl; rewrite ?N.eqb_refl; simpl; lia.
  - destruct (insert_trace_shape t k v) as (x0 & tr & x & Heq & H1 & H2 & H3).
    exists (LockShared x0 :: tr), x. split; [rewrite Heq; reflexivity|].
    intros [|j] Hj; [lia|]. cbn [firstn]. change (held_after [] (LockShared x0 :: firstn j ?l))
      with (held_after [x0] (firstn j l)).
    intros Hnil. simpl in Hj. specialize (H3 j ltac:(lia)). rewrite Hnil in H3; simpl in H3; lia.
Qed.

Lemma unique_sorted (l : list N) :
  StronglySorted N.le l ->
  StronglySorted N.lt (DeadlockSafe.unique l) /\ forall p, In p (DeadlockSafe.unique l) <-> In p l.
Proof.
  induction l as [|x l IH]; intros Hs; [split; [constructor|tauto]|].
  destruct l as [|y l'].
  - simpl. split; [repeat constructor|tauto].
  - apply StronglySorted_inv in Hs as [Hs Hx]. destruct (IH Hs) as [IH1 IH2].
    apply StronglySorted_inv in Hs as [Hs' Hy].
    rewrite List.Forall_forall in Hx, Hy.
    change (DeadlockSafe.unique (x :: y :: l')) with
      (if N.eqb x y then DeadlockSafe.unique (y :: l') else x :: DeadlockSafe.unique (y :: l')).
    destruct (N.eqb_spec x y) as [->|Hne].
    + split; [exact IH1|]. intros p. rewrite IH2. simpl. tauto.
    + split.
      * constructor; [exact IH1|]. apply List.Forall_forall. intros p Hp. apply IH2 in Hp.
        destruct Hp as [<-|Hp]; [pose proof (Hx y (or_introl eq_refl)); lia|].
        pose proof (Hx y (or_introl eq_refl)). pose proof (Hy p Hp). lia.
      * intros p. specialize (IH2 p). simpl in *. tauto.
Qed.

Lemma guard_nodes_pair (a b : N) :
  DeadlockSafe.guard_nodes [a; b] =
  if N.ltb a b then [a; b] else if N.eqb a b then [a] else [b; a].
Proof.
  unfold DeadlockSafe.guard_nodes, DeadlockSafe.sort_by_lock_id, DeadlockSafe.lock_id.
  unfold merge_sort; simpl. repeat case_decide; simpl.
  all: destruct (N.ltb_spec a b), (N.eqb_spec a b), (N.eqb_spec b a); subst; simpl; try lia; try reflexivity.
  all: try (rewrite N.eqb_refl; reflexivity).
Qed.

(** C8: [OrderedLockGuard] locks the distinct nodes of its list, each once,
    in strictly increasing [lock_id]; a step of the deadlock-safe lookup
    locks the child then unlocks the parent when the parent's id is
    smaller, and otherwise acquires the guard (the child before the parent,
    or the shared node once) before releasing the parent's own lock. *)
Theorem deadlock_safe_lock_order :
  (forall nodes : list N,
     StronglySorted (fun a b => (DeadlockSafe.lock_id a < DeadlockSafe.lock_id b)%N)
       (DeadlockSafe.guard_nodes nodes) /\
     (forall p, In p (DeadlockSafe.guard_nodes nodes) <-> In p nodes)) /\
  (forall curr next : N,
     ((DeadlockSafe.lock_id curr < DeadlockSafe.lock_id next)%N ->
      DeadlockSafe.step curr next = [LockShared next; UnlockShared curr]) /\
     (~ (DeadlockSafe.lock_id curr < DeadlockSafe.lock_id next)%N ->
      (exists rest, DeadlockSafe.step curr next =
         map LockShared (DeadlockSafe.guard_nodes [curr; next]) ++ UnlockShared curr :: rest) /\
      DeadlockSafe.guard_nodes [curr; next] = if N.eqb curr next then [curr] else [next; curr])).
Proof.
  split.
  - intros nodes. unfold DeadlockSafe.guard_nodes, DeadlockSafe.sort_by_lock_id, DeadlockSafe.lock_id.
    assert (HT : Transitive (fun a b : N => (a <= b)%N)) by (intros ???; lia).
    assert (HTo : Total (fun a b : N => (a <= b)%N)) by (intros a b; lia).
    pose proof (@StronglySorted_merge_sort N (fun a b : N => (a <= b)%N) _ HT HTo nodes) as Hs.
    pose proof (merge_sort_Permutation (fun a b : N => (a <= b)%N) nodes) as Hp.
    destruct (unique_sorted _ Hs) as [H1 H2]. split; [exact H1|].
    intros p. rewrite H2. split; apply Permutation_in; [|symmetry]; exact Hp.
  - intros curr next. unfold DeadlockSafe.step, DeadlockSafe.guard_acquire,
      DeadlockSafe.guard_release, DeadlockSafe.lock_id. rewrite guard_nodes_pair.
    split; intros H.
    + apply N.ltb_lt in H. rewrite H. reflexivity.
    + apply N.ltb_nlt in H. rewrite H. split; [eexists; reflexivity|reflexivity].
Qed.

Lemma lookup_loop_rf f t k n :
  fst (LockCoupled.lookup_loop f t k n) = RaceFree.lookup_loop f t k n.
Proof.
  revert n; induction f as [|f IH]; intros n; simpl; [reflexivity|].
  destruct (ptr_eqb n (NIL t)); [reflexivity|].
  destruct (comp k (key_of t n)); [|destruct (comp (key_of t n) k)]; try reflexivity.
  all: rewrite <- IH; destruct (LockCoupled.lookup_loop f t k _); reflexivity.
Qed.

Lemma lookup_loop_ep f t k n :
  Epoch.lookup_loop f t k n = RaceFree.lookup_loop f t k n.
Proof.
  revert n; induction f as [|f IH]; intros n; simpl; [reflexivity|].
  destruct (ptr_eqb n (NIL t)); [reflexivity|].
  destruct (comp k (key_of t n)); [|destruct (comp (key_of t n) k)]; auto.
Qed.

Lemma insert_descent_rf f t k y x :
  (let '(y', x', found, _) := LockCoupled.insert_descent f t k y x in (y', x', found)) =
  RaceFree.insert_descent f t k y x.
Proof.
  revert y x; induction f as [|f IH]; intros y x; simpl; [reflexivity|].
  destruct (ptr_eqb x (NIL t)); [reflexivity|].
  destruct (comp k (key_of t x)); [|destruct (comp (key_of t x) k)]; try reflexivity.
  all: rewrite <- IH; destruct (LockCoupled.insert_descent f t k x _) as [[[? ?] ?] ?]; reflexivity.
Qed.

Lemma insert_descent_ep f t k y x :
  Epoch.insert_descent f t k y x = RaceFree.insert_descent f t k y x.
Proof.
  revert y x; induction f as [|f IH]; intros y x; simpl; [reflexivity|].
  destruct (ptr_eqb x (NIL t)); [reflexivity|].
  destruct (comp k (key_of t x)); [|destruct (comp (key_of t x) k)]; auto.
Qed.

Lemma insert_rf t k v : fst (LockCoupled.insert t k v) = RaceFree.insert t k v.
Proof.
  unfold LockCoupled.insert, RaceFree.insert. destruct (alloc t _) as [t1 z]. cbv zeta.
  rewrite <- insert_descent_rf.
  destruct (LockCoupled.insert_descent _ _ _ _ _) as [[[y x] found] tr].
  destruct found; reflexivity.
Qed.

Lemma insert_ep t k v : Epoch.insert t k v = RaceFree.insert t k v.
Proof.
  unfold Epoch.insert, RaceFree.insert. destruct (alloc t _) as [t1 z]. cbv zeta.
  rewrite insert_descent_ep. reflexivity.
Qed.

Lemma lookup_rf t k : RaceFree.lookup t k = fst (LockCoupled.lookup t k).
Proof.
  unfold RaceFree.lookup, LockCoupled.lookup. rewrite <- lookup_loop_rf.
  destruct (LockCoupled.lookup_loop _ _ _ _); reflexivity.
Qed.

Lemma lookup_ep t k : Epoch.lookup t k = RaceFree.lookup t k.
Proof. unfold Epoch.lookup, RaceFree.lookup. apply lookup_loop_ep. Qed.

Lemma apply_op_variants t o : apply_op_rf t o = apply_op t o /\ apply_op_ep t o = apply_op t o.
Proof.
  destruct o as [k v|k|k]; unfold apply_op, apply_op_rf, apply_op_ep.
  - rewrite insert_rf. split; [reflexivity|]. transitivity (RaceFree.insert t k v, RInsert); [f_equal; apply insert_ep|reflexivity].
  - split; reflexivity.
  - split; [|transitivity (t, RLookup (RaceFree.lookup t k)); [do 2 f_equal; apply lookup_ep|]]; rewrite lookup_rf; reflexivity.
Qed.

(** C9: from the same tree object, the lock-coupled tree, the
    coarse-grained tree and the epoch-named tree produce the same trees and
    the same results along every operation sequence. *)
Theorem variants_agree (t : RBTree) (ops : list Op) :
  run_with apply_op_rf t ops = run_from t ops /\ run_with apply_op_ep t ops = run_from t ops.
Proof.
  unfold run_from. revert t; induction ops as [|o ops IH]; intros t; [split; reflexivity|].
  simpl. destruct (apply_op_variants t o) as [H1 H2]. rewrite H1, H2.
  destruct (apply_op t o) as [t' r]. destruct (IH t') as [IH1 IH2]. rewrite IH1, IH2. split; reflexivity.
Qed.

(* ------------------------------------------------------------------ *)
(** * Reading the heap, and [validate] *)

Lemma deref_lookup s p n : s.(heap) !! p = Some n -> deref s p = n.
Proof. unfold deref. intros ->. reflexivity. Qed.

Lemma ptr_eqb_refl p : ptr_eqb p p = true.
Proof. apply N.eqb_refl. Qed.

Lemma ptr_eqb_ne p q : p <> q -> ptr_eqb p q = false.
Proof. apply N.eqb_neq. Qed.

Section Read.
Context (s : RBTree) (q : N) (Hnil : s.(heap) !! s.(NIL) = Some (nil_node q)).

Lemma color_of_tptr par t :
  rep s.(heap) s.(NIL) par t -> color_of s (tptr s.(NIL) t) = tcolor t.
Proof.
  destruct t as [|c l p k v r]; simpl.
  - unfold color_of. rewrite (deref_lookup _ _ _ Hnil). reflexivity.
  - intros [H _]. unfold color_of. rewrite (deref_lookup _ _ _ H). reflexivity.
Qed.

Lemma left_guard par k t :
  rep s.(heap) s.(NIL) par t -> s.(NIL) ∉ ptrs t ->
  ((negb (ptr_eqb (tptr s.(NIL) t) s.(NIL)) && comp k (key_of s (tptr s.(NIL) t))) = false
   <-> tkey_ge k t).
Proof.
  destruct t as [|c l p k' v r]; simpl.
  - rewrite ptr_eqb_refl. simpl. tauto.
  - intros [H _] Hn. rewrite ptr_eqb_ne by (intros ->; apply Hn; left).
    unfold key_of, comp. rewrite (deref_lookup _ _ _ H). simpl.
    rewrite Z.ltb_ge. tauto.
Qed.

Lemma right_guard par k t :
  rep s.(heap) s.(NIL) par t -> s.(NIL) ∉ ptrs t ->
  ((negb (ptr_eqb (tptr s.(NIL) t) s.(NIL)) && comp (key_of s (tptr s.(NIL) t)) k) = false
   <-> tkey_le k t).
Proof.
  destruct t as [|c l p k' v r]; simpl.
  - rewrite ptr_eqb_refl. simpl. tauto.
  - intros [H _] Hn. rewrite ptr_eqb_ne by (intros ->; apply Hn; left).
    unfold key_of, comp. rewrite (deref_lookup _ _ _ H). simpl.
    rewrite Z.ltb_ge. tauto.
Qed.

Lemma validate_rec_spec t : forall f par b tg,
  rep s.(heap) s.(NIL) par t -> s.(NIL) ∉ ptrs t ->
  length (ptrs t) < f -> (0 <= b)%Z -> (tg = -1 \/ 0 <= tg)%Z ->
  (fst (validate_rec f s (tptr s.(NIL) t) b tg) = true <->
     no_red_red t /\ black_balanced t /\ locally_ordered t /\
     (tg = -1 \/ tg = b + Z.of_nat (lbh t))%Z) /\
  (fst (validate_rec f s (tptr s.(NIL) t) b tg) = true ->
     snd (validate_rec f s (tptr s.(NIL) t) b tg) = (b + Z.of_nat (lbh t))%Z).
Proof.
  induction t as [|c l IHl p k v r IHr]; intros f par b tg Hrep Hn Hf Hb Htg;
    (destruct f as [|f]; [simpl in Hf; lia|]).
  - cbn [validate_rec tptr]. rewrite ptr_eqb_refl. cbn [fst snd lbh no_red_red black_balanced locally_ordered].
    destruct (Z.eqb_spec tg (-1)) as [->|Hne]; rewrite ?Z.eqb_refl.
    + split; [split; [intros _; repeat split; left; reflexivity|reflexivity]|intros _; lia].
    + split; [rewrite Z.eqb_eq; split; [intros ->; repeat split; right; lia|intros (_&_&_&[?|?]); lia]|].
      intros H; apply Z.eqb_eq in H; lia.
  - destruct Hrep as (Hp & Hl & Hr). cbn [ptrs] in Hn, Hf.
    rewrite not_elem_of_cons, elem_of_app in Hn. destruct Hn as [Hnp Hn].
    assert (Hnl : s.(NIL) ∉ ptrs l) by tauto. assert (Hnr : s.(NIL) ∉ ptrs r) by tauto.
    cbn [length] in Hf. rewrite length_app in Hf.
    pose proof (color_of_tptr _ _ Hl) as Cl. pose proof (color_of_tptr _ _ Hr) as Cr.
    pose proof (left_guard _ k _ Hl Hnl) as Gl. pose proof (right_guard _ k _ Hr Hnr) as Gr.
    cbn [validate_rec tptr]. rewrite ptr_eqb_ne by congruence.
    assert (Hcp : color_of s p = c) by (unfold color_of; rewrite (deref_lookup _ _ _ Hp); reflexivity).
    assert (Hkp : key_of s p = k) by (unfold key_of; rewrite (deref_lookup _ _ _ Hp); reflexivity).
    assert (Hlp : left_of s p = tptr s.(NIL) l) by (unfold left_of; rewrite (deref_lookup _ _ _ Hp); reflexivity).
    assert (Hrp : right_of s p = tptr s.(NIL) r) by (unfold right_of; rewrite (deref_lookup _ _ _ Hp); reflexivity).
    rewrite Hcp, Hkp, Hlp, Hrp, Cl, Cr.
    replace (if color_eqb c BLACK then (b + 1)%Z else b) with (b + Z.of_nat (bump c))%Z
      by (destruct c; simpl; lia).
    cbn [no_red_red black_balanced locally_ordered lbh].
    destruct (color_eqb c RED && (color_eqb (tcolor l) RED || color_eqb (tcolor r) RED)) eqn:R.
    { cbn [fst]. split; [|discriminate]. split; [discriminate|].
      intros ([Hrr _] & _). destruct c; [|discriminate].
      destruct (Hrr eq_refl) as [E1 E2]. rewrite E1, E2 in R. discriminate. }
    destruct (negb (ptr_eqb (tptr s.(NIL) l) s.(NIL)) && comp k (key_of s (tptr s.(NIL) l))) eqn:G1.
    { cbn [fst]. split; [|discriminate]. split; [discriminate|].
      intros (_ & _ & (Hk & _) & _). apply Gl in Hk. congruence. }
    destruct (negb (ptr_eqb (tptr s.(NIL) r) s.(NIL)) && comp (key_of s (tptr s.(NIL) r)) k) eqn:G2.
    { cbn [fst]. split; [|discriminate]. split; [discriminate|].
      intros (_ & _ & (_ & Hk & _) & _). apply Gr in Hk. congruence. }
    pose proof (proj1 Gl eq_refl) as K1. pose proof (proj1 Gr eq_refl) as K2.
    assert (Hrr : c = RED -> tcolor l = BLACK /\ tcolor r = BLACK).
    { intros ->. destruct (tcolor l), (tcolor r); simpl in R; try discriminate; auto. }
    assert (Hb' : (0 <= b + Z.of_nat (bump c))%Z) by lia.
    destruct (IHl f p (b + Z.of_nat (bump c))%Z tg Hl Hnl ltac:(lia) Hb' Htg) as [IL1 IL2].
    destruct (validate_rec f s (tptr s.(NIL) l) (b + Z.of_nat (bump c))%Z tg) as [ok1 tg1] eqn:V1.
    cbn [fst snd] in IL1, IL2.
    destruct ok1.
    + specialize (IL2 eq_refl). subst tg1. destruct (proj1 IL1 eq_refl) as (L1 & L2 & L3 & L4).
      destruct (IHr f p (b + Z.of_nat (bump c))%Z (b + Z.of_nat (bump c) + Z.of_nat (lbh l))%Z
                  Hr Hnr ltac:(lia) Hb' ltac:(lia)) as [IR1 IR2].
      split.
      * rewrite IR1. split.
        -- intros (R1 & R2 & R3 & [R4|R4]); [lia|].
           assert (lbh l = lbh r) by lia.
           refine (conj (conj Hrr (conj L1 R1)) (conj (conj _ (conj L2 R2)) (conj (conj K1 (conj K2 (conj L3 R3))) _))); [lia|].
           destruct L4 as [L4|L4]; [left; exact L4|right; lia].
        -- intros ((_ & N1 & N2) & (B1 & B2 & B3) & (O1 & O2 & O3 & O4) & T1).
           repeat split; auto. right. rewrite B1. lia.
      * intros H. rewrite (IR2 H). destruct (proj1 IR1 H) as (_ & _ & _ & [?|?]); lia.
    + cbn [fst]. split; [|discriminate]. split; [discriminate|].
      intros ((_ & N1 & N2) & (B1 & B2 & B3) & (O1 & O2 & O3 & O4) & T1).
      assert (false = true); [|discriminate]. apply IL1. repeat split; auto.
      destruct T1 as [T1|T1]; [left; exact T1|right; lia].
Qed.
End Read.

Lemma length_le_size (m : gmap N Node) (L : list N) :
  NoDup L -> (forall q, q ∈ L -> is_Some (m !! q)) -> length L <= size m.
Proof.
  intros Hnd HL. rewrite <- (size_list_to_set (C:=gset N) L Hnd), <- size_dom.
  apply subseteq_size. intros q Hq. rewrite elem_of_list_to_set in Hq.
  rewrite elem_of_dom. auto.
Qed.

Lemma fuel_enough s tr : good s tr -> length (ptrs tr) < fuel s.
Proof.
  intros G. unfold fuel. pose proof (good_nodup _ _ G) as Hnd.
  apply NoDup_cons in Hnd as [_ Hnd].
  pose proof (length_le_size s.(heap) (ptrs tr) Hnd) as H.
  assert (length (ptrs tr) <= size s.(heap)); [|lia].
  apply H. intros q Hq. apply (good_dom _ _ G). auto.
Qed.

Lemma validate_good s tr :
  good s tr ->
  (validate s = true <-> no_red_red tr /\ black_balanced tr /\ locally_ordered tr).
Proof.
  intros G. destruct (good_nil _ _ G) as [q Hq].
  pose proof (good_nodup _ _ G) as Hnd. apply NoDup_cons in Hnd as [Hn _].
  unfold validate. rewrite (good_root _ _ G).
  destruct (validate_rec_spec s q Hq tr (fuel s) s.(NIL) 0 (-1) (good_rep _ _ G) Hn
              (fuel_enough _ _ G) ltac:(lia) ltac:(lia)) as [H _].
  rewrite H. split; [tauto|]. intros (?&?&?). repeat split; auto.
Qed.

Lemma good_red_root_tree : good red_root_tree (T RED E 2 5 0 E).
Proof.
  assert (Hdom : forall q, is_Some (red_root_tree.(heap) !! q) <-> q = 1%N \/ q = 2%N).
  { intros q. unfold red_root_tree; cbn [heap].
    rewrite !lookup_insert_is_Some', lookup_empty. split.
    - intros [<-|[<-|[]%is_Some_None]]; auto.
    - intros [->| ->]; auto. }
  split; cbn.
  - repeat split.
  - reflexivity.
  - repeat constructor; set_solver.
  - exists 0%N; reflexivity.
  - intros q. rewrite Hdom. set_solver.
  - intros q Hq. apply Hdom in Hq. lia.
Qed.

(** C5 (amended): on a tree object whose heap holds the sentinel and a
    finite binary tree reachable from [root], [validate()] returns true
    exactly when no RED node has a RED child, every path from the root to a
    leaf has the same number of BLACK nodes, and no node's key is below its
    left child's key or above its right child's key.  The colour of the
    root and the in-order sequence of keys are not examined. *)
Theorem validate_iff_local (s : RBTree) (tr : tree) (G : good s tr) :
  validate s = true <-> no_red_red tr /\ black_balanced tr /\ locally_ordered tr.
Proof. exact (validate_good s tr G). Qed.

(** A witness: the one-node tree with a RED root. *)
Lemma validate_iff_local_witness :
  good red_root_tree (T RED E 2 5 0 E) /\
  (validate red_root_tree = true <->
   no_red_red (T RED E 2 5 0 E) /\ black_balanced (T RED E 2 5 0 E) /\
   locally_ordered (T RED E 2 5 0 E)).
Proof.
  split; [exact good_red_root_tree|].
  apply (validate_iff_local red_root_tree (T RED E 2 5 0 E) good_red_root_tree).
Defined.

(* ------------------------------------------------------------------ *)
(** * Rotations, insertion, search and splicing on the abstract view *)

Lemma plug_app cx1 cx2 t : plug (cx1 ++ cx2) t = plug cx2 (plug cx1 t).
Proof. revert t; induction cx1; intros t; simpl; auto. Qed.

Lemma ptrs_fill f t : ptrs (fill f t) ≡ₚ fptr f :: ptrs t ++ ptrs (fsib f).
Proof. destruct f; simpl; [done|]. constructor. apply Permutation_app_comm. Qed.

Lemma ptrs_plug cx t : ptrs (plug cx t) ≡ₚ ptrs t ++ cptrs cx.
Proof.
  revert t; induction cx as [|f cx IH]; intros t; simpl.
  - by rewrite app_nil_r.
  - rewrite IH, ptrs_fill. simpl. solve_Permutation.
Qed.

Lemma rep_plug h nil top cx t :
  rep h nil top (plug cx t) <-> rep h nil (cpar top cx) t /\ crep h nil top cx (tptr nil t).
Proof.
  revert t; induction cx as [|f cx IH]; intros t; simpl.
  - tauto.
  - rewrite IH. destruct f; simpl; tauto.
Qed.

Lemma rep_agree h h' nil par t :
  rep h nil par t -> (forall q, q ∈ ptrs t -> h' !! q = h !! q) -> rep h' nil par t.
Proof.
  revert par; induction t as [|c l IHl p k v r IHr]; intros par; simpl; [done|].
  intros (Hp & Hl & Hr) Hag. split; [rewrite Hag; [done|set_solver]|].
  split; [apply IHl|apply IHr]; auto; intros q Hq; apply Hag; set_solver.
Qed.

Lemma crep_agree h h' nil top cx hole :
  crep h nil top cx hole -> (forall q, q ∈ cptrs cx -> h' !! q = h !! q) ->
  crep h' nil top cx hole.
Proof.
  revert hole; induction cx as [|f cx IH]; intros hole; simpl; [done|].
  intros (Hp & Hs & Hc) Hag. split; [rewrite Hag; [done|set_solver]|].
  split; [eapply rep_agree; [done|]|apply IH; [done|]]; intros q Hq; apply Hag; set_solver.
Qed.

Lemma deref_store_eq s p n : deref (store s p n) p = n.
Proof. unfold deref, store; simpl. by rewrite lookup_insert_eq. Qed.
Lemma deref_store_ne s p n q : p <> q -> deref (store s p n) q = deref s q.
Proof. intros. unfold deref, store; simpl. by rewrite lookup_insert_ne. Qed.


Lemma tptr_cases nil t : tptr nil t = nil \/ tptr nil t ∈ ptrs t.
Proof. destruct t; simpl; [by left|right; set_solver]. Qed.

Lemma NoDup_app_disj (l1 l2 : list N) q : NoDup (l1 ++ l2) -> q ∈ l1 -> q ∉ l2.
Proof. rewrite NoDup_app. intros (_ & H & _). apply H. Qed.

Section Setters.
Context (s : RBTree) (p q : N).
Lemma deref_set_val v : deref (set_val s p v) q = if decide (p = q) then with_val v (deref s p) else deref s q.
Proof. unfold set_val, deref, store; simpl. case_decide; subst; [by rewrite lookup_insert_eq|by rewrite lookup_insert_ne]. Qed.
Lemma deref_set_color v : deref (set_color s p v) q = if decide (p = q) then with_color v (deref s p) else deref s q.
Proof. unfold set_color, deref, store; simpl. case_decide; subst; [by rewrite lookup_insert_eq|by rewrite lookup_insert_ne]. Qed.
Lemma deref_set_parent v : deref (set_parent s p v) q = if decide (p = q) then with_parent v (deref s p) else deref s q.
Proof. unfold set_parent, deref, store; simpl. case_decide; subst; [by rewrite lookup_insert_eq|by rewrite lookup_insert_ne]. Qed.
Lemma deref_set_left v : deref (set_left s p v) q = if decide (p = q) then with_left v (deref s p) else deref s q.
Proof. unfold set_left, deref, store; simpl. case_decide; subst; [by rewrite lookup_insert_eq|by rewrite lookup_insert_ne]. Qed.
Lemma deref_set_right v : deref (set_right s p v) q = if decide (p = q) then with_right v (deref s p) else deref s q.
Proof. unfold set_right, deref, store; simpl. case_decide; subst; [by rewrite lookup_insert_eq|by rewrite lookup_insert_ne]. Qed.
Lemma deref_set_root : deref (set_root s p) q = deref s q.
Proof. reflexivity. Qed.
Lemma heap_set_val v : heap (set_val s p v) !! q = if decide (p = q) then Some (with_val v (deref s p)) else heap s !! q.
Proof. unfold set_val, store; simpl. case_decide; subst; [by rewrite lookup_insert_eq|by rewrite lookup_insert_ne]. Qed.
Lemma heap_set_color v : heap (set_color s p v) !! q = if decide (p = q) then Some (with_color v (deref s p)) else heap s !! q.
Proof. unfold set_color, store; simpl. case_decide; subst; [by rewrite lookup_insert_eq|by rewrite lookup_insert_ne]. Qed.
Lemma heap_set_parent v : heap (set_parent s p v) !! q = if decide (p = q) then Some (with_parent v (deref s p)) else heap s !! q.
Proof. unfold set_parent, store; simpl. case_decide; subst; [by rewrite lookup_insert_eq|by rewrite lookup_insert_ne]. Qed.
Lemma heap_set_left v : heap (set_left s p v) !! q = if decide (p = q) then Some (with_left v (deref s p)) else heap s !! q.
Proof. unfold set_left, store; simpl. case_decide; subst; [by rewrite lookup_insert_eq|by rewrite lookup_insert_ne]. Qed.
Lemma heap_set_right v : heap (set_right s p v) !! q = if decide (p = q) then Some (with_right v (deref s p)) else heap s !! q.
Proof. unfold set_right, store; simpl. case_decide; subst; [by rewrite lookup_insert_eq|by rewrite lookup_insert_ne]. Qed.
Lemma heap_set_root : heap (set_root s p) = heap s.
Proof. reflexivity. Qed.
End Setters.

Lemma dec_refl {A} (a : N) (X Y : A) : (if decide (a = a) then X else Y) = X.
Proof. by rewrite decide_True. Qed.
Lemma dec_ne {A} (a b : N) (X Y : A) : a <> b -> (if decide (a = b) then X else Y) = Y.
Proof. intros. by rewrite decide_False. Qed.

Section Obs.
Context (s : RBTree) (p : N).
Lemma NIL_set_val v : NIL (set_val s p v) = NIL s. Proof. done. Qed.
Lemma NIL_set_color v : NIL (set_color s p v) = NIL s. Proof. done. Qed.
Lemma NIL_set_parent v : NIL (set_parent s p v) = NIL s. Proof. done. Qed.
Lemma NIL_set_left v : NIL (set_left s p v) = NIL s. Proof. done. Qed.
Lemma NIL_set_right v : NIL (set_right s p v) = NIL s. Proof. done. Qed.
Lemma NIL_set_root : NIL (set_root s p) = NIL s. Proof. done. Qed.
Lemma root_set_val v : root (set_val s p v) = root s. Proof. done. Qed.
Lemma root_set_color v : root (set_color s p v) = root s. Proof. done. Qed.
Lemma root_set_parent v : root (set_parent s p v) = root s. Proof. done. Qed.
Lemma root_set_left v : root (set_left s p v) = root s. Proof. done. Qed.
Lemma root_set_right v : root (set_right s p v) = root s. Proof. done. Qed.
Lemma root_set_root : root (set_root s p) = p. Proof. done. Qed.
Lemma brk_set_val v : brk (set_val s p v) = brk s. Proof. done. Qed.
Lemma brk_set_color v : brk (set_color s p v) = brk s. Proof. done. Qed.
Lemma brk_set_parent v : brk (set_parent s p v) = brk s. Proof. done. Qed.
Lemma brk_set_left v : brk (set_left s p v) = brk s. Proof. done. Qed.
Lemma brk_set_right v : brk (set_right s p v) = brk s. Proof. done. Qed.
Lemma brk_set_root : brk (set_root s p) = brk s. Proof. done. Qed.
End Obs.

Ltac neq := first [assumption | apply not_eq_sym; assumption | discriminate].

Ltac nodup_facts H :=
  repeat match type of H with
  | NoDup (_ :: _) =>
      let Hn := fresh "Hn" in
      apply NoDup_cons in H as [Hn H];
      repeat (rewrite not_elem_of_cons in Hn; destruct Hn as [? Hn]);
      clear Hn
  end; clear H.

(** Reading a state that is a local definition. *)
Ltac obs_state :=
  match goal with
  | |- context [deref ?t ?q] => is_var t;
      lazymatch goal with Et : t = ?bd |- _ =>
      lazymatch bd with
      | set_val ?s ?p ?v => rewrite (eq_trans (f_equal (fun u => deref u q) Et) (deref_set_val s p q v))
      | set_color ?s ?p ?v => rewrite (eq_trans (f_equal (fun u => deref u q) Et) (deref_set_color s p q v))
      | set_parent ?s ?p ?v => rewrite (eq_trans (f_equal (fun u => deref u q) Et) (deref_set_parent s p q v))
      | set_left ?s ?p ?v => rewrite (eq_trans (f_equal (fun u => deref u q) Et) (deref_set_left s p q v))
      | set_right ?s ?p ?v => rewrite (eq_trans (f_equal (fun u => deref u q) Et) (deref_set_right s p q v))
      | set_root ?s ?p => rewrite (eq_trans (f_equal (fun u => deref u q) Et) (deref_set_root s p q))
      end end
  | |- context [heap ?t !! ?q] => is_var t;
      lazymatch goal with Et : t = ?bd |- _ =>
      lazymatch bd with
      | set_val ?s ?p ?v => rewrite (eq_trans (f_equal (fun u => heap u !! q) Et) (heap_set_val s p q v))
      | set_color ?s ?p ?v => rewrite (eq_trans (f_equal (fun u => heap u !! q) Et) (heap_set_color s p q v))
      | set_parent ?s ?p ?v => rewrite (eq_trans (f_equal (fun u => heap u !! q) Et) (heap_set_parent s p q v))
      | set_left ?s ?p ?v => rewrite (eq_trans (f_equal (fun u => heap u !! q) Et) (heap_set_left s p q v))
      | set_right ?s ?p ?v => rewrite (eq_trans (f_equal (fun u => heap u !! q) Et) (heap_set_right s p q v))
      | set_root ?s ?p => rewrite (eq_trans (f_equal (fun u => heap u) Et) (heap_set_root s p))
      end end
  | |- context [NIL ?t] => is_var t;
      lazymatch goal with Et : t = ?bd |- _ =>
      lazymatch bd with
      | set_val ?s ?p ?v => rewrite (eq_trans (f_equal (fun u => NIL u) Et) (NIL_set_val s p v))
      | set_color ?s ?p ?v => rewrite (eq_trans (f_equal (fun u => NIL u) Et) (NIL_set_color s p v))
      | set_parent ?s ?p ?v => rewrite (eq_trans (f_equal (fun u => NIL u) Et) (NIL_set_parent s p v))
      | set_left ?s ?p ?v => rewrite (eq_trans (f_equal (fun u => NIL u) Et) (NIL_set_left s p v))
      | set_right ?s ?p ?v => rewrite (eq_trans (f_equal (fun u => NIL u) Et) (NIL_set_right s p v))
      | set_root ?s ?p => rewrite (eq_trans (f_equal (fun u => NIL u) Et) (NIL_set_root s p))
      end end
  | |- context [root ?t] => is_var t;
      lazymatch goal with Et : t = ?bd |- _ =>
      lazymatch bd with
      | set_val ?s ?p ?v => rewrite (eq_trans (f_equal (fun u => root u) Et) (root_set_val s p v))
      | set_color ?s ?p ?v => rewrite (eq_trans (f_equal (fun u => root u) Et) (root_set_color s p v))
      | set_parent ?s ?p ?v => rewrite (eq_trans (f_equal (fun u => root u) Et) (root_set_parent s p v))
      | set_left ?s ?p ?v => rewrite (eq_trans (f_equal (fun u => root u) Et) (root_set_left s p v))
      | set_right ?s ?p ?v => rewrite (eq_trans (f_equal (fun u => root u) Et) (root_set_right s p v))
      | set_root ?s ?p => rewrite (eq_trans (f_equal (fun u => root u) Et) (root_set_root s p))
      end end
  | |- context [brk ?t] => is_var t;
      lazymatch goal with Et : t = ?bd |- _ =>
      lazymatch bd with
      | set_val ?s ?p ?v => rewrite (eq_trans (f_equal (fun u => brk u) Et) (brk_set_val s p v))
      | set_color ?s ?p ?v => rewrite (eq_trans (f_equal (fun u => brk u) Et) (brk_set_color s p v))
      | set_parent ?s ?p ?v => rewrite (eq_trans (f_equal (fun u => brk u) Et) (brk_set_parent s p v))
      | set_left ?s ?p ?v => rewrite (eq_trans (f_equal (fun u => brk u) Et) (brk_set_left s p v))
      | set_right ?s ?p ?v => rewrite (eq_trans (f_equal (fun u => brk u) Et) (brk_set_right s p v))
      | set_root ?s ?p => rewrite (eq_trans (f_equal (fun u => brk u) Et) (brk_set_root s p))
      end end
  end.

Ltac rd1 :=
  first [
    progress cbv beta delta [key_of val_of color_of parent_of left_of right_of
             with_val with_color with_parent with_left with_right]
  | progress cbn beta iota delta [negb key val color parent left
             right tptr cpar fptr frame_node]
  | rewrite ptr_eqb_refl
  | match goal with |- context [ptr_eqb ?p ?q] =>
      let Hne := fresh in assert (Hne : p <> q) by neq; rewrite (ptr_eqb_ne p q Hne); clear Hne end
  | rewrite lookup_insert_eq
  | match goal with |- context [<[?i:=?x]> ?m !! ?j] =>
      let Hne := fresh in assert (Hne : i <> j) by neq; rewrite (lookup_insert_ne m i j x Hne); clear Hne end
  | rewrite dec_refl
  | match goal with |- context [decide (?a = ?b)] =>
      let Hne := fresh in assert (Hne : a <> b) by neq; rewrite (dec_ne a b _ _ Hne); clear Hne end
  | match goal with H : deref ?s ?q = _ |- context [deref ?s ?q] => rewrite H end
  | match goal with H : heap ?s !! ?q = _ |- context [heap ?s !! ?q] => rewrite H end
  | obs_state ].
Ltac name_state e :=
  first [ match goal with H : ?t0 = e |- _ => setoid_rewrite <- H end
        | let t := fresh "t" in let Et := fresh "Et" in remember e as t eqn:Et ].
Ltac name_states :=
  repeat match goal with
  | |- context [set_val ?t ?p ?v] => is_var t; name_state (set_val t p v)
  | |- context [set_color ?t ?p ?v] => is_var t; name_state (set_color t p v)
  | |- context [set_parent ?t ?p ?v] => is_var t; name_state (set_parent t p v)
  | |- context [set_left ?t ?p ?v] => is_var t; name_state (set_left t p v)
  | |- context [set_right ?t ?p ?v] => is_var t; name_state (set_right t p v)
  | |- context [set_root ?t ?p] => is_var t; name_state (set_root t p)
  end.
Ltac rd := repeat (rd1 || (name_states; rd1)).

(** Executing the first [let] of the goal. *)
Ltac peel :=
  match goal with |- context C [let v := ?e in @?b v] =>
    lazymatch type of e with
    | RBTree =>
        let bt := eval cbv beta in (b e) in
        let G := context C [bt] in change G;
        first [ is_var e | name_state e ]
    | _ => let bt := eval cbv beta in (b e) in
        let G := context C [bt] in change G
    end
  end.
Ltac exec := rd; repeat (peel; rd); name_states.

Lemma nodup_split (W R : list N) : NoDup (W ++ R) -> NoDup W /\ (forall q, q ∈ R -> q ∉ W).
Proof. rewrite NoDup_app. intros (H1 & H2 & _). split; [done|]. intros q Hq Hw. by apply (H2 q). Qed.

Lemma tptr_plug_cons nil f cx t t' : tptr nil (plug (f :: cx) t) = tptr nil (plug (f :: cx) t').
Proof.
  revert f t t'; induction cx as [|f' cx IH]; intros f t t'; simpl.
  - by destruct f.
  - apply (IH f' (fill f t) (fill f t')).
Qed.

Ltac wfacts HW :=
  let HW1 := fresh in let HR := fresh "HR" in
  apply nodup_split in HW as [HW1 HR]; nodup_facts HW1.

Ltac in_list := repeat (rewrite elem_of_cons || rewrite elem_of_app); intuition auto.

Ltac rdq tac :=
  rd; repeat (match goal with |- context [decide (?a = ?b)] => assert (a <> b) by tac end; rd).

Ltac qside :=
  let q := fresh "q" in let Hq := fresh "Hq" in
  intros q Hq;
  match goal with HR : forall q0, q0 ∈ _ -> q0 ∉ _ |- _ =>
    let Hq2 := fresh in
    pose proof (HR q ltac:(in_list)) as Hq2;
    rewrite ?not_elem_of_cons in Hq2; destruct_and? Hq2 end;
  rd; done.

Ltac agree_side :=
  first [ eapply rep_agree; [eassumption|]
        | eapply crep_agree; [eassumption|] ]; qside.

Ltac moves_tail Hroot :=
  split; [|split; [first [done | rewrite Hroot; apply tptr_plug_cons] |split; [done|split; [done|]]]];
  [ apply rep_plug; cbn [rep plug fill cpar crep tptr fptr fsib frame_node]; rd;
    repeat split; try done; agree_side
  | let q := fresh "q" in let Hq := fresh "Hq" in
    intros q Hq; rewrite ?ptrs_plug in Hq; cbn [plug fill ptrs app cptrs fsib fptr] in Hq;
    rdq ltac:(intros ->; apply Hq; in_list); done ].


Lemma left_rotate_rep s cx c a x k v c' b y k' v' g :
  rep s.(heap) s.(NIL) s.(NIL) (plug cx (T c a x k v (T c' b y k' v' g))) ->
  s.(root) = tptr s.(NIL) (plug cx (T c a x k v (T c' b y k' v' g))) ->
  NoDup (s.(NIL) :: ptrs (plug cx (T c a x k v (T c' b y k' v' g)))) ->
  moves s (left_rotate s x) (plug cx (T c a x k v (T c' b y k' v' g)))
    (plug cx (T c' (T c a x k v b) y k' v' g)).
Proof.
  intros Hrep Hroot Hnd.
  apply rep_plug in Hrep as [Hsub Hcx]. cbn [rep] in Hsub.
  destruct Hsub as (Hx & Ha & Hy & Hb & Hg).
  rewrite ptrs_plug in Hnd. cbn [ptrs] in Hnd.
  apply deref_lookup in Hx as Dx, Hy as Dy.
  destruct b as [|bc bl bp bk bv br]; [|destruct Hb as (Hbp & Hbl & Hbr)];
    (destruct cx as [|[fc fp fk fv fr|fc fl fp fk fv] cx']; [|destruct Hcx as (Hf & Hfs & Hcx')|destruct Hcx as (Hf & Hfs & Hcx')]);
    cbn [cptrs fsib fptr ptrs app] in *.
  all: try (apply deref_lookup in Hf as Df; cbn [frame_node cpar tptr fill] in Df).
  all: try (apply deref_lookup in Hbp as Dbp).
  - assert (HW : NoDup ([NIL s; x; y] ++ ptrs a ++ ptrs g)) by
      (revert Hnd; apply NoDup_Permutation_proper; solve_Permutation).
    wfacts HW.
    cbv delta [left_rotate]; exec; unfold moves; rd.
    moves_tail Hroot.
  - assert (HW : NoDup ([NIL s; x; y; fp] ++ ptrs a ++ ptrs g ++ ptrs fr ++ cptrs cx')) by
      (revert Hnd; apply NoDup_Permutation_proper; solve_Permutation).
    wfacts HW.
    cbv delta [left_rotate]; exec; unfold moves; rd.
    moves_tail Hroot.
  - assert (HW : NoDup ([NIL s; x; y; fp] ++ ptrs a ++ ptrs g ++ ptrs fl ++ cptrs cx')) by
      (revert Hnd; apply NoDup_Permutation_proper; solve_Permutation).
    wfacts HW.
    assert (x <> tptr (NIL s) fl) by
      (destruct (tptr_cases (NIL s) fl) as [->|Hfl]; [neq|pose proof (HR (tptr (NIL s) fl) ltac:(in_list)) as Hn; intros Heq; apply Hn; rewrite <- Heq; in_list]).
    cbv delta [left_rotate]; exec; unfold moves; rd.
    moves_tail Hroot.
  - assert (HW : NoDup ([NIL s; x; y; bp] ++ ptrs a ++ ptrs bl ++ ptrs br ++ ptrs g)) by
      (revert Hnd; apply NoDup_Permutation_proper; solve_Permutation).
    wfacts HW.
    cbv delta [left_rotate]; exec; unfold moves; rd.
    moves_tail Hroot.
  - assert (HW : NoDup ([NIL s; x; y; bp; fp] ++ ptrs a ++ ptrs bl ++ ptrs br ++ ptrs g ++ ptrs fr ++ cptrs cx')) by
      (revert Hnd; apply NoDup_Permutation_proper; solve_Permutation).
    wfacts HW.
    cbv delta [left_rotate]; exec; unfold moves; rd.
    moves_tail Hroot.
  - assert (HW : NoDup ([NIL s; x; y; bp; fp] ++ ptrs a ++ ptrs bl ++ ptrs br ++ ptrs g ++ ptrs fl ++ cptrs cx')) by
      (revert Hnd; apply NoDup_Permutation_proper; solve_Permutation).
    wfacts HW.
    assert (x <> tptr (NIL s) fl) by
      (destruct (tptr_cases (NIL s) fl) as [->|Hfl]; [neq|pose proof (HR (tptr (NIL s) fl) ltac:(in_list)) as Hn; intros Heq; apply Hn; rewrite <- Heq; in_list]).
    cbv delta [left_rotate]; exec; unfold moves; rd.
    moves_tail Hroot.
Qed.

Lemma right_rotate_rep s cx c x k v c' a y k' v' b g :
  rep s.(heap) s.(NIL) s.(NIL) (plug cx (T c (T c' a x k' v' b) y k v g)) ->
  s.(root) = tptr s.(NIL) (plug cx (T c (T c' a x k' v' b) y k v g)) ->
  NoDup (s.(NIL) :: ptrs (plug cx (T c (T c' a x k' v' b) y k v g))) ->
  moves s (right_rotate s y) (plug cx (T c (T c' a x k' v' b) y k v g))
    (plug cx (T c' a x k' v' (T c b y k v g))).
Proof.
  intros Hrep Hroot Hnd.
  apply rep_plug in Hrep as [Hsub Hcx]. cbn [rep] in Hsub.
  destruct Hsub as (Hy & (Hx & Ha & Hb) & Hg).
  rewrite ptrs_plug in Hnd. cbn [ptrs] in Hnd.
  apply deref_lookup in Hx as Dx, Hy as Dy.
  destruct b as [|bc bl bp bk bv br]; [|destruct Hb as (Hbp & Hbl & Hbr)];
    (destruct cx as [|[fc fp fk fv fr|fc fl fp fk fv] cx']; [|destruct Hcx as (Hf & Hfs & Hcx')|destruct Hcx as (Hf & Hfs & Hcx')]);
    cbn [cptrs fsib fptr ptrs app] in *.
  all: try (apply deref_lookup in Hf as Df; cbn [frame_node cpar tptr fill] in Df).
  all: try (apply deref_lookup in Hbp as Dbp).
  - assert (HW : NoDup ([NIL s; x; y] ++ ptrs a ++ ptrs g)) by
      (revert Hnd; apply NoDup_Permutation_proper; solve_Permutation).
    wfacts HW.
    cbv delta [right_rotate]; exec; unfold moves; rd.
    moves_tail Hroot.
  - assert (HW : NoDup ([NIL s; x; y; fp] ++ ptrs a ++ ptrs g ++ ptrs fr ++ cptrs cx')) by
      (revert Hnd; apply NoDup_Permutation_proper; solve_Permutation).
    wfacts HW.
    assert (y <> tptr (NIL s) fr) by
      (destruct (tptr_cases (NIL s) fr) as [->|Hfr]; [neq|pose proof (HR (tptr (NIL s) fr) ltac:(in_list)) as Hn; intros Heq; apply Hn; rewrite <- Heq; in_list]).
    cbv delta [right_rotate]; exec; unfold moves; rd.
    moves_tail Hroot.
  - assert (HW : NoDup ([NIL s; x; y; fp] ++ ptrs a ++ ptrs g ++ ptrs fl ++ cptrs cx')) by
      (revert Hnd; apply NoDup_Permutation_proper; solve_Permutation).
    wfacts HW.
    cbv delta [right_rotate]; exec; unfold moves; rd.
    moves_tail Hroot.
  - assert (HW : NoDup ([NIL s; x; y; bp] ++ ptrs a ++ ptrs bl ++ ptrs br ++ ptrs g)) by
      (revert Hnd; apply NoDup_Permutation_proper; solve_Permutation).
    wfacts HW.
    cbv delta [right_rotate]; exec; unfold moves; rd.
    moves_tail Hroot.
  - assert (HW : NoDup ([NIL s; x; y; bp; fp] ++ ptrs a ++ ptrs bl ++ ptrs br ++ ptrs g ++ ptrs fr ++ cptrs cx')) by
      (revert Hnd; apply NoDup_Permutation_proper; solve_Permutation).
    wfacts HW.
    assert (y <> tptr (NIL s) fr) by
      (destruct (tptr_cases (NIL s) fr) as [->|Hfr]; [neq|pose proof (HR (tptr (NIL s) fr) ltac:(in_list)) as Hn; intros Heq; apply Hn; rewrite <- Heq; in_list]).
    cbv delta [right_rotate]; exec; unfold moves; rd.
    moves_tail Hroot.
  - assert (HW : NoDup ([NIL s; x; y; bp; fp] ++ ptrs a ++ ptrs bl ++ ptrs br ++ ptrs g ++ ptrs fl ++ cptrs cx')) by
      (revert Hnd; apply NoDup_Permutation_proper; solve_Permutation).
    wfacts HW.
    cbv delta [right_rotate]; exec; unfold moves; rd.
    moves_tail Hroot.
Qed.

Section SetReads.
Context (s : RBTree) (p : N) (q : N).
Lemma key_of_set_color c : key_of (set_color s p c) q = key_of s q.
Proof. unfold key_of. rewrite deref_set_color. by case_decide; subst. Qed.
Lemma val_of_set_color c : val_of (set_color s p c) q = val_of s q.
Proof. unfold val_of. rewrite deref_set_color. by case_decide; subst. Qed.
Lemma parent_of_set_color c : parent_of (set_color s p c) q = parent_of s q.
Proof. unfold parent_of. rewrite deref_set_color. by case_decide; subst. Qed.
Lemma left_of_set_color c : left_of (set_color s p c) q = left_of s q.
Proof. unfold left_of. rewrite deref_set_color. by case_decide; subst. Qed.
Lemma right_of_set_color c : right_of (set_color s p c) q = right_of s q.
Proof. unfold right_of. rewrite deref_set_color. by case_decide; subst. Qed.
Lemma color_of_set_color c :
  color_of (set_color s p c) q = if decide (p = q) then c else color_of s q.
Proof. unfold color_of. rewrite deref_set_color. by case_decide. Qed.
End SetReads.

Lemma rep_some h nil par t q : rep h nil par t -> q ∈ ptrs t -> is_Some (h !! q).
Proof.
  revert par; induction t as [|c l IHl p k v r IHr]; intros par; simpl; [set_solver|].
  intros (Hp & Hl & Hr) Hq. rewrite elem_of_cons, elem_of_app in Hq.
  destruct Hq as [->|[Hq|Hq]]; [by eexists|eauto|eauto].
Qed.

Lemma tptr_plug_eq nil cx t t' :
  tptr nil t = tptr nil t' -> tptr nil (plug cx t) = tptr nil (plug cx t').
Proof.
  revert t t'; induction cx as [|f cx IH]; intros t t' H; simpl; [done|].
  apply IH. by destruct f.
Qed.

Lemma tcolor_plug_eq cx t t' :
  tcolor t = tcolor t' -> tcolor (plug cx t) = tcolor (plug cx t').
Proof.
  revert t t'; induction cx as [|f cx IH]; intros t t' H; simpl; [done|].
  apply IH. by destruct f.
Qed.

Lemma tcolor_plug_cons f cx t t' : tcolor (plug (f :: cx) t) = tcolor (plug (f :: cx) t').
Proof. apply (tcolor_plug_eq cx (fill f t) (fill f t')). by destruct f. Qed.

Lemma elements_plug cx t t' :
  elements t = elements t' -> elements (plug cx t) = elements (plug cx t').
Proof.
  revert t t'; induction cx as [|f cx IH]; intros t t' H; simpl; [done|].
  apply IH. destruct f; simpl; by rewrite H.
Qed.

Section Good.
Context (s : RBTree).

Lemma good_node cx c a p k v b : good s (plug cx (T c a p k v b)) ->
  s.(heap) !! p = Some (mkNode k v c (cpar s.(NIL) cx) (tptr s.(NIL) a) (tptr s.(NIL) b)).
Proof. intros G. apply good_rep, rep_plug in G as [[H _] _]. exact H. Qed.

Lemma good_reads cx c a p k v b : good s (plug cx (T c a p k v b)) ->
  key_of s p = k /\ val_of s p = v /\ color_of s p = c /\
  parent_of s p = cpar s.(NIL) cx /\ left_of s p = tptr s.(NIL) a /\
  right_of s p = tptr s.(NIL) b.
Proof.
  intros G. unfold key_of, val_of, color_of, parent_of, left_of, right_of.
  rewrite (deref_lookup _ _ _ (good_node cx c a p k v b G)). simpl. tauto.
Qed.

Lemma good_nil_notin tr : good s tr -> s.(NIL) ∉ ptrs tr.
Proof. intros G. pose proof (good_nodup _ _ G) as H. by apply NoDup_cons in H as [H _]. Qed.

Lemma good_nil_color tr : good s tr -> color_of s s.(NIL) = BLACK.
Proof.
  intros G. destruct (good_nil _ _ G) as [par Hn].
  unfold color_of. by rewrite (deref_lookup _ _ _ Hn).
Qed.

Lemma good_color_tptr cx t : good s (plug cx t) -> color_of s (tptr s.(NIL) t) = tcolor t.
Proof.
  destruct t as [|c l p k v r]; simpl; intros G.
  - by apply (good_nil_color _ G).
  - by apply good_reads in G as (_ & _ & -> & _).
Qed.
End Good.

Lemma good_of_moves s s' tr tr' :
  good s tr -> moves s s' tr tr' -> ptrs tr' ≡ₚ ptrs tr -> good s' tr'.
Proof.
  intros G (Hrep & Hroot & Hnil & Hbrk & Hun) Hperm.
  pose proof (good_nil_notin _ _ G) as Hni.
  constructor.
  - by rewrite Hnil.
  - by rewrite Hnil.
  - rewrite Hnil, Hperm. apply good_nodup, G.
  - rewrite Hnil, Hun by done. apply (good_nil _ _ G).
  - intros q. rewrite Hnil. destruct (decide (q ∈ ptrs tr')) as [Hq|Hq].
    + split; [by right|]. intros _. by apply (rep_some _ _ _ _ _ Hrep).
    + assert (Hq' : q ∉ ptrs tr) by (by rewrite <- Hperm).
      rewrite Hun by done. rewrite (good_dom _ _ G). set_solver.
  - intros q Hq. rewrite Hbrk. destruct (decide (q ∈ ptrs tr)) as [Hin|Hin].
    + apply (good_brk _ _ G). apply (good_dom _ _ G). by right.
    + rewrite Hun in Hq by done. by apply (good_brk _ _ G).
Qed.

Lemma nodup_node_facts nil cx c a p k v b :
  NoDup (nil :: ptrs (plug cx (T c a p k v b))) ->
  nil <> p /\ (p ∉ ptrs a) /\ (p ∉ ptrs b) /\ (p ∉ cptrs cx).
Proof.
  rewrite ptrs_plug. simpl. intros H. apply NoDup_cons in H as [H1 H2].
  apply NoDup_cons in H2 as [H2 _]. set_solver.
Qed.

Lemma store_moves s cx c a p k v b c' v' :
  good s (plug cx (T c a p k v b)) ->
  moves s (store s p (mkNode k v' c' (cpar s.(NIL) cx) (tptr s.(NIL) a) (tptr s.(NIL) b)))
    (plug cx (T c a p k v b)) (plug cx (T c' a p k v' b)).
Proof.
  intros G. pose proof (good_nodup _ _ G) as Hnd.
  apply nodup_node_facts in Hnd as (Hnp & Ha & Hb & Hc).
  pose proof (good_rep _ _ G) as Hrep. apply rep_plug in Hrep as [[_ [Hra Hrb]] Hcx].
  unfold moves, store; simpl.
  split; [|split; [|split; [done|split; [done|]]]].
  - apply rep_plug. split.
    + simpl. rewrite lookup_insert_eq. split; [done|].
      split; (eapply rep_agree; [eassumption|]); intros q Hq; rewrite lookup_insert_ne; [done| |done|];
        intros ->; contradiction.
    + simpl. eapply crep_agree; [exact Hcx|]. intros q Hq. rewrite lookup_insert_ne; [done|].
      intros ->; contradiction.
  - rewrite (good_root _ _ G). by apply tptr_plug_eq.
  - intros q Hq. rewrite lookup_insert_ne; [done|]. intros ->. apply Hq.
    rewrite ptrs_plug. simpl. set_solver.
Qed.

Lemma ptrs_plug_node cx c c' a p k v v' b :
  ptrs (plug cx (T c' a p k v' b)) ≡ₚ ptrs (plug cx (T c a p k v b)).
Proof. by rewrite !ptrs_plug. Qed.

Lemma good_set_color s cx c a p k v b c' :
  good s (plug cx (T c a p k v b)) -> good (set_color s p c') (plug cx (T c' a p k v b)).
Proof.
  intros G. eapply good_of_moves; [exact G| |apply ptrs_plug_node].
  unfold set_color. rewrite (deref_lookup _ _ _ (good_node s cx c a p k v b G)).
  apply (store_moves s cx c a p k v b c' v G).
Qed.

Lemma good_set_val s cx c a p k v b v' :
  good s (plug cx (T c a p k v b)) -> good (set_val s p v') (plug cx (T c a p k v' b)).
Proof.
  intros G. eapply good_of_moves; [exact G| |apply ptrs_plug_node].
  unfold set_val. rewrite (deref_lookup _ _ _ (good_node s cx c a p k v b G)).
  apply (store_moves s cx c a p k v b c v' G).
Qed.

Lemma good_left_rotate s cx c a x k v c' b y k' v' g :
  good s (plug cx (T c a x k v (T c' b y k' v' g))) ->
  good (left_rotate s x) (plug cx (T c' (T c a x k v b) y k' v' g)).
Proof.
  intros G. eapply good_of_moves; [exact G| |].
  - apply left_rotate_rep; [apply G|apply G|apply G].
  - rewrite !ptrs_plug. simpl. solve_Permutation.
Qed.

Lemma good_right_rotate s cx c x k v c' a y k' v' b g :
  good s (plug cx (T c (T c' a x k' v' b) y k v g)) ->
  good (right_rotate s y) (plug cx (T c' a x k' v' (T c b y k v g))).
Proof.
  intros G. eapply good_of_moves; [exact G| |].
  - apply right_rotate_rep; [apply G|apply G|apply G].
  - rewrite !ptrs_plug. simpl. solve_Permutation.
Qed.

Lemma tptr_ne nil x t : x <> nil -> x ∉ ptrs t -> x <> tptr nil t.
Proof. destruct t; simpl; [done|]. intros _ H ->. apply H. left. Qed.

Lemma nodup_pair_tptr nil x t rest :
  NoDup ([nil; x] ++ ptrs t ++ rest) -> x <> tptr nil t.
Proof.
  intros H. apply NoDup_app in H as (H1 & H2 & _).
  apply NoDup_cons in H1 as [H1 _].
  apply tptr_ne; [intros ->; apply H1; set_solver|].
  intros Hx. apply (H2 x); set_solver.
Qed.

Lemma good_ne_right s cx c c' a x k' v' b p k v r :
  good s (plug cx (T c (T c' a x k' v' b) p k v r)) -> x <> tptr s.(NIL) r.
Proof.
  intros G. pose proof (good_nodup _ _ G) as H. rewrite ptrs_plug in H.
  apply (nodup_pair_tptr _ _ _ (p :: ptrs a ++ ptrs b ++ cptrs cx)).
  revert H. apply NoDup_Permutation_proper. simpl. solve_Permutation.
Qed.

Lemma good_ne_left s cx c c' a x k' v' b p k v l :
  good s (plug cx (T c l p k v (T c' a x k' v' b))) -> x <> tptr s.(NIL) l.
Proof.
  intros G. pose proof (good_nodup _ _ G) as H. rewrite ptrs_plug in H.
  apply (nodup_pair_tptr _ _ _ (p :: ptrs a ++ ptrs b ++ cptrs cx)).
  revert H. apply NoDup_Permutation_proper. simpl. solve_Permutation.
Qed.

Ltac rds := rewrite ?key_of_set_color, ?val_of_set_color, ?parent_of_set_color,
  ?left_of_set_color, ?right_of_set_color.

Section Bodies.
Context (t : RBTree) (cx2 : list frame) (a b : tree) (z : N) (k v : Z)
        (g : N) (kg vg : Z).

Lemma body_L_red f1 c2 ul u uk uv ur :
  good t (plug (f1 :: FL c2 g kg vg (T RED ul u uk uv ur) :: cx2) (T RED a z k v b)) ->
  insert_fixup_body t z =
    (set_color (set_color (set_color t (fptr f1) BLACK) u BLACK) g RED, g).
Proof.
  intros G.
  pose proof (good_reads t (f1 :: FL c2 g kg vg (T RED ul u uk uv ur) :: cx2) RED a z k v b G)
    as (_&_&_&Pz&_&_).
  destruct f1 as [c1 p kp vp s1|c1 s1 p kp vp];
  [pose proof (good_reads t (FL c2 g kg vg (T RED ul u uk uv ur) :: cx2) c1 (T RED a z k v b) p kp vp s1 G)
    as (_&_&_&Pp&_&_)
  |pose proof (good_reads t (FL c2 g kg vg (T RED ul u uk uv ur) :: cx2) c1 s1 p kp vp (T RED a z k v b) G)
    as (_&_&_&Pp&_&_)];
  pose proof (good_reads t cx2 c2 _ g kg vg (T RED ul u uk uv ur) G) as (_&_&_&_&Lg&Rg);
  pose proof (good_color_tptr t (FR c2 _ g kg vg :: cx2) (T RED ul u uk uv ur) G) as Cu;
  cbn [cpar fptr tptr tcolor] in *;
  cbv beta zeta delta [insert_fixup_body]; rds; rewrite Pz, Pp, Lg, ptr_eqb_refl, Rg, Cu;
  cbn [color_eqb]; rds; rewrite ?Pz, ?Pp; reflexivity.
Qed.

Lemma body_LL_black c1 c2 p kp vp s1 s2 :
  good t (plug (FL c1 p kp vp s1 :: FL c2 g kg vg s2 :: cx2) (T RED a z k v b)) ->
  tcolor s2 = BLACK ->
  insert_fixup_body t z = (right_rotate (set_color (set_color t p BLACK) g RED) g, z).
Proof.
  intros G Hs2.
  pose proof (good_reads t (FL c1 p kp vp s1 :: FL c2 g kg vg s2 :: cx2) RED a z k v b G)
    as (_&_&_&Pz&_&_).
  pose proof (good_reads t (FL c2 g kg vg s2 :: cx2) c1 (T RED a z k v b) p kp vp s1 G)
    as (_&_&_&Pp&_&Rp).
  pose proof (good_reads t cx2 c2 _ g kg vg s2 G) as (_&_&_&_&Lg&Rg).
  pose proof (good_color_tptr t (FR c2 _ g kg vg :: cx2) s2 G) as Cu.
  pose proof (good_ne_right t (FL c2 g kg vg s2 :: cx2) c1 RED a z k v b p kp vp s1 G) as Hne.
  cbn [cpar fptr tptr] in *.
  cbv beta zeta delta [insert_fixup_body]; rds; rewrite Pz, Pp, Lg, ptr_eqb_refl, Rg, Cu, Hs2.
  cbn [color_eqb]. rewrite Rp, (ptr_eqb_ne _ _ Hne). cbn beta iota. rds. rewrite ?Pz, ?Pp.
  reflexivity.
Qed.

Lemma body_LR_black c1 c2 p kp vp s1 s2 :
  good t (plug (FR c1 s1 p kp vp :: FL c2 g kg vg s2 :: cx2) (T RED a z k v b)) ->
  tcolor s2 = BLACK ->
  insert_fixup_body t z =
    (right_rotate (set_color (set_color (left_rotate t p) z BLACK) g RED) g, p).
Proof.
  intros G Hs2.
  pose proof (good_reads t (FR c1 s1 p kp vp :: FL c2 g kg vg s2 :: cx2) RED a z k v b G)
    as (_&_&_&Pz&_&_).
  pose proof (good_reads t (FL c2 g kg vg s2 :: cx2) c1 s1 p kp vp (T RED a z k v b) G)
    as (_&_&_&Pp&_&Rp).
  pose proof (good_reads t cx2 c2 _ g kg vg s2 G) as (_&_&_&_&Lg&Rg).
  pose proof (good_color_tptr t (FR c2 _ g kg vg :: cx2) s2 G) as Cu.
  pose proof (good_left_rotate t (FL c2 g kg vg s2 :: cx2) c1 s1 p kp vp RED a z k v b G) as G'.
  pose proof (good_reads _ (FL RED z k v b :: FL c2 g kg vg s2 :: cx2) c1 s1 p kp vp a G')
    as (_&_&_&P'p&_&_).
  pose proof (good_reads _ (FL c2 g kg vg s2 :: cx2) RED (T c1 s1 p kp vp a) z k v b G')
    as (_&_&_&P'z&_&_).
  cbn [cpar fptr tptr] in *.
  cbv beta zeta delta [insert_fixup_body]; rds; rewrite Pz, Pp, Lg, ptr_eqb_refl, Rg, Cu, Hs2.
  cbn [color_eqb]. rewrite Rp, ptr_eqb_refl. cbn beta iota. rds. rewrite P'p, P'z.
  reflexivity.
Qed.

Lemma body_R_red f1 c2 ul u uk uv ur :
  good t (plug (f1 :: FR c2 (T RED ul u uk uv ur) g kg vg :: cx2) (T RED a z k v b)) ->
  insert_fixup_body t z =
    (set_color (set_color (set_color t (fptr f1) BLACK) u BLACK) g RED, g).
Proof.
  intros G.
  pose proof (good_reads t (f1 :: FR c2 (T RED ul u uk uv ur) g kg vg :: cx2) RED a z k v b G)
    as (_&_&_&Pz&_&_).
  destruct f1 as [c1 p kp vp s1|c1 s1 p kp vp];
  [pose proof (good_reads t (FR c2 (T RED ul u uk uv ur) g kg vg :: cx2) c1 (T RED a z k v b) p kp vp s1 G)
    as (_&_&_&Pp&_&_);
   pose proof (good_ne_left t cx2 c2 c1 (T RED a z k v b) p kp vp s1 g kg vg _ G) as Hne
  |pose proof (good_reads t (FR c2 (T RED ul u uk uv ur) g kg vg :: cx2) c1 s1 p kp vp (T RED a z k v b) G)
    as (_&_&_&Pp&_&_);
   pose proof (good_ne_left t cx2 c2 c1 s1 p kp vp (T RED a z k v b) g kg vg _ G) as Hne];
  pose proof (good_reads t cx2 c2 (T RED ul u uk uv ur) g kg vg _ G) as (_&_&_&_&Lg&Rg);
  pose proof (good_color_tptr t (FL c2 g kg vg _ :: cx2) (T RED ul u uk uv ur) G) as Cu;
  cbn [cpar fptr tptr tcolor] in *;
  cbv beta zeta delta [insert_fixup_body]; rds; rewrite Pz, Pp, Lg, (ptr_eqb_ne _ _ Hne), Cu;
  cbn [color_eqb]; rds; rewrite ?Pz, ?Pp; reflexivity.
Qed.

Lemma body_RR_black c1 c2 p kp vp s1 s2 :
  good t (plug (FR c1 s1 p kp vp :: FR c2 s2 g kg vg :: cx2) (T RED a z k v b)) ->
  tcolor s2 = BLACK ->
  insert_fixup_body t z = (left_rotate (set_color (set_color t p BLACK) g RED) g, z).
Proof.
  intros G Hs2.
  pose proof (good_reads t (FR c1 s1 p kp vp :: FR c2 s2 g kg vg :: cx2) RED a z k v b G)
    as (_&_&_&Pz&_&_).
  pose proof (good_reads t (FR c2 s2 g kg vg :: cx2) c1 s1 p kp vp (T RED a z k v b) G)
    as (_&_&_&Pp&Lp&_).
  pose proof (good_reads t cx2 c2 s2 g kg vg _ G) as (_&_&_&_&Lg&Rg).
  pose proof (good_color_tptr t (FL c2 g kg vg _ :: cx2) s2 G) as Cu.
  pose proof (good_ne_left t cx2 c2 c1 s1 p kp vp (T RED a z k v b) g kg vg s2 G) as Hne1.
  pose proof (good_ne_left t (FR c2 s2 g kg vg :: cx2) c1 RED a z k v b p kp vp s1 G) as Hne.
  cbn [cpar fptr tptr] in *.
  cbv beta zeta delta [insert_fixup_body]; rds; rewrite Pz, Pp, Lg, (ptr_eqb_ne _ _ Hne1), Cu, Hs2.
  cbn [color_eqb]. rewrite Lp, (ptr_eqb_ne _ _ Hne). cbn beta iota. rds. rewrite ?Pz, ?Pp.
  reflexivity.
Qed.

Lemma body_RL_black c1 c2 p kp vp s1 s2 :
  good t (plug (FL c1 p kp vp s1 :: FR c2 s2 g kg vg :: cx2) (T RED a z k v b)) ->
  tcolor s2 = BLACK ->
  insert_fixup_body t z =
    (left_rotate (set_color (set_color (right_rotate t p) z BLACK) g RED) g, p).
Proof.
  intros G Hs2.
  pose proof (good_reads t (FL c1 p kp vp s1 :: FR c2 s2 g kg vg :: cx2) RED a z k v b G)
    as (_&_&_&Pz&_&_).
  pose proof (good_reads t (FR c2 s2 g kg vg :: cx2) c1 (T RED a z k v b) p kp vp s1 G)
    as (_&_&_&Pp&Lp&_).
  pose proof (good_reads t cx2 c2 s2 g kg vg _ G) as (_&_&_&_&Lg&Rg).
  pose proof (good_color_tptr t (FL c2 g kg vg _ :: cx2) s2 G) as Cu.
  pose proof (good_ne_left t cx2 c2 c1 (T RED a z k v b) p kp vp s1 g kg vg s2 G) as Hne1.
  pose proof (good_right_rotate t (FR c2 s2 g kg vg :: cx2) c1 z kp vp RED a p k v b s1 G) as G'.
  pose proof (good_reads _ (FR RED a z k v :: FR c2 s2 g kg vg :: cx2) c1 b p kp vp s1 G')
    as (_&_&_&P'p&_&_).
  pose proof (good_reads _ (FR c2 s2 g kg vg :: cx2) RED a z k v (T c1 b p kp vp s1) G')
    as (_&_&_&P'z&_&_).
  cbn [cpar fptr tptr] in *.
  cbv beta zeta delta [insert_fixup_body]; rds; rewrite Pz, Pp, Lg, (ptr_eqb_ne _ _ Hne1), Cu, Hs2.
  cbn [color_eqb]. rewrite Lp, ptr_eqb_refl. cbn beta iota. rds. rewrite P'p, P'z.
  reflexivity.
Qed.
End Bodies.

Lemma NIL_left_rotate s x : NIL (left_rotate s x) = NIL s.
Proof. unfold left_rotate. cbv zeta. repeat destruct (ptr_eqb _ _); reflexivity. Qed.
Lemma NIL_right_rotate s x : NIL (right_rotate s x) = NIL s.
Proof. unfold right_rotate. cbv zeta. repeat destruct (ptr_eqb _ _); reflexivity. Qed.
Lemma NIL_insert_fixup_body s z : NIL (fst (insert_fixup_body s z)) = NIL s.
Proof.
  unfold insert_fixup_body. cbv zeta.
  destruct (ptr_eqb (parent_of s z) _); cbn iota; destruct (color_eqb _ RED); cbn iota; try reflexivity;
  match goal with |- context [if ptr_eqb z ?r then _ else _] => destruct (ptr_eqb z r) end;
  cbn iota beta; cbn [fst]; repeat rewrite ?NIL_left_rotate, ?NIL_right_rotate, ?NIL_set_color; reflexivity.
Qed.

Lemma good_set_color_frame s f cx t c' :
  good s (plug (f :: cx) t) -> good (set_color s (fptr f) c') (plug (frecolor f c' :: cx) t).
Proof.
  destruct f as [c p k v r|c l p k v]; simpl; intros G.
  - exact (good_set_color s cx c t p k v r c' G).
  - exact (good_set_color s cx c l p k v t c' G).
Qed.

Lemma good_frame_color s f cx t : good s (plug (f :: cx) t) -> color_of s (fptr f) = fcolor f.
Proof.
  destruct f as [c p k v r|c l p k v]; simpl; intros G.
  - by apply (good_reads s cx c t p k v r) in G as (_&_&->&_).
  - by apply (good_reads s cx c l p k v t) in G as (_&_&->&_).
Qed.

Lemma elements_frecolor f c t : elements (fill (frecolor f c) t) = elements (fill f t).
Proof. by destruct f. Qed.

Lemma ctx_ok_plug cx : forall t n, is_rb t n -> ctx_ok cx n (tcolor t) ->
  exists m, is_rb (plug cx t) m.
Proof.
  induction cx as [|f cx IH]; intros t n Ht Hc; simpl; [eauto|].
  destruct Hc as (Hs & Hr & Hc). apply (IH (fill f t) (n + bump (fcolor f))); [|by destruct f].
  destruct f as [[] p k v r|[] l p k v]; simpl in *.
  - destruct (Hr eq_refl). rewrite Nat.add_0_r. by constructor.
  - rewrite Nat.add_1_r. by constructor.
  - destruct (Hr eq_refl). rewrite Nat.add_0_r. by constructor.
  - rewrite Nat.add_1_r. by constructor.
Qed.

Lemma plug_ctx_ok cx : forall t m, is_rb (plug cx t) m ->
  exists n, is_rb t n /\ ctx_ok cx n (tcolor t).
Proof.
  induction cx as [|f cx IH]; intros t m H; simpl in *; [eauto|].
  destruct (IH _ _ H) as (n' & Hf & Hc).
  destruct f as [[] p k v r|[] l p k v]; simpl in *; inversion Hf; subst.
  - exists n'. rewrite Nat.add_0_r. auto.
  - exists n. rewrite Nat.add_1_r. split; [done|]. split; [done|]. split; [discriminate|done].
  - exists n'. rewrite Nat.add_0_r. auto.
  - exists n. rewrite Nat.add_1_r. split; [done|]. split; [done|]. split; [discriminate|done].
Qed.

Lemma ctx_ok_top_of cx n c : ctx_ok cx n c -> ctx_ok_top cx n.
Proof. destruct cx as [|f cx]; simpl; [done|]. intros (H1 & H2 & H3). split; [done|]. split; [|done]. intros Hr. by apply H2. Qed.

Lemma root_black_keep cx2 X Y :
  (cx2 = [] -> tcolor Y = BLACK) -> tcolor (plug cx2 X) = BLACK -> tcolor (plug cx2 Y) = BLACK.
Proof.
  destruct cx2 as [|f cx]; intros H1 H2; [by apply H1|].
  by rewrite (tcolor_plug_cons f cx Y X).
Qed.

Ltac elts := simpl; rewrite <- ?app_assoc; simpl; rewrite <- ?app_assoc; reflexivity.

Lemma insert_fixup_loop_spec m : forall t cx a z k v b n,
  good t (plug cx (T RED a z k v b)) -> is_rb (T RED a z k v b) n -> ctx_ok_top cx n ->
  (cx = [] \/ tcolor (plug cx (T RED a z k v b)) = BLACK) -> length cx < m ->
  exists tr n', good (insert_fixup_loop m t z) tr /\ is_rb tr n' /\
    elements tr = elements (plug cx (T RED a z k v b)).
Proof.
  induction m as [|m IH]; intros t cx a z k v b n G Hrb Hctx Hroot Hlen; [simpl in Hlen; lia|].
  pose proof (good_reads _ _ _ _ _ _ _ _ G) as (_ & _ & _ & Hpz & _ & _).
  cbn [insert_fixup_loop]. rewrite Hpz.
  destruct cx as [|f1 cx1].
  - simpl cpar. rewrite (good_nil_color _ _ G). cbn [color_eqb]. eauto.
  - simpl cpar. rewrite (good_frame_color _ _ _ _ G).
    destruct (fcolor f1) eqn:Hc1; cbn [color_eqb].
    2:{ exists (plug (f1 :: cx1) (T RED a z k v b)).
        destruct Hctx as (Hs1 & _ & Hc).
        destruct (ctx_ok_plug (f1 :: cx1) _ n Hrb) as [m' Hm'].
        { simpl. rewrite Hc1. split; [done|]. split; [discriminate|]. by rewrite <- Hc1. }
        eauto. }
    destruct cx1 as [|f2 cx2].
    { destruct Hroot as [Hroot|Hroot]; [discriminate|]. destruct f1; simpl in *; congruence. }
    destruct Hctx as (Hs1 & Hs1c & Hs2 & Hf2 & Hc2). rewrite Hc1 in Hs1c, Hs2, Hf2, Hc2.
    specialize (Hs1c eq_refl). simpl bump in *. rewrite Nat.add_0_r in Hs2, Hc2.
    destruct (fcolor f2) eqn:Hc2c; [destruct (Hf2 eq_refl); discriminate|]. simpl bump in Hc2.
    inversion Hrb as [|? ? ? ? ? ? Ha Hb Hac Hbc|]; subst.
    assert (Hroot' : forall Y, (cx2 = [] -> tcolor Y = BLACK) ->
              tcolor (plug cx2 Y) = BLACK).
    { intros Y HY. destruct Hroot as [Hroot|Hroot]; [discriminate|].
      eapply root_black_keep; [exact HY|exact Hroot]. }
    simpl in Hlen.
    destruct f2 as [c2 g kg vg s2|c2 s2 g kg vg]; simpl in Hc2c, Hs2, Hf2; subst c2.
    + (* the parent is a left child *)
      destruct (tcolor s2) eqn:Hu.
      * (* red uncle *)
        destruct s2 as [|cu ul u uk uv ur]; [discriminate|]. simpl in Hu. subst cu.
        rewrite (body_L_red t cx2 a b z k v g kg vg f1 BLACK ul u uk uv ur G). cbn beta iota.
        pose proof (good_set_color_frame _ _ _ _ BLACK G) as G1.
        pose proof (good_set_color _ (FR BLACK (fill (frecolor f1 BLACK) (T RED a z k v b)) g kg vg :: cx2)
                      RED ul u uk uv ur BLACK G1) as G2.
        pose proof (good_set_color _ cx2 BLACK (fill (frecolor f1 BLACK) (T RED a z k v b)) g kg vg
                      (T BLACK ul u uk uv ur) RED G2) as G3.
        inversion Hs2 as [|? ? ? ? ? ? Hul Hur _ _|]; subst.
        destruct (IH _ cx2 _ g kg vg _ (S n) G3) as (tr & n' & Gf & Hf & Ef).
        -- constructor; [|by constructor|destruct f1; reflexivity|reflexivity].
           destruct f1 as [? p kp vp s1|? s1 p kp vp]; simpl in *; by constructor.
        -- rewrite <- (Nat.add_1_r n). by apply ctx_ok_top_of in Hc2.
        -- destruct cx2; [by left|right]. apply Hroot'. discriminate.
        -- lia.
        -- exists tr, n'. split; [done|]. split; [done|]. rewrite Ef.
           apply (elements_plug cx2 _ (fill (FL BLACK g kg vg (T RED ul u uk uv ur)) (fill f1 (T RED a z k v b)))).
           simpl. by rewrite elements_frecolor.
      * (* black uncle *)
        destruct f1 as [c1 p kp vp s1|c1 s1 p kp vp]; simpl in Hc1, Hs1, Hs1c; subst c1.
        -- rewrite (body_LL_black t cx2 a b z k v g kg vg RED BLACK p kp vp s1 s2 G Hu). cbn beta iota.
           pose proof (good_set_color _ (FL BLACK g kg vg s2 :: cx2) RED (T RED a z k v b) p kp vp s1 BLACK G) as G1.
           pose proof (good_set_color _ cx2 BLACK (T BLACK (T RED a z k v b) p kp vp s1) g kg vg s2 RED G1) as G2.
           pose proof (good_right_rotate _ cx2 RED p kg vg BLACK (T RED a z k v b) g kp vp s1 s2 G2) as G3.
           destruct (IH _ (FL BLACK p kp vp (T RED s1 g kg vg s2) :: cx2) a z k v b n G3)
             as (tr & n' & Gf & Hf & Ef).
           ++ done.
           ++ split; [by constructor|]. split; [discriminate|]. exact Hc2.
           ++ right. apply Hroot'. by intros ->.
           ++ simpl. lia.
           ++ exists tr, n'. split; [done|]. split; [done|]. rewrite Ef. cbn [plug fill]. apply elements_plug. elts.
        -- rewrite (body_LR_black t cx2 a b z k v g kg vg RED BLACK p kp vp s1 s2 G Hu). cbn beta iota.
           pose proof (good_left_rotate t (FL BLACK g kg vg s2 :: cx2) RED s1 p kp vp RED a z k v b G) as G0.
           pose proof (good_set_color _ (FL BLACK g kg vg s2 :: cx2) RED (T RED s1 p kp vp a) z k v b BLACK G0) as G1.
           pose proof (good_set_color _ cx2 BLACK (T BLACK (T RED s1 p kp vp a) z k v b) g kg vg s2 RED G1) as G2.
           pose proof (good_right_rotate _ cx2 RED z kg vg BLACK (T RED s1 p kp vp a) g k v b s2 G2) as G3.
           destruct (IH _ (FL BLACK z k v (T RED b g kg vg s2) :: cx2) s1 p kp vp a n G3)
             as (tr & n' & Gf & Hf & Ef).
           ++ by constructor.
           ++ split; [by constructor|]. split; [discriminate|]. exact Hc2.
           ++ right. apply Hroot'. by intros ->.
           ++ simpl. lia.
           ++ exists tr, n'. split; [done|]. split; [done|]. rewrite Ef. cbn [plug fill]. apply elements_plug. elts.
    + (* the parent is a right child *)
      destruct (tcolor s2) eqn:Hu.
      * destruct s2 as [|cu ul u uk uv ur]; [discriminate|]. simpl in Hu. subst cu.
        rewrite (body_R_red t cx2 a b z k v g kg vg f1 BLACK ul u uk uv ur G). cbn beta iota.
        pose proof (good_set_color_frame _ _ _ _ BLACK G) as G1.
        pose proof (good_set_color _ (FL BLACK g kg vg (fill (frecolor f1 BLACK) (T RED a z k v b)) :: cx2)
                      RED ul u uk uv ur BLACK G1) as G2.
        pose proof (good_set_color _ cx2 BLACK (T BLACK ul u uk uv ur) g kg vg
                      (fill (frecolor f1 BLACK) (T RED a z k v b)) RED G2) as G3.
        inversion Hs2 as [|? ? ? ? ? ? Hul Hur _ _|]; subst.
        destruct (IH _ cx2 _ g kg vg _ (S n) G3) as (tr & n' & Gf & Hf & Ef).
        -- constructor; [by constructor| |reflexivity|destruct f1; reflexivity].
           destruct f1 as [? p kp vp s1|? s1 p kp vp]; simpl in *; by constructor.
        -- rewrite <- (Nat.add_1_r n). by apply ctx_ok_top_of in Hc2.
        -- destruct cx2; [by left|right]. apply Hroot'. discriminate.
        -- lia.
        -- exists tr, n'. split; [done|]. split; [done|]. rewrite Ef.
           apply (elements_plug cx2 _ (fill (FR BLACK (T RED ul u uk uv ur) g kg vg) (fill f1 (T RED a z k v b)))).
           simpl. by rewrite elements_frecolor.
      * destruct f1 as [c1 p kp vp s1|c1 s1 p kp vp]; simpl in Hc1, Hs1, Hs1c; subst c1.
        -- rewrite (body_RL_black t cx2 a b z k v g kg vg RED BLACK p kp vp s1 s2 G Hu). cbn beta iota.
           pose proof (good_right_rotate t (FR BLACK s2 g kg vg :: cx2) RED z kp vp RED a p k v b s1 G) as G0.
           pose proof (good_set_color _ (FR BLACK s2 g kg vg :: cx2) RED a z k v (T RED b p kp vp s1) BLACK G0) as G1.
           pose proof (good_set_color _ cx2 BLACK s2 g kg vg (T BLACK a z k v (T RED b p kp vp s1)) RED G1) as G2.
           pose proof (good_left_rotate _ cx2 RED s2 g kg vg BLACK a z k v (T RED b p kp vp s1) G2) as G3.
           destruct (IH _ (FR BLACK (T RED s2 g kg vg a) z k v :: cx2) b p kp vp s1 n G3)
             as (tr & n' & Gf & Hf & Ef).
           ++ by constructor.
           ++ split; [by constructor|]. split; [discriminate|]. exact Hc2.
           ++ right. apply Hroot'. by intros ->.
           ++ simpl. lia.
           ++ exists tr, n'. split; [done|]. split; [done|]. rewrite Ef. cbn [plug fill]. apply elements_plug. elts.
        -- rewrite (body_RR_black t cx2 a b z k v g kg vg RED BLACK p kp vp s1 s2 G Hu). cbn beta iota.
           pose proof (good_set_color _ (FR BLACK s2 g kg vg :: cx2) RED s1 p kp vp (T RED a z k v b) BLACK G) as G1.
           pose proof (good_set_color _ cx2 BLACK s2 g kg vg (T BLACK s1 p kp vp (T RED a z k v b)) RED G1) as G2.
           pose proof (good_left_rotate _ cx2 RED s2 g kg vg BLACK s1 p kp vp (T RED a z k v b) G2) as G3.
           destruct (IH _ (FR BLACK (T RED s2 g kg vg s1) p kp vp :: cx2) a z k v b n G3)
             as (tr & n' & Gf & Hf & Ef).
           ++ done.
           ++ split; [by constructor|]. split; [discriminate|]. exact Hc2.
           ++ right. apply Hroot'. by intros ->.
           ++ simpl. lia.
           ++ exists tr, n'. split; [done|]. split; [done|]. rewrite Ef. cbn [plug fill]. apply elements_plug. elts.
Qed.

Lemma NIL_insert_fixup_loop m : forall t z, NIL (insert_fixup_loop m t z) = NIL t.
Proof.
  induction m as [|m IH]; intros t z; cbn [insert_fixup_loop]; [done|].
  destruct (color_eqb _ _); [|done].
  destruct (insert_fixup_body t z) as [t' z'] eqn:E. rewrite IH.
  pose proof (NIL_insert_fixup_body t z) as H. rewrite E in H. exact H.
Qed.

Lemma NIL_insert_fixup t z : NIL (insert_fixup t z) = NIL t.
Proof. unfold insert_fixup. cbn zeta. apply NIL_insert_fixup_loop. Qed.

Lemma length_cptrs cx : length cx <= length (cptrs cx).
Proof. induction cx; simpl; [lia|]. rewrite length_app. lia. Qed.

Lemma length_cx_lt s cx t : good s (plug cx t) -> length cx < fuel s.
Proof.
  intros G. pose proof (fuel_enough _ _ G) as H.
  rewrite (Permutation_length (ptrs_plug cx t)), length_app in H.
  pose proof (length_cptrs cx). lia.
Qed.

Lemma elements_plug_nonempty cx t : elements t <> [] -> elements (plug cx t) <> [].
Proof.
  revert t; induction cx as [|f cx IH]; intros t H; simpl; [done|]. apply IH.
  destruct f; simpl; intros E; apply app_eq_nil in E as [E1 E2]; first [discriminate | done].
Qed.

Lemma insert_fixup_spec t cx a z k v b n :
  good t (plug cx (T RED a z k v b)) -> is_rb (T RED a z k v b) n -> ctx_ok_top cx n ->
  (cx = [] \/ tcolor (plug cx (T RED a z k v b)) = BLACK) ->
  exists tr n', good (insert_fixup t z) tr /\ is_rb tr n' /\ tcolor tr = BLACK /\
    elements tr = elements (plug cx (T RED a z k v b)).
Proof.
  intros G Hrb Hctx Hroot.
  destruct (insert_fixup_loop_spec (fuel t) t cx a z k v b n G Hrb Hctx Hroot (length_cx_lt _ _ _ G))
    as (tr & n' & Gf & Hf & Ef).
  unfold insert_fixup. cbn zeta.
  destruct tr as [|c l p k' v' r].
  { exfalso. apply (elements_plug_nonempty cx (T RED a z k v b)).
    - simpl. intros E. apply app_eq_nil in E as [_ E]. discriminate.
    - by rewrite <- Ef. }
  rewrite (good_root _ _ Gf). simpl tptr.
  pose proof (good_set_color _ [] c l p k' v' r BLACK Gf) as G'.
  assert (Hc : exists m, is_rb l m /\ is_rb r m) by (inversion Hf; eauto).
  destruct Hc as (m & Hl & Hr).
  exists (T BLACK l p k' v' r), (S m). split; [exact G'|]. split; [by constructor|].
  split; [done|exact Ef].
Qed.

Lemma cpar_app top cx f : cpar top (cx ++ [f]) = cpar (fptr f) cx.
Proof. destruct cx; reflexivity. Qed.

Lemma insert_descent_spec t k : forall sub f y y' x' found tr,
  rep t.(heap) t.(NIL) y sub -> t.(NIL) ∉ ptrs sub -> length (ptrs sub) < f ->
  LockCoupled.insert_descent f t k y (tptr t.(NIL) sub) = (y', x', found, tr) ->
  exists cx hole, sub = plug cx hole /\ Forall (frame_dir_ok k) cx /\
    ((found = true /\ y' = x' /\ exists c a v b, hole = T c a x' k v b) \/
     (found = false /\ hole = E /\ x' = t.(NIL) /\ y' = cpar y cx)).
Proof.
  induction sub as [|c l IHl p kp vp r IHr]; intros f y y' x' found tr Hrep Hnil Hf Hd;
    (destruct f as [|f]; [simpl in Hf; lia|]); cbn [LockCoupled.insert_descent tptr] in Hd.
  - rewrite ptr_eqb_refl in Hd. injection Hd as <- <- <- <-.
    exists [], E. simpl. split; [done|]. split; [constructor|]. right. auto.
  - destruct Hrep as (Hp & Hl & Hr).
    rewrite ptr_eqb_ne in Hd by (intros ->; apply Hnil; left).
    unfold key_of, left_of, right_of in Hd. rewrite (deref_lookup _ _ _ Hp) in Hd. cbn in Hd.
    simpl in Hf. rewrite length_app in Hf.
    destruct (comp k kp) eqn:C1.
    + destruct (LockCoupled.insert_descent f t k p (tptr t.(NIL) l)) as [[[y1 x1] fd1] tr1] eqn:D.
      injection Hd as <- <- <- <-.
      destruct (IHl f p y1 x1 fd1 tr1 Hl ltac:(set_solver) ltac:(lia) D)
        as (cx & hole & -> & Hok & Hres).
      exists (cx ++ [FL c p kp vp r]), hole. rewrite plug_app. split; [done|]. split.
      * apply Forall_app; split; [done|]. constructor; [|constructor]. simpl.
        unfold comp in C1. lia.
      * rewrite cpar_app. exact Hres.
    + destruct (comp kp k) eqn:C2.
      * destruct (LockCoupled.insert_descent f t k p (tptr t.(NIL) r)) as [[[y1 x1] fd1] tr1] eqn:D.
        injection Hd as <- <- <- <-.
        destruct (IHr f p y1 x1 fd1 tr1 Hr ltac:(set_solver) ltac:(lia) D)
          as (cx & hole & -> & Hok & Hres).
        exists (cx ++ [FR c l p kp vp]), hole. rewrite plug_app. split; [done|]. split.
        -- apply Forall_app; split; [done|]. constructor; [|constructor]. simpl.
           unfold comp in C2. lia.
        -- rewrite cpar_app. exact Hres.
      * injection Hd as <- <- <- <-. exists [], (T c l p kp vp r). simpl.
        split; [done|]. split; [constructor|]. left. split; [done|]. split; [done|].
        unfold comp in C1, C2. assert (kp = k) as -> by lia. eauto.
Qed.



Lemma elements_plug_ctx cx t : elements (plug cx t) = lctx cx ++ elements t ++ rctx cx.
Proof.
  revert t; induction cx as [|[c p k v r|c l p k v] cx IH]; intros t; simpl.
  - by rewrite app_nil_r.
  - rewrite IH. simpl. by rewrite <- !app_assoc.
  - rewrite IH. simpl. by rewrite <- !app_assoc.
Qed.


Lemma SS_app (l1 l2 : list (Z * Z)) :
  StronglySorted ltk (l1 ++ l2) <->
  StronglySorted ltk l1 /\ StronglySorted ltk l2 /\ (forall x y, In x l1 -> In y l2 -> ltk x y).
Proof.
  induction l1 as [|a l1 IH]; simpl.
  - split; [intros H; split; [constructor|]; split; [done|]; intros ? ? []|tauto].
  - split.
    + intros H. apply StronglySorted_inv in H as [H1 H2]. apply IH in H1 as (Hs1 & Hs2 & Hx).
      rewrite List.Forall_forall in H2.
      split; [constructor; [done|]|]. 
      * apply List.Forall_forall. intros x Hx'. apply H2. apply in_or_app. by left.
      * split; [done|]. intros x y [<-|Hxl] Hy; [apply H2; apply in_or_app; by right|by apply Hx].
    + intros (H1 & H2 & Hx). apply StronglySorted_inv in H1 as [H1 H3].
      constructor.
      * apply IH. split; [done|]. split; [done|]. intros x y ? ?. apply Hx; [by right|done].
      * apply List.Forall_forall. intros x Hx'. apply in_app_or in Hx' as [Hx'|Hx'].
        -- rewrite List.Forall_forall in H3. by apply H3.
        -- apply Hx; [by left|done].
Qed.

Lemma path_bounds k cx : forall t, StronglySorted ltk (elements (plug cx t)) ->
  Forall (frame_dir_ok k) cx ->
  (forall e, In e (lctx cx) -> (e.1 < k)%Z) /\ (forall e, In e (rctx cx) -> (k < e.1)%Z).
Proof.
  induction cx as [|f cx IH]; intros t Hs Hok; simpl; [split; intros ? []|].
  inversion Hok as [|? ? Hf Hok']; subst.
  destruct (IH (fill f t) Hs Hok') as [IHl IHr].
  change (plug (f :: cx) t) with (plug cx (fill f t)) in Hs. rewrite elements_plug_ctx in Hs. apply SS_app in Hs as (_ & Hs2 & _).
  apply SS_app in Hs2 as (Hs2 & _ & _).
  destruct f as [c p kf vf r|c l p kf vf]; simpl in *.
  - split; [done|]. intros e [<-|He]; [done|]. apply in_app_or in He as [He|He]; [|by apply IHr].
    apply SS_app in Hs2 as (_ & Hs3 & _). simpl in Hs3. apply StronglySorted_inv in Hs3 as [_ Hs3].
    rewrite List.Forall_forall in Hs3. specialize (Hs3 e He). unfold ltk in Hs3. simpl in Hs3. lia.
  - split; [|done]. intros e He. apply in_app_or in He as [He|He]; [by apply IHl|].
    apply in_app_or in He as [He|[<-|[]]]; [|done].
    apply SS_app in Hs2 as (_ & _ & Hx). specialize (Hx e (kf, vf) He (or_introl eq_refl)).
    unfold ltk in Hx. simpl in Hx. lia.
Qed.

Lemma good_fresh s tr : good s tr -> s.(heap) !! s.(brk) = None.
Proof.
  intros G. destruct (s.(heap) !! s.(brk)) eqn:E; [|done].
  assert (H : is_Some (s.(heap) !! s.(brk))) by eauto.
  apply (good_brk _ _ G) in H. lia.
Qed.

Lemma good_brk_pos s tr : good s tr -> (0 < s.(NIL) < s.(brk))%N.
Proof. intros G. apply (good_brk _ _ G). apply (good_dom _ _ G). by left. Qed.

Lemma good_brk_notin s tr : good s tr -> s.(brk) ∉ ptrs tr.
Proof.
  intros G Hin. assert (H : is_Some (s.(heap) !! s.(brk))) by (apply (good_dom _ _ G); by right).
  apply (good_brk _ _ G) in H. lia.
Qed.

Lemma good_brk_bump s tr b :
  good s tr -> (s.(brk) <= b)%N -> good (mkTree s.(root) s.(NIL) s.(heap) b) tr.
Proof.
  intros G Hb. destruct G as [G1 G2 G3 G4 G5 G6]. constructor; cbn; auto.
  intros q Hq. apply G6 in Hq. lia.
Qed.

Lemma good_attach t cx k v s' :
  good t (plug cx E) ->
  s'.(NIL) = t.(NIL) -> s'.(brk) = (t.(brk) + 1)%N ->
  s'.(root) = tptr t.(NIL) (plug cx (T RED E t.(brk) k v E)) ->
  s'.(heap) !! t.(brk) = Some (mkNode k v RED (cpar t.(NIL) cx) t.(NIL) t.(NIL)) ->
  crep s'.(heap) t.(NIL) t.(NIL) cx t.(brk) ->
  (forall q, q <> t.(brk) -> is_Some (s'.(heap) !! q) <-> is_Some (t.(heap) !! q)) ->
  s'.(heap) !! t.(NIL) = t.(heap) !! t.(NIL) ->
  good s' (plug cx (T RED E t.(brk) k v E)).
Proof.
  intros G Hnil Hbrk Hroot Hz Hcx Hdom HN.
  pose proof (good_brk_notin _ _ G) as Hzn. pose proof (good_brk_pos _ _ G) as Hpos.
  pose proof (good_nodup _ _ G) as Hnd.
  assert (Hp1 : ptrs (plug cx (T RED E t.(brk) k v E)) ≡ₚ t.(brk) :: ptrs (plug cx E)).
  { rewrite !ptrs_plug. reflexivity. }
  constructor; rewrite ?Hnil.
  - apply rep_plug. split; [|exact Hcx]. simpl. auto.
  - exact Hroot.
  - rewrite Hp1. apply NoDup_cons in Hnd as [Hn1 Hn2].
    constructor; [|constructor; [|done]].
    + rewrite elem_of_cons. intros [H|H]; [lia|done].
    + done.
  - rewrite HN. apply (good_nil _ _ G).
  - intros q. rewrite Hp1. destruct (decide (q = t.(brk))) as [->|Hq].
    + rewrite Hz. split; [intros _; right; left|eauto].
    + rewrite Hdom by done. rewrite (good_dom _ _ G). set_solver.
  - intros q. rewrite Hbrk. destruct (decide (q = t.(brk))) as [->|Hq]; [lia|].
    rewrite Hdom by done. intros H. apply (good_brk _ _ G) in H. lia.
Qed.

Lemma Forall_fst (P : Z -> Prop) (l1 l2 : list (Z * Z)) :
  map fst l1 = map fst l2 -> List.Forall (fun y => P y.1) l1 -> List.Forall (fun y => P y.1) l2.
Proof.
  revert l2; induction l1 as [|a l1 IH]; intros [|b l2] Hm Hf; simpl in Hm; try discriminate; [constructor|].
  injection Hm as Hab Hm. inversion Hf; subst. constructor; [by rewrite <- Hab|]. by apply IH.
Qed.

Lemma SS_fst (l1 l2 : list (Z * Z)) :
  map fst l1 = map fst l2 -> StronglySorted ltk l1 -> StronglySorted ltk l2.
Proof.
  revert l2; induction l1 as [|a l1 IH]; intros [|b l2] Hm Hs; simpl in Hm; try discriminate; [constructor|].
  injection Hm as Hab Hm. apply StronglySorted_inv in Hs as [Hs Hf]. constructor; [by apply IH|].
  unfold ltk. rewrite <- Hab. apply (Forall_fst (fun z => (a.1 < z)%Z) l1); done.
Qed.

Lemma sorted_split L1 x L2 : StronglySorted ltk (L1 ++ [x] ++ L2) ->
  (forall e, In e L1 -> ltk e x) /\ (forall e, In e L2 -> ltk x e).
Proof.
  intros H. apply SS_app in H as (_ & H2 & H3). split.
  - intros e He. apply H3; [done|]. by left.
  - intros e He. simpl in H2. apply StronglySorted_inv in H2 as [_ H2].
    rewrite List.Forall_forall in H2. by apply H2.
Qed.

Ltac hne := first [done | intros ->; contradiction | intros <-; contradiction | lia | set_solver].

Lemma insert_spec t tr n k v :
  good t tr -> is_rb tr n -> tcolor tr = BLACK -> keys_sorted tr ->
  exists tr' n', good (fst (LockCoupled.insert t k v)) tr' /\ is_rb tr' n' /\
    tcolor tr' = BLACK /\ keys_sorted tr' /\
    exists L R, (elements tr = L ++ R \/ exists v0, elements tr = L ++ [(k, v0)] ++ R) /\
      elements tr' = L ++ [(k, v)] ++ R /\
      (forall e, In e L -> (e.1 < k)%Z) /\ (forall e, In e R -> (k < e.1)%Z).
Proof.
  intros G Hrb Hbl Hs.
  pose proof (good_fresh _ _ G) as Hfr. pose proof (good_brk_notin _ _ G) as Hzn.
  pose proof (good_brk_pos _ _ G) as Hpos. pose proof (good_nil_notin _ _ G) as Hni.
  pose proof (fuel_enough _ _ G) as Hfu.
  unfold LockCoupled.insert, alloc. cbv beta iota zeta.
  match goal with |- context [set_left (set_right (set_parent ?X ?z ?n1) ?z2 ?n2) ?z3 ?n3] =>
    set (t2 := set_left (set_right (set_parent X z n1) z2 n2) z3 n3) end.
  assert (Ht2 : t2 = mkTree t.(root) t.(NIL)
            (<[t.(brk) := mkNode k v RED t.(NIL) t.(NIL) t.(NIL)]> t.(heap)) (t.(brk) + 1)).
  { subst t2. unfold set_left, set_right, set_parent, store, deref; cbn.
    rewrite !lookup_insert_eq. cbn. rewrite !insert_insert_eq. reflexivity. }
  clearbody t2. subst t2. cbn [root NIL heap brk].
  set (h2 := <[t.(brk) := mkNode k v RED t.(NIL) t.(NIL) t.(NIL)]> t.(heap)).
  assert (Hrep2 : rep h2 t.(NIL) t.(NIL) tr).
  { eapply rep_agree; [apply (good_rep _ _ G)|]. intros q Hq. subst h2.
    rewrite lookup_insert_ne; [done|]. hne. }
  destruct (LockCoupled.insert_descent _ _ k t.(NIL) t.(root)) as [[[y' x'] found] trc] eqn:D.
  assert (D' : LockCoupled.insert_descent (fuel (mkTree t.(root) t.(NIL) h2 (t.(brk) + 1)))
     (mkTree t.(root) t.(NIL) h2 (t.(brk) + 1)) k t.(NIL) (tptr t.(NIL) tr) = (y', x', found, trc))
    by (rewrite <- (good_root _ _ G); exact D).
  assert (Hf2 : length (ptrs tr) < fuel (mkTree t.(root) t.(NIL) h2 (t.(brk) + 1))).
  { unfold fuel in *. cbn. subst h2. rewrite map_size_insert_None by done. lia. }
  destruct (insert_descent_spec (mkTree t.(root) t.(NIL) h2 (t.(brk) + 1)) k tr _ _ _ _ _ _
              Hrep2 Hni Hf2 D') as (cx & hole & -> & Hok & Hres).
  pose proof Hs as Hs'. unfold keys_sorted in Hs'. change (StronglySorted ltk (elements (plug cx hole))) in Hs'.
  destruct (path_bounds k cx hole Hs' Hok) as [HL HR].
  destruct Hres as [(-> & -> & c & a & v0 & b & ->) | (-> & -> & -> & ->)].
  - (* the key is present: its value is replaced and the new node freed *)
    cbn beta iota. cbn [fst].
    assert (Hx : x' <> t.(brk)) by (intros ->; apply Hzn; rewrite ptrs_plug; simpl; set_solver).
    assert (Hst : free (set_val (mkTree t.(root) t.(NIL) h2 (t.(brk) + 1)) x' v) t.(brk) =
                  mkTree (set_val t x' v).(root) (set_val t x' v).(NIL) (set_val t x' v).(heap)
                         (t.(brk) + 1)).
    { unfold free, set_val, store, deref; cbn. subst h2.
      rewrite lookup_insert_ne by hne. rewrite delete_insert_ne by hne.
      rewrite delete_insert_id by done. reflexivity. }
    rewrite Hst.
    destruct (plug_ctx_ok cx _ _ Hrb) as (n0 & Hn0 & Hc0).
    assert (Hn1 : is_rb (T c a x' k v b) n0) by (inversion Hn0; subst; constructor; auto).
    destruct (ctx_ok_plug cx _ _ Hn1 Hc0) as [m Hm].
    exists (plug cx (T c a x' k v b)), m. split; [|split; [exact Hm|split; [|split]]].
    + apply good_brk_bump; [apply (good_set_val t cx c a x' k v0 b v G)|]. cbn. lia.
    + rewrite <- Hbl. by apply tcolor_plug_eq.
    + unfold keys_sorted. change (StronglySorted ltk (elements (plug cx (T c a x' k v b)))).
      refine (SS_fst _ _ _ Hs'). rewrite !elements_plug_ctx; simpl; rewrite !map_app; reflexivity.
    + rewrite elements_plug_ctx in Hs'. simpl in Hs'.
      assert (Hs2 : StronglySorted ltk (lctx cx ++ elements a ++ [(k, v0)] ++ elements b ++ rctx cx))
        by (rewrite <- !app_assoc in Hs'; exact Hs').
      rewrite app_assoc in Hs2. apply sorted_split in Hs2 as [Hl Hr].
      exists (lctx cx ++ elements a), (elements b ++ rctx cx). split; [|split; [|split]].
      * right. exists v0. rewrite elements_plug_ctx. simpl. by rewrite <- !app_assoc.
      * rewrite elements_plug_ctx. simpl. by rewrite <- !app_assoc.
      * intros e He. specialize (Hl e He). exact Hl.
      * intros e He. specialize (Hr e He). exact Hr.
  - (* the key is absent: the new node is linked under [cpar NIL cx] *)
    cbn beta iota. cbn [fst]. rewrite ?NIL_set_parent. cbn [NIL].
    match goal with |- context [insert_fixup ?S t.(brk)] => set (t4 := S) end.
    set (z := t.(brk)) in *.
    assert (Hg4 : good t4 (plug cx (T RED E z k v E))).
    { pose proof (good_nodup _ _ G) as Hnd. rewrite ptrs_plug in Hnd. rewrite ptrs_plug in Hzn.
      simpl in Hnd, Hzn.
      destruct cx as [|f cx'].
      - subst t4. simpl. rewrite ptr_eqb_refl.
        apply (good_attach t [] k v); [exact G|..]; try reflexivity; cbn; subst h2.
        + unfold deref. cbn. rewrite !lookup_insert_eq. reflexivity.
        + intros q Hq. rewrite !lookup_insert_ne by hne. done.
        + rewrite !lookup_insert_ne by hne. done.
      - pose proof (good_rep _ _ G) as Hr0. apply rep_plug in Hr0 as [_ Hcr].
        cbn [crep] in Hcr. destruct Hcr as (Hpf & Hsib & Hcx').
        apply NoDup_cons in Hnd as [Hn1 Hn2]. apply NoDup_cons in Hn2 as [Hn3 Hn4].
        assert (Hp0 : fptr f <> t.(NIL)) by hne.
        assert (Hpz : fptr f <> z) by hne.
        subst t4. cbn [cpar]. rewrite ptr_eqb_ne by done.
        unfold key_of. rewrite !deref_set_parent. rewrite dec_refl, dec_ne by hne.
        unfold deref at 1 2. cbn. subst h2. rewrite lookup_insert_eq, lookup_insert_ne by hne.
        rewrite Hpf. cbn.
        inversion Hok as [|? ? Hdir _]; subst.
        destruct f as [c p kf vf r|c l p kf vf]; cbn [frame_dir_ok fptr fsib frame_node] in *; cbn [key].
        + assert (Ec : comp k kf = true) by (unfold comp; lia). rewrite Ec.
          apply (good_attach t (FL c p kf vf r :: cx') k v); [exact G|..]; try reflexivity; cbn.
          * rewrite (good_root _ _ G). exact (tptr_plug_cons _ (FL c p kf vf r) cx' E (T RED E z k v E)).
          * rewrite lookup_insert_ne, lookup_insert_eq by hne. unfold deref; cbn.
            rewrite lookup_insert_eq. reflexivity.
          * unfold deref; cbn. rewrite lookup_insert_eq, lookup_insert_ne by hne.
            rewrite lookup_insert_ne by hne. rewrite Hpf. cbn. split; [done|]. split.
            -- eapply rep_agree; [exact Hsib|]. intros q Hq. rewrite !lookup_insert_ne by hne. done.
            -- eapply crep_agree; [exact Hcx'|]. intros q Hq. rewrite !lookup_insert_ne by hne. done.
          * intros q Hq. rewrite !lookup_insert_is_Some'.
            split; [intros [<-|[<-|[<-|H]]]; [eexists; exact Hpf|exfalso; by apply Hq|exfalso; by apply Hq|exact H]|auto].
          * rewrite !lookup_insert_ne by hne. done.
        + assert (Ec : comp k kf = false) by (unfold comp; lia). rewrite Ec.
          apply (good_attach t (FR c l p kf vf :: cx') k v); [exact G|..]; try reflexivity; cbn.
          * rewrite (good_root _ _ G). exact (tptr_plug_cons _ (FR c l p kf vf) cx' E (T RED E z k v E)).
          * rewrite lookup_insert_ne, lookup_insert_eq by hne. unfold deref; cbn.
            rewrite lookup_insert_eq. reflexivity.
          * unfold deref; cbn. rewrite lookup_insert_eq, lookup_insert_ne by hne.
            rewrite lookup_insert_ne by hne. rewrite Hpf. cbn. split; [done|]. split.
            -- eapply rep_agree; [exact Hsib|]. intros q Hq. rewrite !lookup_insert_ne by hne. done.
            -- eapply crep_agree; [exact Hcx'|]. intros q Hq. rewrite !lookup_insert_ne by hne. done.
          * intros q Hq. rewrite !lookup_insert_is_Some'.
            split; [intros [<-|[<-|[<-|H]]]; [eexists; exact Hpf|exfalso; by apply Hq|exfalso; by apply Hq|exact H]|auto].
          * rewrite !lookup_insert_ne by hne. done. }
    destruct (plug_ctx_ok cx _ _ Hrb) as (n0 & Hn0 & Hc0). inversion Hn0; subst n0.
    assert (Hroot : cx = [] \/ tcolor (plug cx (T RED E z k v E)) = BLACK).
    { destruct cx as [|f cx']; [by left|right]. rewrite <- Hbl. apply tcolor_plug_cons. }
    destruct (insert_fixup_spec t4 cx E z k v E 0 Hg4 ltac:(constructor; auto; constructor)
                (ctx_ok_top_of _ _ _ Hc0) Hroot) as (tr' & n' & G' & Hrb' & Hbl' & Hel).
    exists tr', n'. split; [done|]. split; [done|]. split; [done|].
    rewrite elements_plug_ctx in Hs'. simpl in Hs'. apply SS_app in Hs' as (HsL & HsR & _).
    split.
    + unfold keys_sorted. change (StronglySorted ltk (elements tr')).
      rewrite Hel, elements_plug_ctx. simpl. apply SS_app. split; [done|]. split.
      * constructor; [done|]. apply List.Forall_forall. intros e He. apply HR, He.
      * intros x y Hx [<-|Hy].
        -- apply HL, Hx.
        -- unfold ltk. specialize (HL x Hx). specialize (HR y Hy). lia.
    + exists (lctx cx), (rctx cx). split; [left; by rewrite elements_plug_ctx|].
      split; [by rewrite Hel, elements_plug_ctx|]. auto.
Qed.

Lemma find_key_app k l1 l2 :
  find_key k (l1 ++ l2) = match find_key k l1 with Some v => Some v | None => find_key k l2 end.
Proof. induction l1 as [|[k' v] l1 IH]; simpl; [done|]. by destruct (Z.eqb k k'). Qed.

Lemma find_key_none k l : (forall e, In e l -> e.1 <> k) -> find_key k l = None.
Proof.
  induction l as [|[k' v] l IH]; intros H; simpl; [done|].
  destruct (Z.eqb_spec k k') as [->|]; [exfalso; apply (H (k', v)); [by left|done]|].
  apply IH. intros e He. apply H. by right.
Qed.

Lemma lookup_loop_spec t k : forall sub f par,
  rep t.(heap) t.(NIL) par sub -> t.(NIL) ∉ ptrs sub -> length (ptrs sub) < f ->
  StronglySorted ltk (elements sub) ->
  fst (LockCoupled.lookup_loop f t k (tptr t.(NIL) sub)) = find_key k (elements sub).
Proof.
  induction sub as [|c l IHl p kp vp r IHr]; intros f par Hrep Hnil Hf Hs;
    (destruct f as [|f]; [simpl in Hf; lia|]); cbn [LockCoupled.lookup_loop tptr].
  - by rewrite ptr_eqb_refl.
  - destruct Hrep as (Hp & Hl & Hr).
    rewrite ptr_eqb_ne by (intros ->; apply Hnil; left).
    unfold key_of, val_of, left_of, right_of. rewrite (deref_lookup _ _ _ Hp). cbn.
    simpl in Hf. rewrite length_app in Hf.
    pose proof Hs as Hs0. cbn [elements] in Hs. apply sorted_split in Hs as [HLt HGt].
    pose proof Hs0 as Hs1. cbn [elements] in Hs1. apply SS_app in Hs1 as (HsL & HsR & _).
    simpl in HsR. apply StronglySorted_inv in HsR as [HsR _].
    cbn [elements]. rewrite !find_key_app. cbn [find_key].
    destruct (comp k kp) eqn:C1; [|destruct (comp kp k) eqn:C2]; unfold comp in *.
    + destruct (LockCoupled.lookup_loop f t k (tptr t.(NIL) l)) as [res tr] eqn:E.
      cbn. rewrite <- (IHl f p Hl ltac:(set_solver) ltac:(lia) HsL), E. cbn.
      destruct res; [done|]. assert (Hk : (k =? kp)%Z = false) by lia. rewrite Hk.
      symmetry. apply find_key_none. intros e He. specialize (HGt e He). unfold ltk in HGt. cbn in HGt. lia.
    + destruct (LockCoupled.lookup_loop f t k (tptr t.(NIL) r)) as [res tr] eqn:E.
      cbn. rewrite <- (IHr f p Hr ltac:(set_solver) ltac:(lia) HsR), E. cbn.
      rewrite find_key_none; [|intros e He; specialize (HLt e He); unfold ltk in HLt; cbn in HLt; lia].
      assert (Hk : (k =? kp)%Z = false) by lia. by rewrite Hk.
    + cbn. rewrite find_key_none; [|intros e He; specialize (HLt e He); unfold ltk in HLt; cbn in HLt; lia].
      assert (Hk : (k =? kp)%Z = true) by lia. by rewrite Hk.
Qed.

Lemma lookup_spec s tr k : good s tr -> keys_sorted tr ->
  fst (LockCoupled.lookup s k) = find_key k (elements tr).
Proof.
  intros G Hs. unfold LockCoupled.lookup.
  destruct (LockCoupled.lookup_loop (fuel s) s k s.(root)) as [r tr'] eqn:E. cbn.
  rewrite (good_root _ _ G) in E.
  rewrite <- (lookup_loop_spec s k tr (fuel s) s.(NIL) (good_rep _ _ G) (good_nil_notin _ _ G)
                (fuel_enough _ _ G) Hs), E. done.
Qed.

Lemma erase_search_spec t k : forall sub f par,
  rep t.(heap) t.(NIL) par sub -> t.(NIL) ∉ ptrs sub -> length (ptrs sub) < f ->
  exists cx hole, sub = plug cx hole /\ Forall (frame_dir_ok k) cx /\
    erase_search f t k (tptr t.(NIL) sub) = tptr t.(NIL) hole /\
    (hole = E \/ exists c a z v b, hole = T c a z k v b).
Proof.
  induction sub as [|c l IHl p kp vp r IHr]; intros f par Hrep Hnil Hf;
    (destruct f as [|f]; [simpl in Hf; lia|]); cbn [erase_search tptr].
  - rewrite ptr_eqb_refl. exists [], E. simpl. split; [done|]. split; [constructor|]. auto.
  - destruct Hrep as (Hp & Hl & Hr).
    rewrite ptr_eqb_ne by (intros ->; apply Hnil; left).
    unfold key_of, left_of, right_of. rewrite (deref_lookup _ _ _ Hp). cbn.
    simpl in Hf. rewrite length_app in Hf.
    destruct (Z.eqb_spec k kp) as [<-|Hne]; cbn.
    + exists [], (T c l p k vp r). simpl. split; [done|]. split; [constructor|]. split; [done|].
      right. eauto 10.
    + destruct (comp k kp) eqn:C1.
      * destruct (IHl f p Hl ltac:(set_solver) ltac:(lia)) as (cx & hole & -> & Hok & Hs & Hh).
        exists (cx ++ [FL c p kp vp r]), hole. rewrite plug_app. split; [done|].
        split; [|done]. apply Forall_app; split; [done|]. constructor; [|constructor].
        simpl. unfold comp in C1. lia.
      * destruct (IHr f p Hr ltac:(set_solver) ltac:(lia)) as (cx & hole & -> & Hok & Hs & Hh).
        exists (cx ++ [FR c l p kp vp]), hole. rewrite plug_app. split; [done|].
        split; [|done]. apply Forall_app; split; [done|]. constructor; [|constructor].
        simpl. unfold comp in C1. lia.
Qed.

Ltac emoves_tail Hroot :=
  split; [|split; [first [done | rewrite Hroot; apply tptr_plug_cons] |split; [done|split; [done|split]]]];
  [ apply rep_plug; cbn [rep plug fill cpar crep tptr fptr fsib frame_node]; rd;
    repeat split; try done; agree_side
  | eexists; split; [rd; reflexivity|first [done | let H := fresh in intros H; discriminate]]
  | let q := fresh "q" in let Hq := fresh "Hq" in let Hq' := fresh "Hq'" in
    intros q Hq Hq'; rewrite ?ptrs_plug in Hq; cbn [plug fill ptrs app cptrs fsib fptr] in Hq;
    rdq ltac:(intro; subst; first [apply Hq; in_list | contradiction]); done ].

Lemma erase_left_nil s cx cz z kz vz b :
  good s (plug cx (T cz E z kz vz b)) ->
  emoves s (transplant s z (right_of s z)) (plug cx (T cz E z kz vz b)) cx b.
Proof.
  intros G. pose proof (good_rep _ _ G) as Hrep. pose proof (good_root _ _ G) as Hroot.
  pose proof (good_nodup _ _ G) as Hnd. destruct (good_nil _ _ G) as [par0 Hn0].
  apply deref_lookup in Hn0 as Dn0.
  apply rep_plug in Hrep as [Hsub Hcx]. cbn [rep] in Hsub. destruct Hsub as (Hz & _ & Hb).
  rewrite ptrs_plug in Hnd. cbn [ptrs] in Hnd.
  apply deref_lookup in Hz as Dz.
  destruct b as [|bc bl bp bk bv br]; [|destruct Hb as (Hbp & Hbl & Hbr)];
    (destruct cx as [|[fc fp fk fv fr|fc fl fp fk fv] cx']; [|destruct Hcx as (Hf & Hfs & Hcx')|destruct Hcx as (Hf & Hfs & Hcx')]);
    cbn [cptrs fsib fptr ptrs app] in *.
  all: try (apply deref_lookup in Hf as Df; cbn [frame_node cpar tptr fill] in Df).
  all: try (apply deref_lookup in Hbp as Dbp).
  - assert (HW : NoDup ([NIL s; z] ++ [])) by (revert Hnd; apply NoDup_Permutation_proper; solve_Permutation).
    wfacts HW.
    cbv delta [transplant]; exec; unfold emoves; rd.
    emoves_tail Hroot.
  - assert (HW : NoDup ([NIL s; z; fp] ++ ptrs fr ++ cptrs cx')) by
      (revert Hnd; apply NoDup_Permutation_proper; solve_Permutation).
    wfacts HW.
    cbv delta [transplant]; exec; unfold emoves; rd.
    emoves_tail Hroot.
  - assert (HW : NoDup ([NIL s; z; fp] ++ ptrs fl ++ cptrs cx')) by
      (revert Hnd; apply NoDup_Permutation_proper; solve_Permutation).
    wfacts HW.
    assert (z <> tptr (NIL s) fl) by
      (destruct (tptr_cases (NIL s) fl) as [->|Hfl]; [neq|pose proof (HR (tptr (NIL s) fl) ltac:(in_list)) as Hn; intros Heq; apply Hn; rewrite <- Heq; in_list]).
    cbv delta [transplant]; exec; unfold emoves; rd.
    emoves_tail Hroot.
  - assert (HW : NoDup ([NIL s; z; bp] ++ ptrs bl ++ ptrs br)) by
      (revert Hnd; apply NoDup_Permutation_proper; solve_Permutation).
    wfacts HW.
    cbv delta [transplant]; exec; unfold emoves; rd.
    emoves_tail Hroot.
  - assert (HW : NoDup ([NIL s; z; bp; fp] ++ ptrs bl ++ ptrs br ++ ptrs fr ++ cptrs cx')) by
      (revert Hnd; apply NoDup_Permutation_proper; solve_Permutation).
    wfacts HW.
    cbv delta [transplant]; exec; unfold emoves; rd.
    emoves_tail Hroot.
  - assert (HW : NoDup ([NIL s; z; bp; fp] ++ ptrs bl ++ ptrs br ++ ptrs fl ++ cptrs cx')) by
      (revert Hnd; apply NoDup_Permutation_proper; solve_Permutation).
    wfacts HW.
    assert (z <> tptr (NIL s) fl) by
      (destruct (tptr_cases (NIL s) fl) as [->|Hfl]; [neq|pose proof (HR (tptr (NIL s) fl) ltac:(in_list)) as Hn; intros Heq; apply Hn; rewrite <- Heq; in_list]).
    cbv delta [transplant]; exec; unfold emoves; rd.
    emoves_tail Hroot.
Qed.

Lemma erase_right_nil s cx cz z kz vz b :
  good s (plug cx (T cz b z kz vz E)) ->
  emoves s (transplant s z (left_of s z)) (plug cx (T cz b z kz vz E)) cx b.
Proof.
  intros G. pose proof (good_rep _ _ G) as Hrep. pose proof (good_root _ _ G) as Hroot.
  pose proof (good_nodup _ _ G) as Hnd. destruct (good_nil _ _ G) as [par0 Hn0].
  apply deref_lookup in Hn0 as Dn0.
  apply rep_plug in Hrep as [Hsub Hcx]. cbn [rep] in Hsub. destruct Hsub as (Hz & Hb & _).
  rewrite ptrs_plug in Hnd. cbn [ptrs] in Hnd.
  apply deref_lookup in Hz as Dz.
  destruct b as [|bc bl bp bk bv br]; [|destruct Hb as (Hbp & Hbl & Hbr)];
    (destruct cx as [|[fc fp fk fv fr|fc fl fp fk fv] cx']; [|destruct Hcx as (Hf & Hfs & Hcx')|destruct Hcx as (Hf & Hfs & Hcx')]);
    cbn [cptrs fsib fptr ptrs app] in *.
  all: try (apply deref_lookup in Hf as Df; cbn [frame_node cpar tptr fill] in Df).
  all: try (apply deref_lookup in Hbp as Dbp).
  - assert (HW : NoDup ([NIL s; z] ++ [])) by (revert Hnd; apply NoDup_Permutation_proper; solve_Permutation).
    wfacts HW.
    cbv delta [transplant]; exec; unfold emoves; rd.
    emoves_tail Hroot.
  - assert (HW : NoDup ([NIL s; z; fp] ++ ptrs fr ++ cptrs cx')) by
      (revert Hnd; apply NoDup_Permutation_proper; solve_Permutation).
    wfacts HW.
    cbv delta [transplant]; exec; unfold emoves; rd.
    emoves_tail Hroot.
  - assert (HW : NoDup ([NIL s; z; fp] ++ ptrs fl ++ cptrs cx')) by
      (revert Hnd; apply NoDup_Permutation_proper; solve_Permutation).
    wfacts HW.
    assert (z <> tptr (NIL s) fl) by
      (destruct (tptr_cases (NIL s) fl) as [->|Hfl]; [neq|pose proof (HR (tptr (NIL s) fl) ltac:(in_list)) as Hn; intros Heq; apply Hn; rewrite <- Heq; in_list]).
    cbv delta [transplant]; exec; unfold emoves; rd.
    emoves_tail Hroot.
  - assert (HW : NoDup ([NIL s; z; bp] ++ ptrs bl ++ ptrs br)) by
      (revert Hnd; apply NoDup_Permutation_proper; solve_Permutation).
    wfacts HW.
    cbv delta [transplant]; exec; unfold emoves; rd.
    emoves_tail Hroot.
  - assert (HW : NoDup ([NIL s; z; bp; fp] ++ ptrs bl ++ ptrs br ++ ptrs fr ++ cptrs cx')) by
      (revert Hnd; apply NoDup_Permutation_proper; solve_Permutation).
    wfacts HW.
    cbv delta [transplant]; exec; unfold emoves; rd.
    emoves_tail Hroot.
  - assert (HW : NoDup ([NIL s; z; bp; fp] ++ ptrs bl ++ ptrs br ++ ptrs fl ++ cptrs cx')) by
      (revert Hnd; apply NoDup_Permutation_proper; solve_Permutation).
    wfacts HW.
    assert (z <> tptr (NIL s) fl) by
      (destruct (tptr_cases (NIL s) fl) as [->|Hfl]; [neq|pose proof (HR (tptr (NIL s) fl) ltac:(in_list)) as Hn; intros Heq; apply Hn; rewrite <- Heq; in_list]).
    cbv delta [transplant]; exec; unfold emoves; rd.
    emoves_tail Hroot.
Qed.

Lemma cpar_app2 top c1 c2 : cpar top (c1 ++ c2) = cpar (cpar top c2) c1.
Proof. by destruct c1. Qed.

Lemma crep_app h nil top c1 c2 t :
  crep h nil top (c1 ++ c2) (tptr nil t) <->
  crep h nil (cpar top c2) c1 (tptr nil t) /\ crep h nil top c2 (tptr nil (plug c1 t)).
Proof.
  revert t; induction c1 as [|f c1 IH]; intros t; simpl; [tauto|].
  rewrite cpar_app2.
  assert (E : fptr f = tptr nil (fill f t)) by (by destruct f).
  rewrite E, IH. simpl. rewrite <- E. tauto.
Qed.

Lemma minimum_loop_spec t : forall sub f par,
  rep t.(heap) t.(NIL) par sub -> t.(NIL) ∉ ptrs sub -> length (ptrs sub) < f -> sub <> E ->
  exists dx cy y ky vy yr, sub = plug dx (T cy E y ky vy yr) /\ Forall is_FL dx /\
    minimum_loop f t (tptr t.(NIL) sub) = y.
Proof.
  induction sub as [|c l IHl p kp vp r IHr]; intros f par Hrep Hnil Hf Hne; [done|].
  destruct f as [|f]; [simpl in Hf; lia|]. cbn [minimum_loop tptr].
  destruct Hrep as (Hp & Hl & Hr).
  unfold left_of. rewrite (deref_lookup _ _ _ Hp). cbn.
  simpl in Hf. rewrite length_app in Hf.
  destruct l as [|cl ll lp lk lv lr].
  - rewrite ptr_eqb_refl. cbn. exists [], c, p, kp, vp, r. simpl. split; [done|]. split; [constructor|done].
  - cbn [tptr]. rewrite ptr_eqb_ne by (intros ->; apply Hnil; set_solver). cbn.
    destruct (IHl f p Hl ltac:(set_solver) ltac:(lia) ltac:(done)) as (dx & cy & y & ky & vy & yr & Hd & Hfl & Hm).
    exists (dx ++ [FL c p kp vp r]), cy, y, ky, vy, yr. rewrite plug_app, <- Hd. split; [done|]. split.
    + apply Forall_app. split; [done|]. constructor; [done|constructor].
    + exact Hm.
Qed.

(* ------------------------------------------------------------------ *)
(** * Further properties of the tree operations *)

Lemma node_eqb_true a b : node_eqb a b = true -> a = b.
Proof.
  destruct a as [k1 v1 c1 p1 l1 r1], b as [k2 v2 c2 p2 l2 r2]. unfold node_eqb; cbn.
  rewrite !andb_true_iff, Z.eqb_eq, Z.eqb_eq, !N.eqb_eq.
  intros (((((-> & ->) & Hc) & ->) & ->) & ->). by destruct c1, c2.
Qed.

Lemma rep_check_sound h nil t : forall par, rep_check h nil par t = true -> rep h nil par t.
Proof.
  induction t as [|c l IHl p k v r IHr]; intros par; simpl; [done|].
  rewrite !andb_true_iff. intros ((Hp & Hl) & Hr).
  split; [|split; auto].
  destruct (h !! p) as [n|]; [|done]. apply node_eqb_true in Hp. by subst.
Qed.

Lemma good_check_sound s tr : good_check s tr = true -> good s tr.
Proof.
  unfold good_check. rewrite !andb_true_iff.
  intros (((((Hrep & Hroot) & Hnd) & Hnil) & Hin) & Hdom).
  apply N.eqb_eq in Hroot. apply bool_decide_eq_true in Hnd.
  rewrite forallb_forall in Hin, Hdom.
  assert (Hd : forall q, is_Some (s.(heap) !! q) -> q ∈ s.(NIL) :: ptrs tr /\ (0 < q < s.(brk))%N).
  { intros q [n Hq]. apply elem_of_map_to_list in Hq. apply list_elem_of_In in Hq.
    specialize (Hdom _ Hq). cbn in Hdom. rewrite !andb_true_iff, bool_decide_eq_true, !N.ltb_lt in Hdom.
    destruct Hdom as ((? & ?) & ?). split; [done|lia]. }
  split.
  - by apply rep_check_sound.
  - done.
  - done.
  - destruct (s.(heap) !! s.(NIL)) as [n|]; [|done]. apply node_eqb_true in Hnil.
    exists n.(parent). by rewrite <- Hnil.
  - intros q. split.
    + intros Hq. apply Hd in Hq as [Hq _]. by apply elem_of_cons in Hq.
    + intros [->|Hq].
      * destruct (s.(heap) !! s.(NIL)); [by eexists|done].
      * apply list_elem_of_In in Hq. specialize (Hin _ Hq).
        destruct (s.(heap) !! q); [by eexists|done].
  - intros q Hq. by apply Hd in Hq as [_ ?].
Qed.


Ltac good_by_check := apply good_check_sound; vm_compute; reflexivity.

(** X1: [left_rotate(x)] on a node [x] whose right child [y] is a real node
    turns the heap into the tree rotated left at [x] ([y] takes [x]'s place,
    [x] becomes [y]'s left child, [y]'s old left subtree becomes [x]'s right
    subtree), and keeps the in-order sequence of entries. *)
Theorem left_rotate_correct s cx c a x k v c' b y k' v' g :
  good s (plug cx (T c a x k v (T c' b y k' v' g))) ->
  good (left_rotate s x) (plug cx (T c' (T c a x k v b) y k' v' g)) /\
  elements (plug cx (T c' (T c a x k v b) y k' v' g)) =
  elements (plug cx (T c a x k v (T c' b y k' v' g))).
Proof.
  intros G. split; [by apply good_left_rotate|].
  apply elements_plug. simpl. by rewrite <- !app_assoc.
Qed.

Lemma left_rotate_correct_witness :
  good tree_1_2 (plug [] (T BLACK E 2 1 10 (T RED E 3 2 20 E))) /\
  (good (left_rotate tree_1_2 2) (plug [] (T RED (T BLACK E 2 1 10 E) 3 2 20 E)) /\
   elements (plug [] (T RED (T BLACK E 2 1 10 E) 3 2 20 E)) =
   elements (plug [] (T BLACK E 2 1 10 (T RED E 3 2 20 E)))).
Proof.
  split; [good_by_check|].
  apply (left_rotate_correct tree_1_2 [] BLACK E 2 1 10 RED E 3 2 20 E). good_by_check.
Defined.

(** X2: [right_rotate(y)] on a node [y] whose left child [x] is a real node
    turns the heap into the tree rotated right at [y], and keeps the
    in-order sequence of entries. *)
Theorem right_rotate_correct s cx c x k v c' a y k' v' b g :
  good s (plug cx (T c (T c' a x k' v' b) y k v g)) ->
  good (right_rotate s y) (plug cx (T c' a x k' v' (T c b y k v g))) /\
  elements (plug cx (T c' a x k' v' (T c b y k v g))) =
  elements (plug cx (T c (T c' a x k' v' b) y k v g)).
Proof.
  intros G. split; [by apply good_right_rotate|].
  apply elements_plug. simpl. by rewrite <- !app_assoc.
Qed.

Lemma right_rotate_correct_witness :
  good tree_2_1 (plug [] (T BLACK (T RED E 3 1 10 E) 2 2 20 E)) /\
  (good (right_rotate tree_2_1 2) (plug [] (T RED E 3 1 10 (T BLACK E 2 2 20 E))) /\
   elements (plug [] (T RED E 3 1 10 (T BLACK E 2 2 20 E))) =
   elements (plug [] (T BLACK (T RED E 3 1 10 E) 2 2 20 E))).
Proof.
  split; [good_by_check|].
  apply (right_rotate_correct tree_2_1 [] BLACK 3 2 20 RED E 2 1 10 E E). good_by_check.
Defined.

(** X3: [insert_fixup(z)] on a RED node [z] whose subtree is red-black, whose
    path to the root is red-black except that [z]'s parent may be RED, and
    whose root is BLACK unless [z] is the root, leaves a red-black tree with
    BLACK root and the same in-order sequence of entries. *)
Theorem insert_fixup_correct t cx a z k v b n :
  good t (plug cx (T RED a z k v b)) -> is_rb (T RED a z k v b) n -> ctx_ok_top cx n ->
  (cx = [] \/ tcolor (plug cx (T RED a z k v b)) = BLACK) ->
  exists tr n', good (insert_fixup t z) tr /\ is_rb tr n' /\ tcolor tr = BLACK /\
    elements tr = elements (plug cx (T RED a z k v b)).
Proof. apply insert_fixup_spec. Qed.

Lemma insert_fixup_correct_witness :
  (good tree_1_2_3_linked (plug [FR RED E 3 2 20; FR BLACK E 2 1 10] (T RED E 4 3 30 E)) /\
   is_rb (T RED E 4 3 30 E) 0 /\ ctx_ok_top [FR RED E 3 2 20; FR BLACK E 2 1 10] 0 /\
   ([FR RED E 3 2 20; FR BLACK E 2 1 10] = [] \/
    tcolor (plug [FR RED E 3 2 20; FR BLACK E 2 1 10] (T RED E 4 3 30 E)) = BLACK)) /\
  exists tr n', good (insert_fixup tree_1_2_3_linked 4) tr /\ is_rb tr n' /\ tcolor tr = BLACK /\
    elements tr = elements (plug [FR RED E 3 2 20; FR BLACK E 2 1 10] (T RED E 4 3 30 E)).
Proof.
  assert (G : good tree_1_2_3_linked (plug [FR RED E 3 2 20; FR BLACK E 2 1 10] (T RED E 4 3 30 E)))
    by good_by_check.
  assert (R : is_rb (T RED E 4 3 30 E) 0) by (repeat constructor).
  assert (C : ctx_ok_top [FR RED E 3 2 20; FR BLACK E 2 1 10] 0).
  { simpl. split; [constructor|]. split; [intros _; reflexivity|].
    split; [constructor|]. split; [intros ?; discriminate|exact I]. }
  assert (B : [FR RED E 3 2 20; FR BLACK E 2 1 10] = [] \/
              tcolor (plug [FR RED E 3 2 20; FR BLACK E 2 1 10] (T RED E 4 3 30 E)) = BLACK)
    by (right; reflexivity).
  split; [tauto|].
  exact (insert_fixup_correct tree_1_2_3_linked [FR RED E 3 2 20; FR BLACK E 2 1 10] E 4 3 30 E 0 G R C B).
Defined.


Lemma rb_facts_1_2 :
  good tree_1_2 tr_1_2 /\ is_rb tr_1_2 1 /\ tcolor tr_1_2 = BLACK /\ keys_sorted tr_1_2.
Proof.
  split; [good_by_check|]. split; [repeat constructor|]. split; [reflexivity|].
  unfold keys_sorted, tr_1_2. simpl. repeat constructor; simpl; lia.
Qed.

(** X4: [insert(k, v)] on a red-black tree with BLACK root and increasing keys
    gives such a tree again, whose in-order sequence is the old one with
    [(k, v)] at the place of [k], replacing the old entry for [k] if any. *)
Theorem insert_keeps_rb t tr n k v :
  good t tr -> is_rb tr n -> tcolor tr = BLACK -> keys_sorted tr ->
  exists tr' n', good (fst (LockCoupled.insert t k v)) tr' /\ is_rb tr' n' /\
    tcolor tr' = BLACK /\ keys_sorted tr' /\
    exists L R, (elements tr = L ++ R \/ exists v0, elements tr = L ++ [(k, v0)] ++ R) /\
      elements tr' = L ++ [(k, v)] ++ R /\
      (forall e, In e L -> (e.1 < k)%Z) /\ (forall e, In e R -> (k < e.1)%Z).
Proof. apply insert_spec. Qed.

Lemma insert_keeps_rb_witness :
  (good tree_1_2 tr_1_2 /\ is_rb tr_1_2 1 /\ tcolor tr_1_2 = BLACK /\ keys_sorted tr_1_2) /\
  exists tr' n', good (fst (LockCoupled.insert tree_1_2 3 30)) tr' /\ is_rb tr' n' /\
    tcolor tr' = BLACK /\ keys_sorted tr' /\
    exists L R, (elements tr_1_2 = L ++ R \/ exists v0, elements tr_1_2 = L ++ [(3%Z, v0)] ++ R) /\
      elements tr' = L ++ [(3%Z, 30%Z)] ++ R /\
      (forall e, In e L -> (e.1 < 3)%Z) /\ (forall e, In e R -> (3 < e.1)%Z).
Proof.
  pose proof rb_facts_1_2 as (G & R & B & S). split; [tauto|].
  exact (insert_keeps_rb tree_1_2 tr_1_2 1 3 30 G R B S).
Defined.

(** X5: on a tree with increasing keys, [lookup(k)] returns the value stored
    with [k], and nothing when no node holds [k]. *)
Theorem lookup_finds s tr k :
  good s tr -> keys_sorted tr -> fst (LockCoupled.lookup s k) = find_key k (elements tr).
Proof. apply lookup_spec. Qed.

Lemma lookup_finds_witness :
  (good tree_1_2 tr_1_2 /\ keys_sorted tr_1_2) /\
  fst (LockCoupled.lookup tree_1_2 2) = find_key 2 (elements tr_1_2).
Proof.
  pose proof rb_facts_1_2 as (G & _ & _ & S). split; [tauto|].
  exact (lookup_finds tree_1_2 tr_1_2 2 G S).
Defined.

(** X6: after [insert(k, v)] on a red-black tree with BLACK root and
    increasing keys, [lookup(k)] returns [v] and [lookup] of any other key
    returns what it returned before. *)
Theorem insert_then_lookup t tr n k v k' :
  good t tr -> is_rb tr n -> tcolor tr = BLACK -> keys_sorted tr ->
  fst (LockCoupled.lookup (fst (LockCoupled.insert t k v)) k') =
  if Z.eqb k' k then Some v else fst (LockCoupled.lookup t k').
Proof.
  intros G Hrb Hbl Hs.
  destruct (insert_spec t tr n k v G Hrb Hbl Hs)
    as (tr' & n' & G' & _ & _ & Hs' & L & R & Hold & Hnew & HL & HR).
  rewrite (lookup_spec _ _ _ G' Hs'), (lookup_spec _ _ _ G Hs), Hnew.
  destruct (Z.eqb_spec k' k) as [->|Hne].
  - rewrite find_key_app, (find_key_none k L); [simpl; by rewrite Z.eqb_refl|].
    intros e He. specialize (HL e He). lia.
  - rewrite find_key_app. simpl. rewrite (proj2 (Z.eqb_neq k' k) Hne).
    destruct Hold as [-> | [v0 ->]]; rewrite find_key_app; [done|].
    simpl. by rewrite (proj2 (Z.eqb_neq k' k) Hne).
Qed.

Lemma insert_then_lookup_witness :
  (good tree_1_2 tr_1_2 /\ is_rb tr_1_2 1 /\ tcolor tr_1_2 = BLACK /\ keys_sorted tr_1_2) /\
  fst (LockCoupled.lookup (fst (LockCoupled.insert tree_1_2 3 30)) 3) =
  if Z.eqb 3 3 then Some 30%Z else fst (LockCoupled.lookup tree_1_2 3).
Proof.
  pose proof rb_facts_1_2 as (G & R & B & S). split; [tauto|].
  exact (insert_then_lookup tree_1_2 tr_1_2 1 3 30 3 G R B S).
Defined.

Lemma lc_lookup_loop_nil f t k : fst (LockCoupled.lookup_loop f t k t.(NIL)) = None.
Proof. destruct f; simpl; [done|]. by rewrite ptr_eqb_refl. Qed.

Lemma ds_lookup_loop f t k n :
  fst (DeadlockSafe.lookup_loop f t k n) = fst (LockCoupled.lookup_loop f t k n).
Proof.
  revert n; induction f as [|f IH]; intros n; simpl; [done|].
  destruct (ptr_eqb n t.(NIL)); [done|].
  destruct (comp k (key_of t n)); [|destruct (comp (key_of t n) k); [|done]].
  1: destruct (ptr_eqb (left_of t n) t.(NIL)) eqn:Hc.
  3: destruct (ptr_eqb (right_of t n) t.(NIL)) eqn:Hc.
  all: try (apply N.eqb_eq in Hc; rewrite Hc;
            destruct (LockCoupled.lookup_loop f t k t.(NIL)) as [r tr] eqn:El;
            pose proof (lc_lookup_loop_nil f t k) as H0; rewrite El in H0; simpl in *; by subst).
  all: match goal with |- context [DeadlockSafe.lookup_loop ?f ?t ?k ?c] =>
         pose proof (IH c) as Hc'; destruct (DeadlockSafe.lookup_loop f t k c) as [r tr];
         destruct (LockCoupled.lookup_loop f t k c) as [r' tr']; exact Hc' end.
Qed.

Lemma search_loop_lc f t k n :
  LockBased.search_loop f t k n = fst (LockCoupled.lookup_loop f t k n).
Proof.
  revert n; induction f as [|f IH]; intros n; simpl; [done|].
  destruct (ptr_eqb n t.(NIL)); [done|].
  destruct (comp k (key_of t n)); [|destruct (comp (key_of t n) k); [|done]];
    rewrite IH; by destruct (LockCoupled.lookup_loop f t k _).
Qed.

(** X7: [lookup_simple], the deadlock-safe [lookup] and [lookup_hybrid] of
    lock_based_rb_tree.cpp return, on every tree object, what the
    lock-coupled [lookup] of the header returns. *)
Theorem lookups_agree t k :
  LockBased.lookup_simple t k = fst (LockCoupled.lookup t k) /\
  fst (DeadlockSafe.lookup t k) = fst (LockCoupled.lookup t k) /\
  LockBased.lookup_hybrid t k = fst (LockCoupled.lookup t k).
Proof.
  assert (H : LockBased.search_loop (fuel t) t k t.(root) = fst (LockCoupled.lookup t k)).
  { unfold LockCoupled.lookup. rewrite search_loop_lc.
    by destruct (LockCoupled.lookup_loop _ _ _ _). }
  split; [exact H|]. split; [|exact H].
  rewrite <- H, search_loop_lc. unfold DeadlockSafe.lookup.
  destruct (ptr_eqb t.(root) t.(NIL)) eqn:Hr.
  - apply N.eqb_eq in Hr. rewrite Hr. symmetry. apply lc_lookup_loop_nil.
  - rewrite <- ds_lookup_loop. by destruct (DeadlockSafe.lookup_loop _ _ _ _).
Qed.

Lemma insert_search_rf f t k y x :
  LockBased.insert_search f t k y x = RaceFree.insert_descent f t k y x.
Proof.
  revert y x; induction f as [|f IH]; intros y x; simpl; [done|].
  destruct (ptr_eqb x t.(NIL)); [done|].
  destruct (comp k (key_of t x)); [apply IH|]. destruct (comp (key_of t x) k); [apply IH|done].
Qed.

Lemma insert_descent_rf_y f t k y x :
  y <> t.(NIL) -> (RaceFree.insert_descent f t k y x).1.1 <> t.(NIL).
Proof.
  revert y x; induction f as [|f IH]; intros y x Hy; simpl; [done|].
  destruct (ptr_eqb x t.(NIL)) eqn:Hx; [done|]. apply N.eqb_neq in Hx.
  destruct (comp k (key_of t x)); [by apply IH|]. destruct (comp (key_of t x) k); [by apply IH|done].
Qed.

Lemma lb_insert_rf t tr k v : good t tr -> LockBased.insert t k v = RaceFree.insert t k v.
Proof.
  intros G. destruct (good_nil _ _ G) as [par Hn].
  pose proof (good_fresh _ _ G) as Hf. pose proof (good_brk_pos _ _ G) as Hb.
  destruct t as [r nl h b]; cbn [root NIL heap brk] in Hn, Hf, Hb.
  assert (Hnb : nl <> b) by lia.
  destruct (ptr_eqb r nl) eqn:Hr.
  - unfold LockBased.insert, RaceFree.insert, alloc. cbn [root NIL heap brk fst snd].
    apply N.eqb_eq in Hr. subst r. unfold fuel. cbn [RaceFree.insert_descent root NIL heap].
    rewrite !ptr_eqb_refl. cbn [fst snd].
    unfold insert_fixup. unfold fuel. cbn [insert_fixup_loop].
    unfold set_parent, set_right, set_left, set_root, set_color, store, deref, color_of, parent_of.
    cbn. unfold deref. cbn [heap]. rewrite !lookup_insert_eq. cbn.
    rewrite !lookup_insert_ne by done. rewrite Hn. cbn.
    rewrite !insert_insert_eq, lookup_insert_eq. reflexivity.
  - unfold LockBased.insert, RaceFree.insert.
    cbv beta iota zeta delta [alloc].
    match goal with |- context [LockBased.insert_search (fuel ?s) ?s] => set (t3 := s) end.
    assert (E1 : root t3 = r) by reflexivity. assert (E2 : NIL t3 = nl) by reflexivity.
    rewrite E1, E2, Hr, insert_search_rf.
    destruct (RaceFree.insert_descent (fuel t3) t3 k nl r) as [[y x] found] eqn:Hd.
    destruct found; [done|].
    assert (Hy : y <> nl).
    { apply N.eqb_neq in Hr.
      unfold fuel in Hd. cbn [RaceFree.insert_descent] in Hd. rewrite E2, (ptr_eqb_ne _ _ Hr) in Hd.
      destruct (comp k (key_of t3 r)); [|destruct (comp (key_of t3 r) k)];
        [| |congruence];
        (match type of Hd with RaceFree.insert_descent ?f ?s ?kk ?yy ?xx = _ =>
           pose proof (insert_descent_rf_y f s kk yy xx) as Hy' end;
         rewrite Hd in Hy'; apply Hy'; rewrite E2; exact Hr). }
    cbn [NIL set_parent store]. rewrite E2, (ptr_eqb_ne _ _ Hy). reflexivity.
Qed.

(** X8: on a well-formed tree object, [insert] and [insert_hybrid] of
    lock_based_rb_tree.cpp leave the same tree object as the lock-coupled
    [insert] of the header. *)
Theorem lock_based_insert_agrees t tr k v :
  good t tr ->
  LockBased.insert t k v = fst (LockCoupled.insert t k v) /\
  LockBased.insert_hybrid t k v = fst (LockCoupled.insert t k v).
Proof.
  intros G. rewrite insert_rf, <- (lb_insert_rf t tr k v G). split; reflexivity.
Qed.

Lemma lock_based_insert_agrees_witness :
  good tree_1_2 tr_1_2 /\
  (LockBased.insert tree_1_2 0 5 = fst (LockCoupled.insert tree_1_2 0 5) /\
   LockBased.insert_hybrid tree_1_2 0 5 = fst (LockCoupled.insert tree_1_2 0 5)).
Proof.
  pose proof rb_facts_1_2 as (G & _). split; [exact G|].
  exact (lock_based_insert_agrees tree_1_2 tr_1_2 0 5 G).
Defined.

Lemma is_rb_local t n : is_rb t n -> no_red_red t /\ black_balanced t /\ lbh t = n.
Proof.
  induction 1 as [|l p k v r n Hl [IHl1 [IHl2 IHl3]] Hr [IHr1 [IHr2 IHr3]] Hcl Hcr
                 |l p k v r n Hl [IHl1 [IHl2 IHl3]] Hr [IHr1 [IHr2 IHr3]]]; cbn; [done| |].
  - split; [split; [intros _; done|done]|]. split; [split; [congruence|done]|lia].
  - split; [split; [discriminate|done]|]. split; [split; [congruence|done]|lia].
Qed.

Lemma sorted_locally t : StronglySorted ltk (elements t) -> locally_ordered t.
Proof.
  induction t as [|c l IHl p k v r IHr]; cbn; [done|]. intros Hs.
  pose proof Hs as Hs'. apply sorted_split in Hs' as [HL HR].
  apply SS_app in Hs as (HsL & HsR & _). simpl in HsR. apply StronglySorted_inv in HsR as [HsR _].
  split; [|split; [|split; [by apply IHl|by apply IHr]]].
  - destruct l as [|cl ll lp lk lv lr]; cbn; [done|].
    assert (In (lk, lv) (elements (T cl ll lp lk lv lr))) as Hin
      by (cbn; apply in_or_app; right; by left).
    specialize (HL _ Hin). unfold ltk in HL. cbn in HL. lia.
  - destruct r as [|cr rl rp rk rv rr]; cbn; [done|].
    assert (In (rk, rv) (elements (T cr rl rp rk rv rr))) as Hin
      by (cbn; apply in_or_app; right; by left).
    specialize (HR _ Hin). unfold ltk in HR. cbn in HR. lia.
Qed.

(** X9: [validate()] returns true on every tree object that satisfies the
    invariant the public operations keep (red-black shape, BLACK root,
    increasing keys). *)
Theorem validate_accepts_rb_inv s : rb_inv s -> validate s = true.
Proof.
  intros (tr & n & G & Hrb & _ & Hs).
  apply (validate_good s tr G). destruct (is_rb_local tr n Hrb) as (H1 & H2 & _).
  split; [done|]. split; [done|]. by apply sorted_locally.
Qed.

Lemma validate_accepts_rb_inv_witness : rb_inv tree_1_2 /\ validate tree_1_2 = true.
Proof.
  assert (H : rb_inv tree_1_2).
  { destruct rb_facts_1_2 as (G & Hrb & Hc & Hs). exists tr_1_2, 1. done. }
  split; [exact H|]. exact (validate_accepts_rb_inv tree_1_2 H).
Defined.

Lemma elements_sub_sorted cx t : StronglySorted ltk (elements (plug cx t)) ->
  StronglySorted ltk (elements t).
Proof.
  rewrite elements_plug_ctx. intros H. apply SS_app in H as (_ & H & _).
  by apply SS_app in H as (H & _ & _).
Qed.

(** X10: on a tree with increasing keys, the search step of [erase(k)] stops
    at [NIL] exactly when no node holds [k], and otherwise at a node
    holding [k], whose value is the one stored with [k] in the tree. *)
Theorem erase_search_finds s tr k : good s tr -> keys_sorted tr ->
  let z := erase_search (fuel s) s k s.(root) in
  (z = s.(NIL) /\ find_key k (elements tr) = None) \/
  (z <> s.(NIL) /\ key_of s z = k /\ find_key k (elements tr) = Some (val_of s z)).
Proof.
  intros G Hs. cbn zeta. rewrite (good_root _ _ G).
  destruct (erase_search_spec s k tr (fuel s) s.(NIL) (good_rep _ _ G) (good_nil_notin _ _ G)
              (fuel_enough _ _ G)) as (cx & hole & -> & Hok & -> & Hh).
  unfold keys_sorted in Hs. change (StronglySorted ltk (elements (plug cx hole))) in Hs.
  destruct (path_bounds k cx hole Hs Hok) as [HL HR].
  rewrite elements_plug_ctx, !find_key_app.
  rewrite (find_key_none k (lctx cx)) by (intros e He; specialize (HL e He); lia).
  destruct Hh as [->|(c & a & z & v & b & ->)].
  - left. split; [done|]. cbn. apply find_key_none. intros e He. specialize (HR e He). lia.
  - right. pose proof (good_rep _ _ G) as Hrep. apply rep_plug in Hrep as [Hz _].
    cbn [rep] in Hz. destruct Hz as (Hz & _ & _).
    cbn [tptr]. unfold key_of, val_of. rewrite (deref_lookup _ _ _ Hz). cbn [tptr key val].
    split; [|split; [done|]].
    + intros Heq. apply (good_nil_notin _ _ G). rewrite <- Heq, ptrs_plug. cbn. by left.
    + apply elements_sub_sorted in Hs. cbn [elements] in Hs. apply sorted_split in Hs as [HLa _].
      cbn [elements]. rewrite !find_key_app.
      rewrite find_key_none by (intros e He; specialize (HLa e He); unfold ltk in HLa; cbn in HLa; lia).
      cbn. by rewrite Z.eqb_refl.
Qed.

Lemma erase_search_finds_witness :
  (good tree_1_2 tr_1_2 /\ keys_sorted tr_1_2) /\
  (let z := erase_search (fuel tree_1_2) tree_1_2 2 tree_1_2.(root) in
   (z = tree_1_2.(NIL) /\ find_key 2 (elements tr_1_2) = None) \/
   (z <> tree_1_2.(NIL) /\ key_of tree_1_2 z = 2%Z /\
    find_key 2 (elements tr_1_2) = Some (val_of tree_1_2 z))).
Proof.
  destruct rb_facts_1_2 as (G & _ & _ & Hs).
  split; [split; [exact G|exact Hs]|]. exact (erase_search_finds tree_1_2 tr_1_2 2 G Hs).
Defined.

(** X11: [minimum(x)] on a non-empty subtree returns a node without a left
    child whose entry comes first in the subtree's in-order sequence. *)
Theorem minimum_first s cx sub : good s (plug cx sub) -> sub <> E ->
  let m := minimum s (tptr s.(NIL) sub) in
  left_of s m = s.(NIL) /\ exists rest, elements sub = (key_of s m, val_of s m) :: rest.
Proof.
  intros G Hne. cbn zeta.
  pose proof (good_rep _ _ G) as Hrep. apply rep_plug in Hrep as [Hsub _].
  assert (Hnil : s.(NIL) ∉ ptrs sub).
  { intros H. apply (good_nil_notin _ _ G). rewrite ptrs_plug. apply elem_of_app. by left. }
  assert (Hf : length (ptrs sub) < fuel s).
  { pose proof (fuel_enough _ _ G) as H. rewrite ptrs_plug, length_app in H. lia. }
  destruct (minimum_loop_spec s sub (fuel s) _ Hsub Hnil Hf Hne)
    as (dx & cy & y & ky & vy & yr & Hd & Hfl & Hm).
  unfold minimum. rewrite Hm. rewrite Hd in Hsub. apply rep_plug in Hsub as [Hy _].
  cbn [rep] in Hy. destruct Hy as (Hy & _ & _).
  unfold left_of, key_of, val_of. rewrite (deref_lookup _ _ _ Hy). cbn [tptr left key val].
  split; [done|]. rewrite Hd, elements_plug_ctx.
  assert (Hl : lctx dx = []).
  { clear -Hfl. induction Hfl as [|f dx Hf _ IH]; [done|]. destruct f; [done|contradiction]. }
  rewrite Hl. cbn. eexists. reflexivity.
Qed.

Lemma minimum_first_witness :
  (good tree_2_1 (plug [] (T BLACK (T RED E 3 1 10 E) 2 2 20 E)) /\
   T BLACK (T RED E 3 1 10 E) 2 2 20 E <> E) /\
  (let m := minimum tree_2_1 (tptr tree_2_1.(NIL) (T BLACK (T RED E 3 1 10 E) 2 2 20 E)) in
   left_of tree_2_1 m = tree_2_1.(NIL) /\
   exists rest, elements (T BLACK (T RED E 3 1 10 E) 2 2 20 E) =
                (key_of tree_2_1 m, val_of tree_2_1 m) :: rest).
Proof.
  assert (G : good tree_2_1 (plug [] (T BLACK (T RED E 3 1 10 E) 2 2 20 E))) by good_by_check.
  split; [split; [exact G|discriminate]|].
  exact (minimum_first tree_2_1 [] (T BLACK (T RED E 3 1 10 E) 2 2 20 E) G ltac:(discriminate)).
Defined.





Lemma transplant_heap_other s u v q :
  q <> parent_of s u -> q <> v -> (transplant s u v).(heap) !! q = s.(heap) !! q.
Proof.
  intros Hp Hv. unfold transplant.
  destruct (ptr_eqb (parent_of s u) s.(NIL)); [|destruct (ptr_eqb u (left_of s (parent_of s u)))];
    unfold set_parent, set_left, set_right, set_root, store; cbn [heap];
    rewrite !lookup_insert_ne by congruence; reflexivity.
Qed.

Lemma good_links_ne s cx c l z k v r :
  good s (plug cx (T c l z k v r)) ->
  parent_of s z <> z /\ left_of s z <> z /\ right_of s z <> z.
Proof.
  intros G. pose proof (good_rep _ _ G) as Hrep. apply rep_plug in Hrep as [Hz _].
  cbn [rep] in Hz. destruct Hz as (Hz & _ & _).
  pose proof (good_nodup _ _ G) as Hnd. rewrite ptrs_plug in Hnd. cbn [ptrs] in Hnd.
  apply NoDup_cons in Hnd as [Hn1 Hnd]. apply NoDup_cons in Hnd as [Hz1 _].
  unfold parent_of, left_of, right_of. rewrite (deref_lookup _ _ _ Hz). cbn [parent left right].
  split; [|split].
  - destruct cx as [|f cx]; cbn; intros Heq; subst z; [apply Hn1; set_solver|apply Hz1; set_solver].
  - destruct (tptr_cases s.(NIL) l) as [->|Hl]; intros Heq; subst z; [apply Hn1; set_solver|apply Hz1; set_solver].
  - destruct (tptr_cases s.(NIL) r) as [->|Hr]; intros Heq; subst z; [apply Hn1; set_solver|apply Hz1; set_solver].
Qed.

(** X13: the one-child cases of [erase]: [transplant(z, z->right)] on a node
    without a left child, and [transplant(z, z->left)] on a node without a
    right child, splice [z] out: the heap then holds the tree with [z]'s
    subtree replaced by its only child; [z]'s own cell and every cell
    outside the tree are unchanged, except the sentinel's parent link,
    which points at [z]'s former parent when the child is the sentinel. *)
Theorem transplant_splices s cx cz z kz vz b :
  (good s (plug cx (T cz E z kz vz b)) ->
   emoves s (transplant s z (right_of s z)) (plug cx (T cz E z kz vz b)) cx b /\
   (transplant s z (right_of s z)).(heap) !! z = s.(heap) !! z) /\
  (good s (plug cx (T cz b z kz vz E)) ->
   emoves s (transplant s z (left_of s z)) (plug cx (T cz b z kz vz E)) cx b /\
   (transplant s z (left_of s z)).(heap) !! z = s.(heap) !! z).
Proof.
  split; intros G; (split; [by apply erase_left_nil || by apply erase_right_nil|]);
    destruct (good_links_ne _ _ _ _ _ _ _ _ G) as (H1 & H2 & H3);
    apply transplant_heap_other; congruence.
Qed.

Lemma transplant_splices_witness :
  (good tree_1_2 (plug [] (T BLACK E 2 1 10 (T RED E 3 2 20 E))) /\
   (emoves tree_1_2 (transplant tree_1_2 2 (right_of tree_1_2 2))
      (plug [] (T BLACK E 2 1 10 (T RED E 3 2 20 E))) [] (T RED E 3 2 20 E) /\
    (transplant tree_1_2 2 (right_of tree_1_2 2)).(heap) !! 2%N = tree_1_2.(heap) !! 2%N)) /\
  (good tree_2_1 (plug [] (T BLACK (T RED E 3 1 10 E) 2 2 20 E)) /\
   (emoves tree_2_1 (transplant tree_2_1 2 (left_of tree_2_1 2))
      (plug [] (T BLACK (T RED E 3 1 10 E) 2 2 20 E)) [] (T RED E 3 1 10 E) /\
    (transplant tree_2_1 2 (left_of tree_2_1 2)).(heap) !! 2%N = tree_2_1.(heap) !! 2%N)).
Proof.
  assert (G1 : good tree_1_2 (plug [] (T BLACK E 2 1 10 (T RED E 3 2 20 E)))) by good_by_check.
  assert (G2 : good tree_2_1 (plug [] (T BLACK (T RED E 3 1 10 E) 2 2 20 E))) by good_by_check.
  split; split; [exact G1| |exact G2|].
  - exact (proj1 (transplant_splices tree_1_2 [] BLACK 2 1 10 (T RED E 3 2 20 E)) G1).
  - exact (proj2 (transplant_splices tree_2_1 [] BLACK 2 2 20 (T RED E 3 1 10 E)) G2).
Defined.
